(** * libfirm back end: chordal register allocator, GVN-PRE, IA-32 emitter

    A shallow embedding of the parts of

      - [ir/be/bechordal.c]        (interference edges, pressure and assignment pass),
      - [ir/opt/gvn_pre.c]         (value comparison, redundancy test, fixpoint loops),
      - [ir/be/ia32/ia32_emitter.c] (Jcc, ModR/M construction, Minus64Bit)

    that the specification makes statements about, followed by the
    statements themselves; and of further functions of these files (edge
    queries of the interference graph; phi translation; labels, jumps,
    IncSP, CopyB and CMovcc of the emitter) with what the code shows of
    them.  C [int]s are integers of [Z]; bitsets are the
    bits of a [Z]; pointers to IR nodes are node indices; hashed sets and
    maps are lists and [gmap]s. *)

From stdpp Require Import gmap list.
From Stdlib Require Import ZArith Lia Bool.

Open Scope Z_scope.
Set Warnings "-clear-no-such-hyp".

(* ===================================================================== *)
(** * Part I: the embedding *)
(* ===================================================================== *)

(** ** bitset.h as the bits of an integer *)

Module Bitset.

(** Modelled from the spec: the bitsets of [bitset.h], which is not under
    src/ ("a live-bitset", "a bitset of colors currently in use").  A
    bitset is the integer whose bit [pos] is set when position [pos] is in
    the set; a bitset in use is not negative. *)
Definition bitset_t := Z.

Definition bitset_clear_all (_ : bitset_t) : bitset_t := 0.
Definition bitset_set (bs : bitset_t) (pos : Z) : bitset_t := Z.setbit bs pos.
Definition bitset_clear (bs : bitset_t) (pos : Z) : bitset_t := Z.clearbit bs pos.
Definition bitset_is_set (bs : bitset_t) (pos : Z) : bool := Z.testbit bs pos.

(** Modelled from the spec: [bitset_foreach(bs, elm)] of [bitset.h] ("for
    every currently-live value"): the set positions in ascending order. *)
Definition bitset_foreach (bs : bitset_t) : list Z :=
  filter (fun p => Is_true (Z.testbit bs p))
         (Z.of_nat <$> seq 0 (Z.to_nat (Z.log2 bs + 1))).

(** The search of [bitset_next_clear], with the positions it may still
    look at as fuel. *)
Fixpoint next_clear_from (bs : bitset_t) (pos : Z) (fuel : nat) : Z :=
  match fuel with
  | O => pos
  | S fuel' => if Z.testbit bs pos then next_clear_from bs (pos + 1) fuel' else pos
  end.

(** Modelled from the spec: [bitset_next_clear(bs, pos)] of [bitset.h]
    ("the smallest-indexed clear color"): the first clear position at or
    after [pos].  The search runs over the positions up to the one above
    the highest set bit, where a non-negative integer has a clear bit;
    when every position of a bitset of [n] bits is set, the result is
    therefore [n] or more, that is, not a position of the bitset. *)
Definition bitset_next_clear (bs : bitset_t) (pos : Z) : Z :=
  next_clear_from bs pos (Z.to_nat (Z.log2 bs + 2 - pos)).

End Bitset.

(** ** ir/be/bechordal.c *)

Module Chordal.
Import Bitset.

(** *** The interference graph (BUILD_GRAPH) *)

(** [if_edge_t]: the two node numbers of an interference edge. *)
Record if_edge_t := mk_edge { src : Z; tgt : Z }.

#[global] Instance if_edge_eq_dec : EqDecision if_edge_t.
Proof. solve_decision. Defined.

(** [IF_EDGE_HASH(e)] *)
Definition IF_EDGE_HASH (e : if_edge_t) : Z := src e.

(** [if_edge_cmp]: 0 when both ends agree. *)
Definition if_edge_cmp (e1 e2 : if_edge_t) : Z :=
  if negb ((src e1 =? src e2) && (tgt e1 =? tgt e2)) then 1 else 0.

(** Modelled from the spec: the hashed set of [set.h], which is not under
    src/ ("hashed sets for edges and nodes").  A set is the list of its
    entries in insertion order, each with the hash it was entered under;
    [set_find] returns the first entry of the same hash that the compare
    function reports equal (0), [set_insert] enters the key unless such an
    entry exists. *)
Definition set (A : Type) := list (Z * A).

(** Modelled from the spec: [set_find] of [set.h], the entry that the
    compare function reports equal to the key, NULL ([None]) without one. *)
Definition set_find {A} (cmp : A → A → Z) (s : set A) (key : A) (hash : Z) : option A :=
  snd <$> List.find (fun he => (fst he =? hash) && (cmp (snd he) key =? 0)) s.

(** Modelled from the spec: [set_insert] of [set.h] ("at most one edge per
    unordered pair"): the key is entered unless the set has an entry that
    compares equal. *)
Definition set_insert {A} (cmp : A → A → Z) (s : set A) (key : A) (hash : Z) : set A :=
  match set_find cmp s key hash with
  | Some _ => s
  | None => s ++ [(hash, key)]
  end.

(** [border_t]: one end of a live interval inside a block. *)
Record border_t := mk_border {
  b_irn      : Z;     (* the node, by its graph number *)
  b_step     : Z;
  b_pressure : Z;
  b_is_def   : bool;
  b_is_real  : bool
}.

(** [env_t].  The interference graph nodes are kept as a map from node
    number to the neighbour set ([if_node_t.neighb]). *)
Record env_t := mk_env {
  nodes     : gmap Z (gset Z);
  edges     : set if_edge_t;
  live      : bitset_t;
  colors    : bitset_t;
  in_colors : bitset_t;
  colors_n  : Z
}.

Definition set_edges (e : env_t) (x : set if_edge_t) : env_t :=
  mk_env (nodes e) x (live e) (colors e) (in_colors e) (colors_n e).
Definition set_nodes (e : env_t) (x : gmap Z (gset Z)) : env_t :=
  mk_env x (edges e) (live e) (colors e) (in_colors e) (colors_n e).
Definition set_live (e : env_t) (x : bitset_t) : env_t :=
  mk_env (nodes e) (edges e) x (colors e) (in_colors e) (colors_n e).
Definition set_colors (e : env_t) (x : bitset_t) : env_t :=
  mk_env (nodes e) (edges e) (live e) x (in_colors e) (colors_n e).
Definition set_in_colors (e : env_t) (x : bitset_t) : env_t :=
  mk_env (nodes e) (edges e) (live e) (colors e) x (colors_n e).

(** [edge_init]: bring the smaller entry to [src]. *)
Definition edge_init (src tgt : Z) : if_edge_t :=
  if src >? tgt then mk_edge tgt src else mk_edge src tgt.

(** [set_insert(env->nodes, &node, ...)] with a fresh empty neighbour set:
    an existing node of that number is kept. *)
Definition node_insert (ns : gmap Z (gset Z)) (nnr : Z) : gmap Z (gset Z) :=
  match ns !! nnr with
  | Some _ => ns
  | None => <[nnr := ∅]> ns
  end.

Definition neighb_insert (ns : gmap Z (gset Z)) (nnr other : Z) : gmap Z (gset Z) :=
  match ns !! nnr with
  | Some nb => <[nnr := nb ∪ {[other]}]> ns
  | None => ns
  end.

(** [add_if] *)
Definition add_if (env : env_t) (src tgt : Z) : env_t :=
  let edge := edge_init src tgt in
  let env := set_edges env (set_insert if_edge_cmp (edges env) edge (IF_EDGE_HASH edge)) in
  let ns := node_insert (nodes env) src in
  let ns := node_insert ns tgt in
  let ns := neighb_insert ns src tgt in
  let ns := neighb_insert ns tgt src in
  set_nodes env ns.

(** [are_connected] *)
Definition are_connected (env : env_t) (src tgt : Z) : bool :=
  let edge := edge_init src tgt in
  bool_decide (is_Some (set_find if_edge_cmp (edges env) edge (IF_EDGE_HASH edge))).

(** *** What the allocator reads from the graph *)

(** The graph as the allocator sees it: nodes are identified by their
    graph number ([get_irn_graph_nr]). *)
Record ir_graph := mk_graph {
  has_reg_class : Z → bool;       (* arch_irn_has_reg_class(arch_env, irn, 0, cls) *)
  is_Phi        : Z → bool;
  get_irn_ins   : Z → list Z;     (* get_irn_n(irn, 0 .. arity-1) *)
  sched         : Z → list Z;     (* the schedule of a block, first to last *)
  live_in       : Z → list Z;     (* get_live_in(block) *)
  live_end      : Z → list Z      (* get_live_end(block) *)
}.

Definition is_live_in (g : ir_graph) (block irn : Z) : bool :=
  bool_decide (irn ∈ live_in g block).

(** *** The pressure pass *)

Definition unsigned (z : Z) : Z := z mod 2 ^ 32.

(** The local state of [pressure]: the environment, the border list of
    the block ([head], appended at its tail) and the counters. *)
Record pressure_st := mk_pst {
  p_env      : env_t;
  p_color    : gmap Z Z;        (* the colour slot of the nodes; absent is NO_COLOR *)
  p_head     : list border_t;
  p_step     : Z;
  p_pressure : Z
}.

(** [border_add]: the border is filled in and appended to the list.  (That
    the record of a def is allocated together with the one of its use and
    found again through the link of the node, [other_end], is a matter of
    the addresses of the records; the borders here are their contents.) *)
Definition border_add (head : list border_t) (irn step pressure : Z) (is_def is_real : bool)
  : list border_t :=
  head ++ [mk_border irn step pressure is_def is_real].

(** [border_def(irn, step, real)]: passes [pressure--]. *)
Definition border_def (st : pressure_st) (irn : Z) (real : bool) : pressure_st :=
  mk_pst (p_env st) (p_color st)
         (border_add (p_head st) irn (p_step st) (p_pressure st) true real)
         (p_step st)
         (unsigned (p_pressure st - 1)).

(** [border_use(irn, step, real)]: passes [++pressure]. *)
Definition border_use (st : pressure_st) (irn : Z) (real : bool) : pressure_st :=
  let pr := unsigned (p_pressure st + 1) in
  mk_pst (p_env st) (p_color st)
         (border_add (p_head st) irn (p_step st) pr false real) (p_step st) pr.

Definition with_env (st : pressure_st) (env : env_t) : pressure_st :=
  mk_pst env (p_color st) (p_head st) (p_step st) (p_pressure st).

(** [set_irn_color(irn, NO_COLOR)] *)
Definition erase_color (st : pressure_st) (irn : Z) : pressure_st :=
  mk_pst (p_env st) (delete irn (p_color st)) (p_head st) (p_step st) (p_pressure st).

Definition incr_step (st : pressure_st) : pressure_st :=
  mk_pst (p_env st) (p_color st) (p_head st) (unsigned (p_step st + 1)) (p_pressure st).

(** The values live out of the block get a final use. *)
Definition pressure_live_end (g : ir_graph) (st : pressure_st) (irn : Z) : pressure_st :=
  let st := with_env st (set_live (p_env st) (bitset_set (live (p_env st)) irn)) in
  if has_reg_class g irn then border_use st irn false else st.

(** One operand of an instruction that is not a Phi. *)
Definition pressure_use (g : ir_graph) (st : pressure_st) (op : Z) : pressure_st :=
  if has_reg_class g op then
    if negb (bitset_is_set (live (p_env st)) op) then
      let st := border_use st op true in
      with_env st (set_live (p_env st) (bitset_set (live (p_env st)) op))
    else st
  else st.

(** One instruction of the reverse schedule walk. *)
Definition pressure_insn (g : ir_graph) (st : pressure_st) (irn : Z) : pressure_st :=
  let st := erase_color st irn in
  let st :=
    if has_reg_class g irn then
      let nr := irn in
      let st := with_env st (set_live (p_env st) (bitset_clear (live (p_env st)) nr)) in
      let st := border_def st irn true in
      with_env st (foldl (fun env elm => add_if env nr elm)
                         (p_env st) (bitset_foreach (live (p_env st))))
    else st in
  let st :=
    if negb (is_Phi g irn) then foldl (pressure_use g) st (get_irn_ins g irn) else st in
  incr_step st.

(** The initial defs of the live-in values. *)
Definition pressure_live_in (g : ir_graph) (st : pressure_st) (irn : Z) : pressure_st :=
  if has_reg_class g irn then
    let st := with_env st (set_live (p_env st) (bitset_set (live (p_env st)) irn)) in
    border_def st irn false
  else st.

(** [pressure(block, env)]: the environment and the colour slots
    afterwards, and the border list of the block. *)
Definition pressure (g : ir_graph) (block : Z) (env : env_t) (color : gmap Z Z)
  : env_t * gmap Z Z * list border_t :=
  let env := set_live env (bitset_clear_all (live env)) in
  let st := mk_pst env color [] 0 0 in
  let st := foldl (pressure_live_end g) st (live_end g block) in
  let st := incr_step st in
  let st := foldl (pressure_insn g) st (rev (sched g block)) in
  let st := foldl (pressure_live_in g) st (live_in g block) in
  (p_env st, p_color st, p_head st).

(** The allocator state between the blocks of a walk: the environment,
    the colour slots, and the border list of every block visited. *)
Record walk_st := mk_walk {
  w_env   : env_t;
  w_color : gmap Z Z;
  w_heads : gmap Z (list border_t)
}.

(** [dom_tree_walk_irg(irg, pressure, NULL, env)] over the blocks in the
    order of the walk. *)
Definition pressure_walk (g : ir_graph) (blocks : list Z) (w : walk_st) : walk_st :=
  foldl (fun w block =>
           let '(env, color, head) := pressure g block (w_env w) (w_color w) in
           mk_walk env color (<[block := head]> (w_heads w)))
        w blocks.

(** *** The assignment pass *)

(** The invariant violations that stop the allocator. *)
Inductive fatal :=
| live_in_without_register        (* "Nodfe must have been assigned a register" *)
| no_register_for_index (col : Z) (* the colour is not an index of the class *)
| already_assigned                (* "This node must not have been assigned a register yet" *)
| def_already_live                (* "Value's definition must not have been encountered" *)
| use_without_register            (* "Register must have been assigned" *)
| use_not_live.                   (* "Cannot have a non live use" *)

Definition result (A : Type) : Type := fatal + A.

Definition bind {A B} (r : result A) (k : A → result B) : result B :=
  match r with
  | inl e => inl e
  | inr a => k a
  end.

Notation "'do' x <- r ; k" := (bind r (fun x => k))
  (at level 10, x name, r at level 100, k at level 200).

Definition assert (b : bool) (e : fatal) : result unit :=
  if b then inr tt else inl e.

(** A loop whose body can stop the allocator. *)
Fixpoint foreach {A S} (body : S → A → result S) (st : S) (l : list A) : result S :=
  match l with
  | [] => inr st
  | x :: l' => do st' <- body st x; foreach body st' l'
  end.

(** Modelled from the spec: [arch_register_for_index] of [bearch.h], which
    is not under src/.  It returns the register of the class with the
    given index; a register is represented by its index.  "The assigned
    color of a node lies in [0, colors_n)" and "reaching a def with every
    color in use is a fatal invariant violation": an index outside
    [0, n_regs) has no register and the allocator stops. *)
Definition arch_register_for_index (n_regs idx : Z) : result Z :=
  if (0 <=? idx) && (idx <? n_regs) then inr idx
  else inl (no_register_for_index idx).

(** The state of [assign]: the environment and the registers assigned so
    far ([arch_get_irn_register], a register by its index). *)
Record assign_st := mk_ast {
  a_env  : env_t;
  a_regs : gmap Z Z
}.

(** The first loop: the colours of the live-in values are in use. *)
Definition assign_live_in (g : ir_graph) (st : assign_st) (irn : Z) : result assign_st :=
  if has_reg_class g irn then
    match a_regs st !! irn with
    | None => inl live_in_without_register
    | Some col =>
        let env := a_env st in
        let env := set_colors env (bitset_set (colors env) col) in
        let env := set_in_colors env (bitset_set (in_colors env) col) in
        let env := set_live env (bitset_set (live env) irn) in
        inr (mk_ast env (a_regs st))
    end
  else inr st.

(** The body of the loop over the borders. *)
Definition assign_border (g : ir_graph) (block : Z) (st : assign_st) (b : border_t)
  : result assign_st :=
  let irn := b_irn b in
  let nr := irn in
  let env := a_env st in
  if b_is_def b && negb (is_live_in g block irn) then
    let col := bitset_next_clear (colors env) 0 in
    do reg <- arch_register_for_index (colors_n env) col;
    do _u <- assert (bool_decide (a_regs st !! irn = None)) already_assigned;
    do _u <- assert (negb (bitset_is_set (live env) nr)) def_already_live;
    let env := set_colors env (bitset_set (colors env) col) in
    let env := set_live env (bitset_set (live env) nr) in
    inr (mk_ast env (<[irn := reg]> (a_regs st)))
  else if negb (b_is_def b) then
    match a_regs st !! irn with
    | None => inl use_without_register
    | Some col =>
        do _u <- assert (bitset_is_set (live env) nr) use_not_live;
        let env := set_colors env (bitset_clear (colors env) col) in
        let env := set_live env (bitset_clear (live env) nr) in
        inr (mk_ast env (a_regs st))
    end
  else inr st.

(** [assign(block, env)], over the border list [head] of the block. *)
Definition assign (g : ir_graph) (head : list border_t) (block : Z) (st : assign_st)
  : result assign_st :=
  let env := a_env st in
  let env := set_live env (bitset_clear_all (live env)) in
  let env := set_colors env (bitset_clear_all (colors env)) in
  let env := set_in_colors env (bitset_clear_all (in_colors env)) in
  do st <- foreach (assign_live_in g) (mk_ast env (a_regs st)) (live_in g block);
  foreach (assign_border g block) st (rev head).

(** [be_ra_chordal]: the pressure walk and then the assignment walk over
    the blocks of the dominator tree walk.  The spill pass between them
    ([be_ra_chordal_spill(irg)], not under src/) is not handed the
    environment.  The environment of the result is what
    [set_irg_ra_link(irg, env)] stores. *)
Definition be_ra_chordal (g : ir_graph) (blocks : list Z) (n_regs : Z)
           (color regs : gmap Z Z) : result assign_st :=
  let env := mk_env ∅ [] 0 0 0 n_regs in
  let w := pressure_walk g blocks (mk_walk env color ∅) in
  foreach (fun st block => assign g (default [] (w_heads w !! block)) block st)
          (mk_ast (w_env w) regs) blocks.

(** *** [phi_ops_interfere] *)

(** A node as [phi_ops_interfere] reads it: its graph and its number. *)
Record ir_node := mk_node {
  get_irn_irg      : nat;
  get_irn_graph_nr : Z
}.

(** [phi_ops_interfere(a, b)] with BUILD_GRAPH; [ra_link] is the
    environment stored at each graph.  [None] is the failed assertion
    "Both nodes must be in the same graph" or a graph without link. *)
Definition phi_ops_interfere (ra_link : gmap nat env_t) (a b : ir_node) : option bool :=
  let irg := get_irn_irg a in
  match ra_link !! irg with
  | None => None
  | Some env =>
      if bool_decide (irg = get_irn_irg b)
      then Some (are_connected env (get_irn_graph_nr a) (get_irn_graph_nr b))
      else None
  end.

End Chordal.

(** ** ir/be/bechordal.c: the interference graph from outside *)

Module ChordalGraph.
Import Chordal.

(** [ifg_has_edge(irg, n1, n2)], on the numbers of the two nodes; [None]
    for a graph without environment. *)
Definition ifg_has_edge (ra_link : gmap nat env_t) (irg : nat) (n1 n2 : Z) : option bool :=
  env ← ra_link !! irg; Some (are_connected env n1 n2).

End ChordalGraph.

(** ** ir/opt/gvn_pre.c *)

Module GvnPre.

(** *** Nodes *)

(** The opcodes that the pass tells apart, and some ordinary ones. *)
Inductive ir_opcode :=
| iro_Block | iro_Phi | iro_Const | iro_SymConst | iro_Proj
| iro_Load | iro_Store | iro_Div | iro_Mod | iro_Call
| iro_Add | iro_Sub | iro_Mul | iro_Conv | iro_Jmp.

#[global] Instance ir_opcode_eq_dec : EqDecision ir_opcode.
Proof. solve_decision. Defined.

Inductive ir_mode :=
| mode_Is | mode_Iu | mode_P | mode_F | mode_b | mode_M | mode_X | mode_T | mode_BB.

#[global] Instance ir_mode_eq_dec : EqDecision ir_mode.
Proof. solve_decision. Defined.

(** A node: [get_irn_op], [get_irn_mode], the inputs [get_irn_n], the
    attributes (one number stands for them) and [get_nodes_block].  A
    pointer to a node is its index in the graph. *)
Record ir_node := mk_irn {
  irn_op    : ir_opcode;
  irn_mode  : ir_mode;
  irn_in    : list nat;
  irn_attr  : Z;
  irn_block : nat
}.

#[global] Instance ir_node_inhabited : Inhabited ir_node :=
  populate (mk_irn iro_Block mode_BB [] 0 0).

(** What the op table says about an opcode ([irop.c] is not under src/):
    the flags and the attribute comparison of the op, if it has one. *)
Record ir_op := mk_op {
  uses_memory   : bool;                    (* is_memop *)
  cse_neutral   : bool;                    (* is_irn_cse_neutral *)
  constlike     : bool;                    (* is_irn_constlike *)
  node_cmp_attr : option (Z → Z → Z)       (* ops.node_cmp_attr; 0 is equal *)
}.

(** The parts of libfirm that the pass calls and that are not under src/. *)
Record firm := mk_firm {
  op_table       : ir_opcode → ir_op;
  ir_node_hash   : list ir_node → nat → Z;      (* the hash of the value table *)
  tarval_between : Z → Z → ir_node → bool       (* the two [tarval_cmp] tests on a Const *)
}.

Section Nodes.
Context (F : firm) (g : list ir_node).

Definition get_irn_op (n : nat) : ir_opcode := irn_op (g !!! n).
Definition get_irn_mode (n : nat) : ir_mode := irn_mode (g !!! n).
Definition get_irn_arity (n : nat) : nat := length (irn_in (g !!! n)).
Definition get_nodes_block (n : nat) : nat := irn_block (g !!! n).

Definition is_Phi (n : nat) : bool := bool_decide (get_irn_op n = iro_Phi).
Definition is_Block (n : nat) : bool := bool_decide (get_irn_op n = iro_Block).
Definition is_Load (n : nat) : bool := bool_decide (get_irn_op n = iro_Load).
Definition is_Const (n : nat) : bool := bool_decide (get_irn_op n = iro_Const).
Definition is_memop (n : nat) : bool := uses_memory (op_table F (get_irn_op n)).
Definition is_irn_cse_neutral (n : nat) : bool := cse_neutral (op_table F (get_irn_op n)).
Definition is_irn_constlike (n : nat) : bool := constlike (op_table F (get_irn_op n)).

(** The loop of [compare_gvn_identities] over the inputs: whether some
    pair of inputs makes the nodes differ. *)
Fixpoint ins_differ (ins_a ins_b : list nat) : bool :=
  match ins_a, ins_b with
  | pred_a :: ins_a', pred_b :: ins_b' =>
      if negb (bool_decide (pred_a = pred_b))
         && (negb (is_irn_cse_neutral pred_a) || negb (is_irn_cse_neutral pred_b))
      then true
      else ins_differ ins_a' ins_b'
  | _, _ => false
  end.

(** [compare_gvn_identities(elt, key)]: 0 when the nodes are the same
    value.  ([get_opt_global_cse()] is on while the pass runs.) *)
Definition compare_gvn_identities (a b : nat) : Z :=
  if bool_decide (a = b) then 0
  else if is_Phi a || is_Phi b then 1
  else if (is_memop a || is_memop b) && (negb (is_Load a) || negb (is_Load b)) then 1
  else if negb (bool_decide (get_irn_op a = get_irn_op b))
          || negb (bool_decide (get_irn_mode a = get_irn_mode b)) then 1
  else if negb (bool_decide (get_irn_arity a = get_irn_arity b)) then 1
  else if is_Block a || is_Block b then 1
  else if ins_differ (irn_in (g !!! a)) (irn_in (g !!! b)) then 1
  else match node_cmp_attr (op_table F (get_irn_op a)) with
       | Some cmp => cmp (irn_attr (g !!! a)) (irn_attr (g !!! b))
       | None => 0
       end.
End Nodes.

(** *** The value table and the value map *)

(** The state of value numbering: the graph, the value map
    ([value_map]) and the value table of the graph (each entry with its
    hash). *)
Record gvn_state := mk_gvn {
  graph       : list ir_node;
  value_map   : gmap nat nat;
  value_table : list (Z * nat)
}.

(** [new_ir_node] (with [copy_node_attr]): the node is appended to the
    graph. *)
Definition new_ir_node (st : gvn_state) (n : ir_node) : gvn_state * nat :=
  (mk_gvn (graph st ++ [n]) (value_map st) (value_table st), length (graph st)).

(** Modelled from the spec: [identify_remember] of [iropt.c], which is not
    under src/.  "Hash each node by (opcode, mode, attributes,
    value-numbers-of-inputs).  Two nodes collide iff structurally
    equivalent": the node is looked up in the value table, a hash set
    compared with [compare_gvn_identities]; the entry found is returned,
    and when there is none the node is entered and returned. *)
Definition identify_remember (F : firm) (st : gvn_state) (n : nat) : gvn_state * nat :=
  let h := ir_node_hash F (graph st) n in
  match List.find (fun he => (fst he =? h)
                             && (compare_gvn_identities F (graph st) (snd he) n =? 0))
                  (value_table st) with
  | Some he => (st, snd he)
  | None => (mk_gvn (graph st) (value_map st) (value_table st ++ [(h, n)]), n)
  end.

(** [identify] *)
Definition identify (F : firm) (st : gvn_state) (irn : nat) : gvn_state * nat :=
  match value_map st !! irn with
  | Some value => (st, value)
  | None => identify_remember F st irn
  end.

(** One round of the loop of [remember] over the inputs: the state, the
    array [in] so far and [changed]. *)
Definition remember_pred (F : firm) (acc : gvn_state * list nat * bool) (pred : nat)
  : gvn_state * list nat * bool :=
  let '(st, ins, changed) := acc in
  let '(st, pred_value) := identify F st pred in
  if is_Phi (graph st) pred then (st, ins ++ [pred], changed)
  else (st, ins ++ [pred_value], changed || negb (bool_decide (pred = pred_value))).

(** [remember] *)
Definition remember (F : firm) (st : gvn_state) (irn : nat) : gvn_state * nat :=
  let n := graph st !!! irn in
  let '(st, ins, changed) := foldl (remember_pred F) (st, [], false) (irn_in n) in
  let '(st, value) :=
    if changed : bool then
      let '(st, nn) :=
        new_ir_node st (mk_irn (irn_op n) (irn_mode n) ins (irn_attr n) (irn_block n)) in
      identify_remember F st nn
    else identify_remember F st irn in
  (mk_gvn (graph st) (<[irn := value]> (value_map st)) (value_table st), value).

(** [identify_or_remember] *)
Definition identify_or_remember (F : firm) (st : gvn_state) (irn : nat) : gvn_state * nat :=
  match value_map st !! irn with
  | Some value => (st, value)
  | None => remember F st irn
  end.

(** The value numbering step of [topo_walker], over the nodes in the
    order of the walk. *)
Definition remember_all (F : firm) (st : gvn_state) (irns : list nat) : gvn_state :=
  foldl (fun st irn => if is_Block (graph st) irn then st else (remember F st irn).1) st irns.

(** *** Value sets and block info *)

(** Modelled from the spec: the value set of [valueset.h], which is not
    under src/.  "An insertion-ordered mapping from value number to
    representative expression": the list of the pairs (value, expr) in
    the order of insertion, with at most one pair per value. *)
Definition ir_valueset_t := list (nat * nat).

(** Modelled from the spec: [ir_valueset_lookup] of [valueset.h], the
    expression that the set holds for the value ("look up the
    phi-translated value in avail_out(P)"), NULL ([None]) without one. *)
Definition ir_valueset_lookup (s : ir_valueset_t) (value : nat) : option nat :=
  snd <$> List.find (fun ve => bool_decide (fst ve = value)) s.

(** Modelled from the spec: [ir_valueset_size] of [valueset.h], the number
    of values in the set. *)
Definition ir_valueset_size (s : ir_valueset_t) : nat := length s.

(** [block_info] *)
Record block_info := mk_info {
  exp_gen    : ir_valueset_t;
  avail_out  : ir_valueset_t;
  antic_in   : ir_valueset_t;
  antic_done : ir_valueset_t;
  new_set    : option ir_valueset_t;
  trans      : gmap nat nat;
  avail      : option nat;
  found      : Z
}.

Definition set_avail_found (i : block_info) (a : option nat) (f : Z) : block_info :=
  mk_info (exp_gen i) (avail_out i) (antic_in i) (antic_done i) (new_set i) (trans i) a f.

(** The block infos, by block ([get_block_info(block)] reads the link of
    the block). *)
Abbreviation block_infos := (gmap nat block_info).

(** [get_Block_cfgpred_block(block, pos)] for every position. *)
Definition cfgpred_blocks (g : list ir_node) (block : nat) : list nat :=
  get_nodes_block g <$> irn_in (g !!! block).

(** [get_translated]; [None] is NULL, also when the block has no info. *)
Definition get_translated (F : firm) (g : list ir_node) (infos : block_infos)
           (block node : nat) : option nat :=
  if is_irn_constlike F g node then Some node
  else info ← infos !! block; trans info !! node.

(** *** [is_partially_redundant] *)

(** The variables of the loop over the predecessors. *)
Record redundancy := mk_red {
  r_state               : gvn_state;
  r_infos               : block_infos;
  r_first_avail         : option nat;
  r_fully_redundant     : Z;
  r_partially_redundant : Z;
  r_mode                : option ir_mode
}.

(** The body of the loop, for the predecessor block [pred_block].
    [None]: the code reads through a NULL pointer (no translation of
    [expr] into the predecessor, or no block info). *)
Definition redundancy_pred (F : firm) (expr : nat) (r : redundancy) (pred_block : nat)
  : option redundancy :=
  pred_info ← r_infos r !! pred_block;
  trans_expr ← get_translated F (graph (r_state r)) (r_infos r) pred_block expr;
  let '(st, trans_value) := identify F (r_state r) trans_expr in
  let g := graph st in
  let avail_expr :=
    if is_Const g trans_expr then Some trans_expr
    else ir_valueset_lookup (avail_out pred_info) trans_value in
  (* value might be available through a not yet existing constant *)
  let avail_expr :=
    if bool_decide (avail_expr = None) && is_Const g trans_expr then
      if tarval_between F (-127) 127 (g !!! trans_expr) then Some trans_expr else None
    else avail_expr in
  match avail_expr with
  | None =>
      Some (mk_red st (<[pred_block := set_avail_found pred_info (Some trans_expr) 0]> (r_infos r))
                   (r_first_avail r) 0 (r_partially_redundant r) (r_mode r))
  | Some e =>
      let infos := <[pred_block := set_avail_found pred_info (Some e) 1]> (r_infos r) in
      let mode := Some (get_irn_mode g e) in
      match r_first_avail r with
      | None => Some (mk_red st infos (Some e) (r_fully_redundant r) 1 mode)
      | Some first =>
          if negb (bool_decide (first = e))
          then Some (mk_red st infos (Some first) 0 1 mode)
          else Some (mk_red st infos (Some first) (r_fully_redundant r) 1 mode)
      end
  end.

Fixpoint redundancy_loop (F : firm) (expr : nat) (r : redundancy) (preds : list nat)
  : option redundancy :=
  match preds with
  | [] => Some r
  | pred_block :: preds' =>
      r' ← redundancy_pred F expr r pred_block; redundancy_loop F expr r' preds'
  end.

(** [is_partially_redundant(block, expr, value)]: the state and the block
    infos afterwards ([avail] and [found] of the predecessors are
    written) and the mode returned, [None] for NULL. *)
Definition is_partially_redundant (F : firm) (st : gvn_state) (infos : block_infos)
           (block expr value : nat) : option (gvn_state * block_infos * option ir_mode) :=
  r ← redundancy_loop F expr (mk_red st infos None 1 0 None) (cfgpred_blocks (graph st) block);
  Some (r_state r, r_infos r,
        if negb (bool_decide (r_partially_redundant r ≠ 0))
           || bool_decide (r_fully_redundant r ≠ 0)
        then None else r_mode r).

(** *** The two fixpoint loops of [gvn_pre] *)

Definition MAX_ANTIC_ITER : Z := 10.
Definition MAX_INSERT_ITER : Z := 3.

(** [pre_env]: the fields that steer the loops, and everything else the
    walkers work on (graph, block infos, value table, pairs, keeps). *)
Record pre_env (S : Type) := mk_pre {
  state      : S;
  changes    : Z;
  first_iter : Z;
  iteration  : Z
}.
Arguments mk_pre {S}.
Arguments state {S}.
Arguments changes {S}.
Arguments first_iter {S}.
Arguments iteration {S}.

Definition set_changes {S} (c : Z) (env : pre_env S) : pre_env S :=
  mk_pre (state env) c (first_iter env) (iteration env).
Definition set_first_iter {S} (f : Z) (env : pre_env S) : pre_env S :=
  mk_pre (state env) (changes env) f (iteration env).
Definition set_iteration {S} (i : Z) (env : pre_env S) : pre_env S :=
  mk_pre (state env) (changes env) (first_iter env) i.

(** The graph walks of [gvn_pre], each with its walker. *)
Record walks (S : Type) := mk_walks {
  block_info_walk     : pre_env S → pre_env S;  (* irg_walk_blkwise_graph, block_info_walker *)
  topo_walk           : pre_env S → pre_env S;  (* irg_walk_blkwise_graph, topo_walker *)
  compute_avail_walk  : pre_env S → pre_env S;  (* dom_tree_walk_irg, compute_avail_top_down *)
  compute_antic_walk  : pre_env S → pre_env S;  (* irg_walk_blkwise_graph, compute_antic *)
  init_keeps          : pre_env S → pre_env S;  (* ir_nodeset_init(env->keeps) *)
  insert_nodes_walk   : pre_env S → pre_env S;  (* dom_tree_walk_irg, insert_nodes_walker *)
  eliminate_walk      : pre_env S → pre_env S   (* edges_deactivate, eliminate, eliminate_nodes *)
}.
Arguments block_info_walk {S}.
Arguments topo_walk {S}.
Arguments compute_avail_walk {S}.
Arguments compute_antic_walk {S}.
Arguments init_keeps {S}.
Arguments insert_nodes_walk {S}.
Arguments eliminate_walk {S}.

(** The body of the antic_in loop. *)
Definition antic_pass {S} (W : walks S) (env : pre_env S) : pre_env S :=
  let env := set_changes 0 env in
  let env := compute_antic_walk W env in
  let env := set_first_iter 0 env in
  set_iteration (iteration env + 1) env.

(** [do { ++antic_iter; ... } while (env->changes != 0 && antic_iter < MAX_ANTIC_ITER)];
    [fuel] bounds the rounds of the model, [None] when it runs out. *)
Fixpoint antic_loop {S} (W : walks S) (fuel : nat) (antic_iter : Z) (env : pre_env S)
  : option (Z * pre_env S) :=
  match fuel with
  | O => None
  | S fuel' =>
      let antic_iter := antic_iter + 1 in
      let env := antic_pass W env in
      if negb (changes env =? 0) && (antic_iter <? MAX_ANTIC_ITER)
      then antic_loop W fuel' antic_iter env
      else Some (antic_iter, env)
  end.

(** The body of the insert loop. *)
Definition insert_pass {S} (W : walks S) (env : pre_env S) : pre_env S :=
  let env := set_changes 0 env in
  let env := insert_nodes_walk W env in
  set_first_iter 0 env.

Fixpoint insert_loop {S} (W : walks S) (fuel : nat) (insert_iter : Z) (env : pre_env S)
  : option (Z * pre_env S) :=
  match fuel with
  | O => None
  | S fuel' =>
      let insert_iter := insert_iter + 1 in
      let env := insert_pass W env in
      if negb (changes env =? 0) && (insert_iter <? MAX_INSERT_ITER)
      then insert_loop W fuel' insert_iter env
      else Some (insert_iter, env)
  end.

(** [gvn_pre]: the environment at the end, with the numbers of rounds
    of the two loops ([antic_iter], [insert_iter]). *)
Definition gvn_pre {S} (W : walks S) (fuel : nat) (env : pre_env S)
  : option (Z * Z * pre_env S) :=
  let env := block_info_walk W env in
  let env := topo_walk W env in
  let env := compute_avail_walk W env in
  let env := set_first_iter 1 env in
  let env := set_iteration 1 env in
  '(antic_iter, env) ← antic_loop W fuel 0 env;
  let env := init_keeps W env in
  let env := set_first_iter 1 env in
  '(insert_iter, env) ← insert_loop W fuel 0 env;
  Some (antic_iter, insert_iter, eliminate_walk W env).

End GvnPre.

(** ** ir/opt/gvn_pre.c: phi translation *)

Module GvnTranslate.
Import GvnPre.

Definition is_Proj (g : list ir_node) (n : nat) : bool :=
  bool_decide (get_irn_op g n = iro_Proj).

(** [set_translated(map, node, trans)], on the map [trans] of a block
    info: insert or replace. *)
Definition set_translated (F : firm) (g : list ir_node) (map : gmap nat nat)
           (node trans : nat) : gmap nat nat :=
  if is_irn_constlike F g node then map else <[node := trans]> map.

(** The block info with another map [trans]. *)
Definition set_trans (i : block_info) (map : gmap nat nat) : block_info :=
  mk_info (exp_gen i) (avail_out i) (antic_in i) (antic_done i) (new_set i) map
          (avail i) (found i).

(** One round of the loop of [phi_translate] over the inputs: the
    state, the array [in] so far and [needed].  [None]: the predecessor
    block has no block info, and [get_translated] reads its map.  (With
    LOADS and DIVMODS off, a translation that is a memory Proj is taken
    as it is and does not make the translation needed.  The two calls of
    [identify] in the comparison are made from left to right here.) *)
Definition phi_translate_pred (F : firm) (infos : block_infos) (leaderset : ir_valueset_t)
           (pred_block : nat) (acc : gvn_state * list nat * bool) (pred : nat)
  : option (gvn_state * list nat * bool) :=
  let '(st, ins, needed) := acc in
  let '(st, value) := identify F st pred in
  (* get leader for pred to lookup its translated value *)
  let leader := default pred (ir_valueset_lookup leaderset value) in
  if negb (is_irn_constlike F (graph st) leader) && bool_decide (infos !! pred_block = None)
  then None
  else
    match get_translated F (graph st) infos pred_block leader with
    | None => Some (st, ins ++ [pred], needed)
    | Some pred_trans =>
        if is_Proj (graph st) pred_trans
           && bool_decide (get_irn_mode (graph st) pred_trans = mode_M)
        then Some (st, ins ++ [pred_trans], needed)
        else
          (* predecessor value changed, so translation is needed *)
          let '(st, new_value) := identify F st pred_trans in
          let '(st, old_value) := identify F st pred in
          Some (st, ins ++ [pred_trans],
                needed || negb (bool_decide (new_value = old_value)))
    end.

Fixpoint phi_translate_ins (F : firm) (infos : block_infos) (leaderset : ir_valueset_t)
         (pred_block : nat) (acc : gvn_state * list nat * bool) (preds : list nat)
  : option (gvn_state * list nat * bool) :=
  match preds with
  | [] => Some acc
  | pred :: preds' =>
      acc' ← phi_translate_pred F infos leaderset pred_block acc pred;
      phi_translate_ins F infos leaderset pred_block acc' preds'
  end.

(** [phi_translate(node, block, pos, leaderset)]: the state afterwards
    and the node returned.  [None]: [pos] is not a position of the block
    (or of the Phi), or the loop has stopped. *)
Definition phi_translate (F : firm) (infos : block_infos) (st : gvn_state)
           (node block pos : nat) (leaderset : ir_valueset_t) : option (gvn_state * nat) :=
  let g := graph st in
  pred_block ← cfgpred_blocks g block !! pos;
  if is_Phi g node then
    if bool_decide (get_nodes_block g node = block)
    then p ← irn_in (g !!! node) !! pos; Some (st, p)
    else Some (st, node)   (* this phi does not need translation *)
  else
    let n := g !!! node in
    r ← phi_translate_ins F infos leaderset pred_block (st, [], false) (irn_in n);
    let '(st, ins, needed) := r in
    if negb needed then Some (st, node)
    else
      let pred_block :=
        if is_Proj (graph st) node then get_nodes_block (graph st) (ins !!! 0%nat)
        else pred_block in
      (* copy node to represent the new value *)
      Some (new_ir_node st (mk_irn (irn_op n) (irn_mode n) ins (irn_attr n) pred_block)).

End GvnTranslate.

(** ** ir/be/ia32/ia32_emitter.c *)

Module Ia32Emitter.

(** *** Registers *)

(** The general purpose registers ([arch_register_t] of the class gp);
    two register pointers are equal when they are the same register. *)
Inductive gp_reg := EAX | ECX | EDX | EBX | ESP | EBP | ESI | EDI.

#[global] Instance gp_reg_eq_dec : EqDecision gp_reg.
Proof. solve_decision. Defined.

(** [reg_gp_map[reg->index]] as [build_reg_map] fills it. *)
Definition reg_gp_map (r : gp_reg) : Z :=
  match r with
  | EAX => 0x0 | ECX => 0x1 | EDX => 0x2 | EBX => 0x3
  | ESP => 0x4 | EBP => 0x5 | ESI => 0x6 | EDI => 0x7
  end.

(** *** Conditional jumps *)

(** The condition code constants and functions of [ia32_nodes_attr.h],
    which is not under src/. *)
Record cc_ops := mk_cc_ops {
  ia32_cc_negated            : Z;
  ia32_cc_float_parity_cases : Z;
  ia32_negate_condition_code : Z → Z;
  ia32_invert_condition_code : Z → Z
}.

(** A control flow node: [get_cfop_target_block] (its link) and
    [get_nodes_block]. *)
Record cfop := mk_cfop {
  cfop_target_block : nat;
  cfop_block        : nat
}.

(** A Jcc node: [get_ia32_condcode], the [ins_permuted] flag of the node
    that produces its flags, and the Projs [pn_ia32_Jcc_true] and
    [pn_ia32_Jcc_false]. *)
Record jcc_node := mk_jcc {
  jcc_condcode     : Z;
  jcc_ins_permuted : bool;
  jcc_proj_true    : cfop;
  jcc_proj_false   : cfop
}.

(** The lines that [emit_ia32_Jcc] can write; [%L] is the label of the
    target block of the node the line is emitted for. *)
Inductive asm_line :=
| jp_L (target : nat)                 (* "jp %L" *)
| jp_1f                               (* "jp 1f" *)
| jcc_L (cc : Z) (target : nat)       (* "j%PX %L" *)
| label_1                             (* "1:" *)
| fallthrough_comment (target : nat)  (* "/* fallthrough to %L */" *)
| jmp_L (target : nat).               (* "jmp %L" *)

#[global] Instance asm_line_eq_dec : EqDecision asm_line.
Proof. solve_decision. Defined.

Section Jcc.
Context (C : cc_ops).
(** [get_prev_block_sched]: the link of a block, NULL for the first. *)
Context (get_prev_block_sched : nat → option nat).
(** [be_options.verbose_asm] *)
Context (verbose_asm : bool).

Definition can_be_fallthrough (node : cfop) : bool :=
  bool_decide (get_prev_block_sched (cfop_target_block node) = Some (cfop_block node)).

Definition determine_final_cc (node : jcc_node) (cc : Z) : Z :=
  if jcc_ins_permuted node then ia32_invert_condition_code C cc else cc.

Definition emit_ia32_Jcc (node : jcc_node) : list asm_line :=
  let cc := jcc_condcode node in
  let cc := determine_final_cc node cc in
  let proj_true := jcc_proj_true node in
  let proj_false := jcc_proj_false node in
  let '(proj_true, proj_false, cc) :=
    if can_be_fallthrough proj_true
    then (proj_false, proj_true, ia32_negate_condition_code C cc)
    else (proj_true, proj_false, cc) in
  let '(out, need_parity_label) :=
    if negb (Z.land cc (ia32_cc_float_parity_cases C) =? 0) then
      if negb (Z.land cc (ia32_cc_negated C) =? 0) then
        ([jp_L (cfop_target_block proj_true)], false)
      else if can_be_fallthrough proj_false then ([jp_1f], true)
      else ([jp_L (cfop_target_block proj_false)], false)
    else ([], false) in
  let out := out ++ [jcc_L cc (cfop_target_block proj_true)] in
  let out := if need_parity_label : bool then out ++ [label_1] else out in
  if can_be_fallthrough proj_false then
    if verbose_asm then out ++ [fallthrough_comment (cfop_target_block proj_false)]
    else out
  else out ++ [jmp_L (cfop_target_block proj_false)].
End Jcc.

(** *** The address mode bytes of the binary emitter *)

Definition MOD_IND : Z := 0x00.
Definition MOD_IND_BYTE_OFS : Z := 0x40.
Definition MOD_IND_WORD_OFS : Z := 0x80.
Definition MOD_REG : Z := 0xC0.

Definition ENC_RM (x : Z) : Z := x.
Definition ENC_REG (x : Z) : Z := Z.shiftl x 3.
Definition ENC_SIB (scale index base : Z) : Z :=
  Z.lor (Z.lor (Z.shiftl scale 6) (Z.shiftl index 3)) base.

(** What the binary emitter appends to the output. *)
Inductive emitted :=
| byte (b : Z)                                         (* bemit8 *)
| long (v : Z)                                         (* bemit32 *)
| entity_long (ent : nat) (sign : bool) (offset : Z).  (* bemit_entity of an entity *)

#[global] Instance emitted_eq_dec : EqDecision emitted.
Proof. solve_decision. Defined.

Definition bemit8 (b : Z) : list emitted := [byte (b mod 2 ^ 8)].
Definition bemit32 (v : Z) : list emitted := [long (v mod 2 ^ 32)].

(** [bemit_entity(entity, entity_sign, offset, false)] *)
Definition bemit_entity (entity : option nat) (entity_sign : bool) (offset : Z)
  : list emitted :=
  match entity with
  | None => bemit32 offset
  | Some ent => [entity_long ent entity_sign offset]
  end.

(** The address mode attributes of a node: [get_ia32_am_sc],
    [is_ia32_am_sc_sign], [get_ia32_am_offs_int], the registers of the
    base and index inputs ([None] when the input is NoReg_GP) and
    [get_ia32_am_scale]. *)
Record am_node := mk_am {
  am_sc      : option nat;
  am_sc_sign : bool;
  am_offs    : Z;
  am_base    : option gp_reg;
  am_index   : option gp_reg;
  am_scale   : Z
}.

(** The locals of [bemit_mod_am] when it starts to emit. *)
Record mod_am := mk_mod_am {
  modrm    : Z;
  sib      : Z;
  emitoffs : Z;
  emitsib  : bool;
  base_enc : Z
}.

(** The first part of [bemit_mod_am]: the computation of its locals.
    [None] is the failed [assert(scale < 4)]. *)
Definition mod_am_locals (reg : Z) (node : am_node) : option mod_am :=
  let ent := am_sc node in
  let offs := am_offs node in
  (* set the mod part depending on displacement *)
  let '(modrm, emitoffs) :=
    if bool_decide (ent ≠ None) then (MOD_IND_WORD_OFS, 32)
    else if offs =? 0 then (MOD_IND, 0)
    else if (-128 <=? offs) && (offs <? 128) then (MOD_IND_BYTE_OFS, 8)
    else (MOD_IND_WORD_OFS, 32) in
  let '(modrm, base_enc, emitoffs) :=
    match am_base node with
    | Some base_reg => (modrm, reg_gp_map base_reg, emitoffs)
    | None => (MOD_IND, 0x05, 32)
    end in
  (* Determine if we need a SIB byte. *)
  r ← match am_index node with
      | Some reg_index =>
          let scale := am_scale node in
          if scale <? 4 then
            Some (Z.lor modrm (ENC_RM 0x04),
                  ENC_SIB scale (reg_gp_map reg_index) base_enc, true)
          else None
      | None =>
          if base_enc =? 0x04 then
            Some (Z.lor modrm (ENC_RM 0x04), ENC_SIB 0 0x04 0x04, true)
          else Some (Z.lor modrm (ENC_RM base_enc), 0, false)
      end;
  let '(modrm, sib, emitsib) := r in
  let '(modrm, emitoffs) :=
    if (base_enc =? 0x05) && (emitoffs =? 0)
    then (Z.lor modrm MOD_IND_BYTE_OFS, 8)
    else (modrm, emitoffs) in
  let modrm := Z.lor modrm (ENC_REG reg) in
  Some (mk_mod_am modrm sib emitoffs emitsib base_enc).

(** [bemit_mod_am(reg, node)] *)
Definition bemit_mod_am (reg : Z) (node : am_node) : option (list emitted) :=
  l ← mod_am_locals reg node;
  Some (bemit8 (modrm l)
        ++ (if emitsib l then bemit8 (sib l) else [])
        ++ (if emitoffs l =? 8 then bemit8 (am_offs node)
            else if emitoffs l =? 32
                 then bemit_entity (am_sc node) (am_sc_sign node) (am_offs node)
                 else [])).

(** *** Minus64Bit *)

(** The instructions that the helpers of [emit_ia32_Minus64Bit] write. *)
Inductive insn :=
| xchgl (src dst : gp_reg)    (* emit_xchg: "xchgl %R, %R" *)
| xorl (src dst : gp_reg)     (* emit_zero: "xorl %R, %R" *)
| movl (src dst : gp_reg)     (* emit_mov:  "movl %R, %R" *)
| negl (reg : gp_reg)         (* emit_neg:  "negl %R" *)
| sbbl0 (reg : gp_reg)        (* emit_sbb0: "sbbl $0, %R" *)
| sbbl (src dst : gp_reg).    (* emit_sbb:  "sbbl %R, %R" *)

#[global] Instance insn_eq_dec : EqDecision insn.
Proof. solve_decision. Defined.

Definition emit_xchg (src dst : gp_reg) : list insn := [xchgl src dst].
Definition emit_zero (reg : gp_reg) : list insn := [xorl reg reg].
Definition emit_mov (src dst : gp_reg) : list insn := [movl src dst].
Definition emit_neg (reg : gp_reg) : list insn := [negl reg].
Definition emit_sbb0 (reg : gp_reg) : list insn := [sbbl0 reg].
Definition emit_sbb (src dst : gp_reg) : list insn := [sbbl src dst].

(** The code after the label [normal_neg]. *)
Definition normal_neg (out_lo out_hi : gp_reg) : list insn :=
  emit_neg out_hi ++ emit_neg out_lo ++ emit_sbb0 out_hi.

(** The code after the label [zero_neg]. *)
Definition zero_neg (in_hi out_lo out_hi : gp_reg) : list insn :=
  emit_zero out_hi ++ emit_neg out_lo ++ emit_sbb in_hi out_hi.

(** [emit_ia32_Minus64Bit] on the registers of the two inputs and the
    two outputs. *)
Definition emit_ia32_Minus64Bit (in_lo in_hi out_lo out_hi : gp_reg) : list insn :=
  if bool_decide (out_lo = in_lo) then
    if bool_decide (out_hi ≠ in_hi) then
      (* a -> a, b -> d *)
      zero_neg in_hi out_lo out_hi
    else
      (* a -> a, b -> b *)
      normal_neg out_lo out_hi
  else if bool_decide (out_lo = in_hi) then
    if bool_decide (out_hi = in_lo) then
      (* a -> b, b -> a *)
      emit_xchg in_lo in_hi ++ normal_neg out_lo out_hi
    else
      (* a -> b, b -> d *)
      emit_mov in_hi out_hi ++ emit_mov in_lo out_lo ++ normal_neg out_lo out_hi
  else
    if bool_decide (out_hi = in_lo) then
      (* a -> c, b -> a *)
      emit_mov in_lo out_lo ++ zero_neg in_hi out_lo out_hi
    else if bool_decide (out_hi = in_hi) then
      (* a -> c, b -> b *)
      emit_mov in_lo out_lo ++ normal_neg out_lo out_hi
    else
      (* a -> c, b -> d *)
      emit_mov in_lo out_lo ++ zero_neg in_hi out_lo out_hi.

(** The branch of [emit_ia32_Minus64Bit] (and of [bemit_minus64bit]) that
    is taken, named by the comment it carries in the source. *)
Inductive minus64_case :=
| a_a_b_d | a_a_b_b | a_b_b_a | a_b_b_d | a_c_b_a | a_c_b_b | a_c_b_d.

#[global] Instance minus64_case_eq_dec : EqDecision minus64_case.
Proof. solve_decision. Defined.

Definition minus64_branch (in_lo in_hi out_lo out_hi : gp_reg) : minus64_case :=
  if bool_decide (out_lo = in_lo) then
    if bool_decide (out_hi ≠ in_hi) then a_a_b_d else a_a_b_b
  else if bool_decide (out_lo = in_hi) then
    if bool_decide (out_hi = in_lo) then a_b_b_a else a_b_b_d
  else
    if bool_decide (out_hi = in_lo) then a_c_b_a
    else if bool_decide (out_hi = in_hi) then a_c_b_b
    else a_c_b_d.

(** The binary emitter. *)
Definition bemit_modrr (src1 src2 : gp_reg) : list emitted :=
  bemit8 (Z.lor (Z.lor MOD_REG (ENC_RM (reg_gp_map src1))) (ENC_REG (reg_gp_map src2))).

Definition bemit_modru (reg : gp_reg) (ext : Z) : list emitted :=
  bemit8 (Z.lor (Z.lor MOD_REG (ENC_RM (reg_gp_map reg))) (ENC_REG ext)).

Definition bemit_helper_mov (src dst : gp_reg) : list emitted :=
  bemit8 0x8B ++ bemit_modrr src dst.
Definition bemit_helper_neg (reg : gp_reg) : list emitted :=
  bemit8 0xF7 ++ bemit_modru reg 3.
Definition bemit_helper_sbb0 (reg : gp_reg) : list emitted :=
  bemit8 0x83 ++ bemit_modru reg 3 ++ bemit8 0.
Definition bemit_helper_sbb (src dst : gp_reg) : list emitted :=
  bemit8 0x1B ++ bemit_modrr src dst.
Definition bemit_helper_xchg (src dst : gp_reg) : list emitted :=
  if bool_decide (src = EAX) then bemit8 (0x90 + reg_gp_map dst)
  else if bool_decide (dst = EAX) then bemit8 (0x90 + reg_gp_map src)
  else bemit8 0x87 ++ bemit_modrr src dst.
Definition bemit_helper_zero (reg : gp_reg) : list emitted :=
  bemit8 0x33 ++ bemit_modrr reg reg.

Definition bemit_normal_neg (out_lo out_hi : gp_reg) : list emitted :=
  bemit_helper_neg out_hi ++ bemit_helper_neg out_lo ++ bemit_helper_sbb0 out_hi.

Definition bemit_zero_neg (in_hi out_lo out_hi : gp_reg) : list emitted :=
  bemit_helper_zero out_hi ++ bemit_helper_neg out_lo ++ bemit_helper_sbb in_hi out_hi.

(** [bemit_minus64bit] *)
Definition bemit_minus64bit (in_lo in_hi out_lo out_hi : gp_reg) : list emitted :=
  if bool_decide (out_lo = in_lo) then
    if bool_decide (out_hi ≠ in_hi) then
      bemit_zero_neg in_hi out_lo out_hi
    else
      bemit_normal_neg out_lo out_hi
  else if bool_decide (out_lo = in_hi) then
    if bool_decide (out_hi = in_lo) then
      bemit_helper_xchg in_lo in_hi ++ bemit_normal_neg out_lo out_hi
    else
      bemit_helper_mov in_hi out_hi ++ bemit_helper_mov in_lo out_lo
        ++ bemit_normal_neg out_lo out_hi
  else
    if bool_decide (out_hi = in_lo) then
      bemit_helper_mov in_lo out_lo ++ bemit_zero_neg in_hi out_lo out_hi
    else if bool_decide (out_hi = in_hi) then
      bemit_helper_mov in_lo out_lo ++ bemit_normal_neg out_lo out_hi
    else
      bemit_helper_mov in_lo out_lo ++ bemit_zero_neg in_hi out_lo out_hi.

End Ia32Emitter.

(** ** ir/be/ia32/ia32_emitter.c: labels, jumps and further nodes *)

Module Ia32Nodes.
Import Ia32Emitter.

(** *** Block labels and jump targets *)

(** A control flow node as [ia32_gen_labels] and [block_needs_label] read
    it: [get_nodes_block], [is_Proj], whether the node behind the Proj is
    an [ia32_SwitchJmp], and the instruction [skip_Proj(pred)] when it is
    an ia32 node that carries an exception label. *)
Record cf_node := mk_cf {
  cf_block        : nat;
  cf_is_Proj      : bool;
  cf_of_SwitchJmp : bool;
  cf_exc_instr    : option nat
}.

(** The control flow graph: the entity of a block, the control flow
    predecessors of a block (by node, [get_Block_cfgpred(block, 0 ..)])
    and the control flow nodes. *)
Record cfg := mk_cfg {
  get_Block_entity   : nat → option nat;
  get_Block_cfgpreds : nat → list nat;
  cf_nodes           : nat → cf_node
}.

(** One round of the loop of [ia32_gen_labels], for the predecessor
    [pred] of [block].  [exc_list] is the array behind [data]; with
    [data == NULL] ([None]) appending to it reads through NULL. *)
Definition gen_labels_pred (G : cfg) (block : nat)
    (acc : option (gmap nat nat * option (list (nat * nat)))) (pred : nat)
  : option (gmap nat nat * option (list (nat * nat))) :=
  '(link, exc_list) ← acc;
  let link := <[pred := block]> link in
  match cf_exc_instr (cf_nodes G pred) with
  | Some instr =>
      l ← exc_list;
      Some (<[instr := block]> link, Some (l ++ [(instr, block)]))
  | None => Some (link, exc_list)
  end.

(** [ia32_gen_labels(block, data)]: the predecessors from the last to the
    first. *)
Definition ia32_gen_labels (G : cfg) (acc : option (gmap nat nat * option (list (nat * nat))))
    (block : nat) : option (gmap nat nat * option (list (nat * nat))) :=
  foldl (gen_labels_pred G block) acc (rev (get_Block_cfgpreds G block)).

(** [irg_block_walk_graph(irg, ia32_gen_labels, NULL, data)] over the
    blocks in the order of the walk. *)
Definition gen_labels_walk (G : cfg) (blocks : list nat) (data : option (list (nat * nat)))
  : option (gmap nat nat * option (list (nat * nat))) :=
  foldl (ia32_gen_labels G) (Some (∅, data)) blocks.

(** "initialize next block links": the loop of [ia32_gen_routine] over
    [blk_sched], from index [i] on; [prev] is [blk_sched[i-1]]. *)
Fixpoint next_block_links (blk_sched : list nat) (prev : option nat)
    (link : gmap nat (option nat)) : gmap nat (option nat) :=
  match blk_sched with
  | [] => link
  | block :: rest => next_block_links rest (Some block) (<[block := prev]> link)
  end.

(** [get_prev_block_sched(block)]: the link of the block. *)
Definition get_prev_block_sched (link : gmap nat (option nat)) (block : nat) : option nat :=
  default None (link !! block).

(** [is_fallthrough] *)
Definition is_fallthrough (cfgpred : cf_node) : bool :=
  if negb (cf_is_Proj cfgpred) then true
  else if cf_of_SwitchJmp cfgpred then false
  else true.

(** [block_needs_label] *)
Definition block_needs_label (G : cfg) (link : gmap nat (option nat)) (block : nat) : bool :=
  if bool_decide (get_Block_entity G block ≠ None) then true
  else match get_Block_cfgpreds G block with
       | [] => false
       | [cfgpred] =>
           let cfgpred_block := cf_block (cf_nodes G cfgpred) in
           if bool_decide (get_prev_block_sched link block = Some cfgpred_block)
              && is_fallthrough (cf_nodes G cfgpred)
           then false else true
       | _ => true
       end.

(** *** Jumps *)

(** [pnc2cc] *)
Definition pnc2cc (cc : Z) : Z := Z.land cc 0xf.

(** What the binary emitter appends for a jump: bytes and the like, and
    the distance to a block ([bemit_jmp_destination]). *)
Inductive jump_emitted :=
| code (e : emitted)
| jmp_destination (dest_block : nat).

#[global] Instance jump_emitted_eq_dec : EqDecision jump_emitted.
Proof. solve_decision. Defined.

Definition bemit_jmp_destination (dest_block : nat) : list jump_emitted :=
  [jmp_destination dest_block].

Definition bemit_jmp (dest_block : nat) : list jump_emitted :=
  (code <$> bemit8 0xE9) ++ bemit_jmp_destination dest_block.

Definition bemit_jcc (pnc : Z) (dest_block : nat) : list jump_emitted :=
  let cc := pnc2cc pnc in
  (code <$> bemit8 0x0F) ++ (code <$> bemit8 (0x80 + cc)) ++ bemit_jmp_destination dest_block.

Definition bemit_jp (odd : bool) (dest_block : nat) : list jump_emitted :=
  (code <$> bemit8 0x0F) ++ (code <$> bemit8 (0x8A + (if odd then 1 else 0)))
    ++ bemit_jmp_destination dest_block.

Section Jumps.
Context (C : cc_ops).
Context (get_prev_block_sched : nat → option nat).
Context (verbose_asm : bool).

(** [emit_ia32_Jmp] *)
Definition emit_ia32_Jmp (node : cfop) : list asm_line :=
  if can_be_fallthrough get_prev_block_sched node then
    if verbose_asm then [fallthrough_comment (cfop_target_block node)] else []
  else [jmp_L (cfop_target_block node)].

(** [bemit_jump] *)
Definition bemit_jump (node : cfop) : list jump_emitted :=
  if can_be_fallthrough get_prev_block_sched node then []
  else bemit_jmp (cfop_target_block node).

(** [bemit_ia32_jcc] *)
Definition bemit_ia32_jcc (node : jcc_node) : list jump_emitted :=
  let cc := jcc_condcode node in
  let cc := determine_final_cc C node cc in
  let proj_true := jcc_proj_true node in
  let proj_false := jcc_proj_false node in
  let '(proj_true, proj_false, cc) :=
    if can_be_fallthrough get_prev_block_sched proj_true
    then (proj_false, proj_true, ia32_negate_condition_code C cc)
    else (proj_true, proj_false, cc) in
  let dest_true := cfop_target_block proj_true in
  let dest_false := cfop_target_block proj_false in
  let out :=
    if negb (Z.land cc (ia32_cc_float_parity_cases C) =? 0) then
      if negb (Z.land cc (ia32_cc_negated C) =? 0) then
        bemit_jp false dest_true
      else if can_be_fallthrough get_prev_block_sched proj_false then
        (code <$> bemit8 0x7A) ++ (code <$> bemit8 0x06)  (* jp + 6 *)
      else bemit_jp false dest_false
    else [] in
  let out := out ++ bemit_jcc cc dest_true in
  if can_be_fallthrough get_prev_block_sched proj_false then out
  else out ++ bemit_jmp dest_false.
End Jumps.

(** *** Immediates and IncSP *)

(** [get_signed_imm_size] *)
Definition get_signed_imm_size (offset : Z) : Z :=
  if (-128 <=? offset) && (offset <? 128) then 1
  else if (-32768 <=? offset) && (offset <? 32768) then 2
  else 4.

(** The value of an [int] expression: the 32 bits in two's complement. *)
Definition int32 (z : Z) : Z := (z + 2 ^ 31) mod 2 ^ 32 - 2 ^ 31.

(** The lines of [emit_be_IncSP]; the immediate is printed with [%u]. *)
Inductive incsp_line :=
| subl_imm (imm : Z)    (* "subl $%u, %D0" *)
| addl_imm (imm : Z).   (* "addl $%u, %D0" *)

#[global] Instance incsp_line_eq_dec : EqDecision incsp_line.
Proof. solve_decision. Defined.

(** [emit_be_IncSP], on [be_get_IncSP_offset(node)]. *)
Definition emit_be_IncSP (offs : Z) : list incsp_line :=
  if offs =? 0 then []
  else if offs >? 0 then [subl_imm (offs mod 2 ^ 32)]
  else [addl_imm (int32 (- offs) mod 2 ^ 32)].

(** [bemit_incsp], on the offset and the register of the result. *)
Definition bemit_incsp (reg : gp_reg) (offs : Z) : list emitted :=
  if offs =? 0 then []
  else
    let '(ext, offs) := if offs >? 0 then (5, offs) else (0, int32 (- offs)) in
    let size := get_signed_imm_size offs in
    bemit8 (if size =? 1 then 0x83 else 0x81)
      ++ bemit_modru reg ext
      ++ (if size =? 1 then bemit8 offs else bemit32 offs).

(** *** CopyB *)

(** The string moves of the unrolled memcopy. *)
Inductive movs := movsb | movsw | movsd.

#[global] Instance movs_eq_dec : EqDecision movs.
Proof. solve_decision. Defined.

(** [emit_CopyB_prolog] *)
Definition emit_CopyB_prolog (size : Z) : list movs :=
  (if negb (Z.land size 1 =? 0) then [movsb] else [])
    ++ (if negb (Z.land size 2 =? 0) then [movsw] else []).

(** [while (size--) ia32_emitf(NULL, "movsd")] *)
Fixpoint movsd_loop (size : nat) : list movs :=
  match size with
  | O => []
  | S size' => movsd :: movsd_loop size'
  end.

(** [emit_ia32_CopyB_i], on [get_ia32_copyb_size(node)] (an unsigned). *)
Definition emit_ia32_CopyB_i (size : Z) : list movs :=
  emit_CopyB_prolog size ++ movsd_loop (Z.to_nat (Z.shiftr size 2)).

Fixpoint movsl_loop (size : nat) : list emitted :=
  match size with
  | O => []
  | S size' => bemit8 0xA5 ++ movsl_loop size'
  end.

(** [bemit_copybi] *)
Definition bemit_copybi (size : Z) : list emitted :=
  (if negb (Z.land size 1 =? 0) then bemit8 0xA4 else [])
    ++ (if negb (Z.land size 2 =? 0) then bemit8 0x66 ++ bemit8 0xA5 else [])
    ++ movsl_loop (Z.to_nat (Z.shiftr size 2)).

(** *** CMovcc *)

(** A CMovcc node: [get_ia32_condcode], the [ins_permuted] flag of the
    node that produces its flags (read by [determine_final_cc]), its own
    [ins_permuted] flag, the registers of the result and of the inputs
    [val_true] and [val_false] ([val_true] is no register when the
    operand is folded into the address mode), and the address mode when
    [get_ia32_op_type(node)] is [ia32_AddrModeS]. *)
Record cmov_node := mk_cmov {
  cmov_condcode       : Z;
  cmov_flags_permuted : bool;
  cmov_ins_permuted   : bool;
  cmov_out            : gp_reg;
  cmov_in_true        : option gp_reg;
  cmov_in_false       : gp_reg;
  cmov_am             : option am_node
}.

(** The lines of [emit_ia32_CMovcc]. *)
Inductive cmov_line :=
| cmov_movl (src dst : gp_reg)                        (* "movl %R, %R" *)
| cmovcc (cc : Z) (src : gp_reg + am_node) (dst : gp_reg). (* "cmov%PX %#AR, %#R" *)

Section CMovcc.
Context (C : cc_ops).

(** [determine_final_cc(node, n_ia32_CMovcc_eflags, cc)] *)
Definition cmov_final_cc (node : cmov_node) (cc : Z) : Z :=
  if cmov_flags_permuted node then ia32_invert_condition_code C cc else cc.

(** [emit_ia32_CMovcc]; [None] is the failed assertion or the panic. *)
Definition emit_ia32_CMovcc (node : cmov_node) : option (list cmov_line) :=
  let out := cmov_out node in
  let cc := cmov_condcode node in
  let cc := cmov_final_cc node cc in
  let cc := if cmov_ins_permuted node then ia32_negate_condition_code C cc else cc in
  let in_true := cmov_in_true node in
  let in_false := cmov_in_false node in
  r ← (if bool_decide (out = in_false) then Some ([], cc, in_true)
       else if bool_decide (Some out = in_true) then
         if bool_decide (cmov_am node = None)
         then Some ([], ia32_negate_condition_code C cc, Some in_false)
         else None
       else Some ([cmov_movl in_false out], cc, in_true));
  let '(pre, cc, in_true) := r in
  if negb (Z.land cc (ia32_cc_float_parity_cases C) =? 0) then None
  else
    src ← match cmov_am node with
          | Some am => Some (inr am)
          | None => inl <$> in_true
          end;
    Some (pre ++ [cmovcc cc src out]).

(** [bemit_cmovcc] *)
Definition bemit_cmovcc (node : cmov_node) : option (list emitted) :=
  let ins_permuted := cmov_ins_permuted node in
  let out := cmov_out node in
  let cc := cmov_condcode node in
  let cc := cmov_final_cc node cc in
  let in_true := cmov_in_true node in
  let in_false := cmov_in_false node in
  r ← (if bool_decide (out = in_false) then Some ([], ins_permuted, in_true)
       else if bool_decide (Some out = in_true) then
         if bool_decide (cmov_am node = None)
         then Some ([], negb ins_permuted, Some in_false)
         else None
       else Some (bemit8 0x8B ++ bemit_modrr in_false out, ins_permuted, in_true));
  let '(pre, ins_permuted, in_true) := r in
  let cc := if ins_permuted : bool then ia32_negate_condition_code C cc else cc in
  if negb (Z.land cc (ia32_cc_float_parity_cases C) =? 0) then None
  else
    operand ← match cmov_am node with
              | None => r ← in_true; Some (bemit_modrr r out)
              | Some am => bemit_mod_am (reg_gp_map out) am
              end;
    Some (pre ++ bemit8 0x0F ++ bemit8 (Z.lor 0x40 (pnc2cc cc)) ++ operand).
End CMovcc.

End Ia32Nodes.

(* ===================================================================== *)
(** * Part II: the statements *)
(* ===================================================================== *)

(** ** The interference graph of the chordal allocator *)

Module ChordalFacts.
Import Bitset Chordal.

(** *** Bitsets *)

Lemma bitset_foreach_is_set (bs : bitset_t) (p : Z) :
  p ∈ bitset_foreach bs → bitset_is_set bs p = true.
Proof.
  unfold bitset_foreach, bitset_is_set. intros H.
  apply list_elem_of_filter in H as [H _]. by apply Is_true_eq_true.
Qed.

Lemma bitset_foreach_not_cleared (bs : bitset_t) (nr p : Z) :
  p ∈ bitset_foreach (bitset_clear bs nr) → p ≠ nr.
Proof.
  intros H ->. apply bitset_foreach_is_set in H.
  unfold bitset_is_set, bitset_clear in H.
  destruct (Z.neg_nonneg_cases nr) as [Hn|Hn].
  - by rewrite Z.testbit_neg_r in H.
  - rewrite Z.clearbit_eq in H; done.
Qed.

(** *** Edges *)

Lemma edge_init_comm (a b : Z) : edge_init a b = edge_init b a.
Proof.
  unfold edge_init.
  destruct (Z.gtb_spec a b), (Z.gtb_spec b a); try reflexivity; try lia.
  f_equal; lia.
Qed.

Lemma edge_init_ordered (a b : Z) : src (edge_init a b) ≤ tgt (edge_init a b).
Proof. unfold edge_init. destruct (Z.gtb_spec a b); simpl; lia. Qed.

Lemma edge_init_ends (a b : Z) :
  (src (edge_init a b) = a ∧ tgt (edge_init a b) = b)
  ∨ (src (edge_init a b) = b ∧ tgt (edge_init a b) = a).
Proof. unfold edge_init. destruct (a >? b); simpl; auto. Qed.

Lemma if_edge_cmp_0 (e1 e2 : if_edge_t) : if_edge_cmp e1 e2 = 0 ↔ e1 = e2.
Proof.
  unfold if_edge_cmp. destruct e1 as [s1 t1], e2 as [s2 t2]; simpl.
  destruct (Z.eqb_spec s1 s2), (Z.eqb_spec t1 t2); simpl;
    split; intros H; try congruence; try lia; inversion H; congruence.
Qed.

(** The entries of an edge set: entered under the hash of their source,
    lower end first, no loop, no entry twice. *)
Record edges_ok (s : set if_edge_t) : Prop := mk_edges_ok {
  ok_hash    : ∀ h e, (h, e) ∈ s → h = IF_EDGE_HASH e;
  ok_ordered : ∀ h e, (h, e) ∈ s → src e < tgt e;
  ok_nodup   : NoDup s.*2
}.

Lemma set_find_Some (s : set if_edge_t) (key : if_edge_t) (e : if_edge_t) :
  set_find if_edge_cmp s key (IF_EDGE_HASH key) = Some e →
  e = key ∧ (IF_EDGE_HASH key, key) ∈ s.
Proof.
  unfold set_find. destruct (List.find _ s) as [[h e']|] eqn:Hf; simpl; [|done].
  intros [= <-]. apply find_some in Hf as [Hin Hb].
  apply andb_true_iff in Hb as [Hh Hc]. simpl in *.
  apply Z.eqb_eq in Hh, Hc. apply if_edge_cmp_0 in Hc. subst.
  split; [done|]. by apply list_elem_of_In.
Qed.

Lemma set_find_None (s : set if_edge_t) (key : if_edge_t) :
  (∀ h e, (h, e) ∈ s → h = IF_EDGE_HASH e) →
  set_find if_edge_cmp s key (IF_EDGE_HASH key) = None → key ∉ s.*2.
Proof.
  unfold set_find. intros Hh Hf Hin.
  destruct (List.find _ s) eqn:Hfind; [done|].
  apply list_elem_of_fmap in Hin as [[h e] [-> Hin]]. simpl in *.
  pose proof (find_none _ _ Hfind (h, e)) as Hb.
  rewrite <- list_elem_of_In in Hb. specialize (Hb Hin). simpl in Hb.
  rewrite (Hh _ _ Hin), Z.eqb_refl in Hb. simpl in Hb.
  apply Z.eqb_neq in Hb. by rewrite if_edge_cmp_0 in Hb.
Qed.

Lemma set_find_is_Some (s : set if_edge_t) (key : if_edge_t) :
  (∀ h e, (h, e) ∈ s → h = IF_EDGE_HASH e) →
  is_Some (set_find if_edge_cmp s key (IF_EDGE_HASH key)) ↔ key ∈ s.*2.
Proof.
  intros Hh. split.
  - intros [e He]. apply set_find_Some in He as [_ Hin].
    apply list_elem_of_fmap. by exists (IF_EDGE_HASH key, key).
  - intros Hin. destruct (set_find _ _ _ _) eqn:Hf; [by eexists|].
    by apply set_find_None in Hf.
Qed.

Lemma edges_ok_nil : edges_ok [].
Proof. split; [set_solver | set_solver | constructor]. Qed.

Lemma edges_ok_insert (s : set if_edge_t) (a b : Z) :
  a ≠ b → edges_ok s →
  edges_ok (set_insert if_edge_cmp s (edge_init a b) (IF_EDGE_HASH (edge_init a b))).
Proof.
  intros Hab [Hh Ho Hn]. unfold set_insert.
  destruct (set_find _ _ _ _) eqn:Hf; [by split|].
  apply set_find_None in Hf; [|done].
  split.
  - intros h e [Hin|Hin]%elem_of_app; [by eauto|].
    apply list_elem_of_singleton in Hin. by inversion Hin.
  - intros h e [Hin|Hin]%elem_of_app; [by eauto|].
    apply list_elem_of_singleton in Hin. inversion Hin; subst.
    pose proof (edge_init_ordered a b). destruct (edge_init_ends a b); lia.
  - rewrite fmap_app. simpl. apply NoDup_app. split; [done|].
    split; [|apply NoDup_singleton].
    intros e He ->%list_elem_of_singleton. done.
Qed.

Lemma edges_add_if (env : env_t) (a b : Z) :
  edges (add_if env a b)
  = set_insert if_edge_cmp (edges env) (edge_init a b) (IF_EDGE_HASH (edge_init a b)).
Proof. reflexivity. Qed.

Lemma add_if_fold_ok (env : env_t) (nr : Z) (l : list Z) :
  (∀ x, x ∈ l → x ≠ nr) → edges_ok (edges env) →
  edges_ok (edges (foldl (fun env elm => add_if env nr elm) env l)).
Proof.
  revert env. induction l as [|x l IH]; intros env Hl Hok; simpl; [done|].
  apply IH; [set_solver|].
  rewrite edges_add_if. apply edges_ok_insert; [|done].
  intros ->. by apply (Hl x); [left|].
Qed.

(** *** The pressure pass keeps the edge set well formed *)

Lemma pressure_use_env (g : ir_graph) (st : pressure_st) (op : Z) :
  edges (p_env (pressure_use g st op)) = edges (p_env st).
Proof.
  unfold pressure_use.
  destruct (has_reg_class g op); [|done].
  destruct (negb _); done.
Qed.

Lemma pressure_uses_env (g : ir_graph) (st : pressure_st) (ops : list Z) :
  edges (p_env (foldl (pressure_use g) st ops)) = edges (p_env st).
Proof.
  revert st. induction ops as [|op ops IH]; intros st; simpl; [done|].
  by rewrite IH, pressure_use_env.
Qed.

Lemma pressure_insn_ok (g : ir_graph) (st : pressure_st) (irn : Z) :
  edges_ok (edges (p_env st)) → edges_ok (edges (p_env (pressure_insn g st irn))).
Proof.
  intros Hok. unfold pressure_insn.
  set (st1 := erase_color st irn).
  assert (Hok1 : edges_ok (edges (p_env st1))) by done.
  clearbody st1. clear Hok.
  match goal with
  | |- context [incr_step (if _ then foldl _ ?s _ else ?s)] =>
      assert (Hs : edges_ok (edges (p_env s))); [|
      by destruct (negb (is_Phi g irn)); simpl; [rewrite pressure_uses_env|] ]
  end.
  destruct (has_reg_class g irn); [|done]. simpl.
  apply add_if_fold_ok; [|done].
  intros x Hx. by eapply bitset_foreach_not_cleared.
Qed.

Lemma pressure_ok (g : ir_graph) (block : Z) (env : env_t) (color : gmap Z Z) :
  edges_ok (edges env) → edges_ok (edges (pressure g block env color).1.1).
Proof.
  intros Hok. unfold pressure. simpl.
  assert (Hin : ∀ l st, edges_ok (edges (p_env st)) →
            edges_ok (edges (p_env (foldl (pressure_live_in g) st l)))).
  { induction l as [|x l IH]; intros st H; simpl; [done|]. apply IH.
    unfold pressure_live_in. by destruct (has_reg_class g x). }
  assert (Hinsn : ∀ l st, edges_ok (edges (p_env st)) →
            edges_ok (edges (p_env (foldl (pressure_insn g) st l)))).
  { induction l as [|x l IH]; intros st H; simpl; [done|]. apply IH.
    by apply pressure_insn_ok. }
  assert (Hend : ∀ l st, edges_ok (edges (p_env st)) →
            edges_ok (edges (p_env (foldl (pressure_live_end g) st l)))).
  { induction l as [|x l IH]; intros st H; simpl; [done|]. apply IH.
    unfold pressure_live_end. by destruct (has_reg_class g x). }
  apply Hin, Hinsn. simpl. by apply Hend.
Qed.

Lemma pressure_walk_ok (g : ir_graph) (blocks : list Z) (w : walk_st) :
  edges_ok (edges (w_env w)) → edges_ok (edges (w_env (pressure_walk g blocks w))).
Proof.
  unfold pressure_walk. revert w.
  induction blocks as [|b blocks IH]; intros w Hok; cbn [foldl]; [done|].
  apply IH. pose proof (pressure_ok g b (w_env w) (w_color w) Hok) as H.
  destruct (pressure g b (w_env w) (w_color w)) as [[env color] head].
  exact H.
Qed.

(** *** The statements about the edge set *)

Lemma are_connected_sym (env : env_t) (a b : Z) :
  are_connected env a b = are_connected env b a.
Proof. unfold are_connected. by rewrite (edge_init_comm a b). Qed.

Lemma are_connected_elem (env : env_t) (a b : Z) :
  edges_ok (edges env) →
  are_connected env a b = true ↔ edge_init a b ∈ (edges env).*2.
Proof.
  intros [Hh _ _]. unfold are_connected.
  rewrite bool_decide_eq_true. by apply set_find_is_Some.
Qed.

Lemma find_app_None {A} (f : A → bool) (l l' : list A) :
  List.find f l = None → List.find f (l ++ l') = List.find f l'.
Proof.
  induction l as [|x l IH]; simpl; [done|].
  destruct (f x); [done|]. apply IH.
Qed.

Lemma add_if_connects (env : env_t) (a b : Z) :
  are_connected (add_if env a b) a b = true.
Proof.
  unfold are_connected. rewrite edges_add_if, bool_decide_eq_true.
  unfold set_insert.
  destruct (set_find _ (edges env) _ _) eqn:Hf; [by rewrite Hf|].
  unfold set_find in *.
  destruct (List.find _ (edges env)) eqn:Hfind; [done|].
  rewrite find_app_None by done. simpl.
  rewrite Z.eqb_refl. simpl.
  destruct (Z.eqb_spec (if_edge_cmp (edge_init a b) (edge_init a b)) 0) as [|Hne];
    [by eexists|].
  by rewrite if_edge_cmp_0 in Hne.
Qed.

(** The initial environment of [be_ra_chordal]. *)
Definition initial_walk (n_regs : Z) (color : gmap Z Z) : walk_st :=
  mk_walk (mk_env ∅ [] 0 0 0 n_regs) color ∅.

(** C7.  The edge set that the pressure walk of [be_ra_chordal] records:
    every entry has the lower node number first, [add_if] enters the
    pair as [(min, max)] whatever the order of its arguments,
    [are_connected] is symmetric, no entry and no query connects a node
    number to itself, and no two entries (at different positions of the
    set) have the same unordered pair of ends. *)
Theorem pressure_edge_set_canonical
    (g : ir_graph) (blocks : list Z) (n_regs : Z) (color : gmap Z Z) :
  let env := w_env (pressure_walk g blocks (initial_walk n_regs color)) in
  (∀ h e, (h, e) ∈ edges env → src e ≤ tgt e)
  ∧ (∀ env' a b, edge_init a b = mk_edge (Z.min a b) (Z.max a b)
                 ∧ are_connected (add_if env' a b) a b = true)
  ∧ (∀ a b, are_connected env a b = are_connected env b a)
  ∧ (∀ h e, (h, e) ∈ edges env → src e ≠ tgt e)
  ∧ (∀ a, are_connected env a a = false)
  ∧ (∀ i j e1 e2,
       (edges env).*2 !! i = Some e1 → (edges env).*2 !! j = Some e2 →
       (src e1 = src e2 ∧ tgt e1 = tgt e2) ∨ (src e1 = tgt e2 ∧ tgt e1 = src e2) →
       i = j).
Proof.
  intros env.
  assert (Hok : edges_ok (edges env)).
  { apply pressure_walk_ok. simpl. apply edges_ok_nil. }
  split_and!.
  - intros h e Hin. pose proof (ok_ordered _ Hok h e Hin). lia.
  - intros env' a b. split; [|apply add_if_connects].
    unfold edge_init. destruct (Z.gtb_spec a b); f_equal; lia.
  - intros a b. apply are_connected_sym.
  - intros h e Hin. pose proof (ok_ordered _ Hok h e Hin). lia.
  - intros a. apply not_true_is_false. intros Hc.
    apply are_connected_elem in Hc; [|done].
    apply list_elem_of_fmap in Hc as [[h e] [He Hin]]. simpl in He.
    pose proof (ok_ordered _ Hok h e Hin) as Hlt. rewrite <- He in Hlt.
    unfold edge_init in Hlt. destruct (a >? a); simpl in Hlt; lia.
  - intros i j e1 e2 Hi Hj Hends.
    assert (Ho : ∀ k e, (edges env).*2 !! k = Some e → src e < tgt e).
    { intros k e Hk. apply list_elem_of_lookup_2 in Hk.
      apply list_elem_of_fmap in Hk as [[h e'] [-> Hin]].
      by apply (ok_ordered _ Hok h). }
    pose proof (Ho _ _ Hi). pose proof (Ho _ _ Hj).
    assert (e1 = e2) as ->.
    { destruct e1, e2; simpl in *. f_equal; lia. }
    by eapply (NoDup_lookup _ _ _ _ (ok_nodup _ Hok)).
Qed.

(** C10.  For two nodes of the same graph [phi_ops_interfere] gives the
    same answer in both orders: it is the answer of [are_connected] on
    the environment linked to the graph, whose lookup canonicalizes the
    pair. *)
Theorem phi_ops_interfere_sym (ra_link : gmap nat env_t) (env : env_t) (a b : ir_node) :
  get_irn_irg a = get_irn_irg b →
  ra_link !! get_irn_irg a = Some env →
  phi_ops_interfere ra_link a b
    = Some (are_connected env (get_irn_graph_nr a) (get_irn_graph_nr b))
  ∧ phi_ops_interfere ra_link a b = phi_ops_interfere ra_link b a.
Proof.
  intros Hg Hl. unfold phi_ops_interfere.
  rewrite <- Hg, Hl. rewrite !bool_decide_eq_true_2 by done.
  split; [done|]. by rewrite are_connected_sym.
Qed.

(** *** The assignment pass *)

Lemma next_clear_from_clear (bs : bitset_t) (fuel : nat) (pos : Z) :
  0 ≤ bs → Z.log2 bs + 2 - pos ≤ Z.of_nat fuel →
  Z.testbit bs (next_clear_from bs pos fuel) = false
  ∧ pos ≤ next_clear_from bs pos fuel.
Proof.
  intros Hbs. revert pos. induction fuel as [|fuel IH]; intros pos Hf; simpl.
  - split; [|lia]. apply Z.bits_above_log2; lia.
  - destruct (Z.testbit bs pos) eqn:Hb; [|split; [done|lia]].
    destruct (IH (pos + 1)) as [H1 H2]; [lia|]. split; [done|lia].
Qed.

Lemma bitset_next_clear_clear (bs : bitset_t) :
  0 ≤ bs →
  bitset_is_set bs (bitset_next_clear bs 0) = false ∧ 0 ≤ bitset_next_clear bs 0.
Proof.
  intros Hbs. unfold bitset_next_clear, bitset_is_set.
  apply next_clear_from_clear; [done|].
  pose proof (Z.log2_nonneg bs). lia.
Qed.

Lemma bitset_set_nonneg (bs : bitset_t) (pos : Z) : 0 ≤ bs → 0 ≤ bitset_set bs pos.
Proof.
  intros H. unfold bitset_set. rewrite Z.setbit_spec'.
  apply Z.lor_nonneg. split; [done|]. apply Z.pow_nonneg. lia.
Qed.

Lemma bitset_clear_nonneg (bs : bitset_t) (pos : Z) : 0 ≤ bs → 0 ≤ bitset_clear bs pos.
Proof.
  intros H. unfold bitset_clear. rewrite Z.clearbit_spec'.
  apply Z.ldiff_nonneg. by left.
Qed.

Lemma foreach_app {A S} (body : S → A → result S) (st : S) (l1 l2 : list A) :
  foreach body st (l1 ++ l2) = bind (foreach body st l1) (fun st' => foreach body st' l2).
Proof.
  revert st. induction l1 as [|x l1 IH]; intros st; simpl; [done|].
  destruct (body st x); simpl; [done|]. apply IH.
Qed.

Lemma foreach_invariant {A S} (P : S → Prop) (body : S → A → result S) :
  (∀ st x st', P st → body st x = inr st' → P st') →
  ∀ l st st', P st → foreach body st l = inr st' → P st'.
Proof.
  intros Hbody. induction l as [|x l IH]; intros st st' HP; simpl.
  - by intros [= <-].
  - destruct (body st x) as [e|st1] eqn:Hb; simpl; [done|]. eauto.
Qed.

Definition colors_nonneg (st : assign_st) : Prop := 0 ≤ colors (a_env st).

Lemma assign_live_in_nonneg (g : ir_graph) (st : assign_st) (irn : Z) (st' : assign_st) :
  colors_nonneg st → assign_live_in g st irn = inr st' → colors_nonneg st'.
Proof.
  unfold assign_live_in, colors_nonneg. intros H.
  destruct (has_reg_class g irn); [|by intros [= <-]].
  destruct (a_regs st !! irn); [|done]. intros [= <-]. simpl.
  by apply bitset_set_nonneg.
Qed.

Lemma assign_border_nonneg (g : ir_graph) (block : Z) (st : assign_st) (b : border_t)
      (st' : assign_st) :
  colors_nonneg st → assign_border g block st b = inr st' → colors_nonneg st'.
Proof.
  unfold assign_border, colors_nonneg. intros H.
  destruct (b_is_def b && negb (is_live_in g block (b_irn b))).
  - destruct (arch_register_for_index _ _); simpl; [done|].
    destruct (bool_decide _); simpl; [|done].
    destruct (negb _); simpl; [|done].
    intros [= <-]. simpl. by apply bitset_set_nonneg.
  - destruct (negb (b_is_def b)); [|by intros [= <-]].
    destruct (a_regs st !! b_irn b); [|done].
    destruct (bitset_is_set _ _); simpl; [|done].
    intros [= <-]. simpl. by apply bitset_clear_nonneg.
Qed.

Lemma assign_nonneg (g : ir_graph) (head : list border_t) (block : Z) (st st' : assign_st) :
  assign g head block st = inr st' → colors_nonneg st'.
Proof.
  unfold assign.
  destruct (foreach (assign_live_in g) _ (live_in g block)) as [e|st1] eqn:H1; simpl; [done|].
  intros H2.
  eapply (foreach_invariant colors_nonneg); [apply assign_border_nonneg| |exact H2].
  eapply (foreach_invariant colors_nonneg); [apply assign_live_in_nonneg| |exact H1].
  unfold colors_nonneg. simpl. done.
Qed.

(** At a local def with every colour of the class in use the search for
    a clear colour leaves the class, and no register is found for it. *)
Lemma assign_border_exhausted (g : ir_graph) (block : Z) (st : assign_st) (b : border_t) :
  colors_nonneg st →
  b_is_def b = true → is_live_in g block (b_irn b) = false →
  (∀ c, 0 ≤ c < colors_n (a_env st) → bitset_is_set (colors (a_env st)) c = true) →
  ∃ col, assign_border g block st b = inl (no_register_for_index col)
         ∧ ¬ (0 ≤ col < colors_n (a_env st)).
Proof.
  intros Hnn Hdef Hlive Hfull.
  exists (bitset_next_clear (colors (a_env st)) 0).
  destruct (bitset_next_clear_clear _ Hnn) as [Hclear H0].
  assert (Hout : ¬ (0 ≤ bitset_next_clear (colors (a_env st)) 0 < colors_n (a_env st))).
  { intros Hin. apply Hfull in Hin. congruence. }
  split; [|done].
  unfold assign_border. rewrite Hdef, Hlive. simpl.
  unfold arch_register_for_index.
  destruct (Z.leb_spec 0 (bitset_next_clear (colors (a_env st)) 0)); [|lia].
  destruct (Z.ltb_spec (bitset_next_clear (colors (a_env st)) 0) (colors_n (a_env st)));
    [lia|done].
Qed.

(** C4.  When [assign] has worked through the borders [pre] of the
    block, arriving in [st1], and the next border is a local def while
    every colour of the class is marked in use, the allocator stops with
    a fatal error: the colour it found is no index of the class.  And a
    local def that does get a register gets one with an index in
    [0, colors_n). *)
Theorem assign_color_exhaustion_fatal
    (g : ir_graph) (head pre post : list border_t) (block : Z)
    (st st1 : assign_st) (b : border_t) :
  rev head = pre ++ b :: post →
  assign g (rev pre) block st = inr st1 →
  b_is_def b = true → is_live_in g block (b_irn b) = false →
  (∀ c, 0 ≤ c < colors_n (a_env st1) → bitset_is_set (colors (a_env st1)) c = true) →
  (∃ col, assign g head block st = inl (no_register_for_index col)
          ∧ ¬ (0 ≤ col < colors_n (a_env st1)))
  ∧ (∀ st2 st3, assign_border g block st2 b = inr st3 →
       ∃ col, a_regs st3 !! b_irn b = Some col ∧ 0 ≤ col < colors_n (a_env st2)).
Proof.
  intros Hhead Hpre Hdef Hlive Hfull. split.
  - pose proof (assign_nonneg _ _ _ _ _ Hpre) as Hnn.
    destruct (assign_border_exhausted g block st1 b Hnn Hdef Hlive Hfull)
      as (col & Hb & Hout).
    exists col. split; [|done].
    unfold assign in *. rewrite rev_involutive in Hpre.
    destruct (foreach (assign_live_in g) _ (live_in g block)) as [e|st0]; simpl in *;
      [done|].
    rewrite Hhead, foreach_app, Hpre. simpl. by rewrite Hb.
  - intros st2 st3. unfold assign_border. rewrite Hdef, Hlive. simpl.
    unfold arch_register_for_index.
    destruct (Z.leb_spec 0 (bitset_next_clear (colors (a_env st2)) 0)); simpl; [|done].
    destruct (Z.ltb_spec (bitset_next_clear (colors (a_env st2)) 0) (colors_n (a_env st2)));
      simpl; [|done].
    destruct (bool_decide _); simpl; [|done].
    destruct (negb _); simpl; [|done].
    intros [= <-]. simpl. eexists. rewrite lookup_insert_eq. split; [done|lia].
Qed.

(** *** Example: one block under pressure *)

(** Block 0 has the live-in values 1 and 2 and defines 3; all are of the
    current class. *)
Definition pressure_graph : ir_graph :=
  mk_graph (fun _ => true) (fun _ => false) (fun _ => [])
           (fun _ => [3]) (fun _ => [1; 2]) (fun _ => [1; 2; 3]).

Definition two_registers : assign_st :=
  mk_ast (mk_env ∅ [] 0 0 0 2) (<[1 := 0]> (<[2 := 1]> ∅)).

Definition def_of_3 : border_t := mk_border 3 1 3 true true.

Lemma assign_color_exhaustion_fatal_witness :
  (∃ col, assign pressure_graph [def_of_3] 0 two_registers
            = inl (no_register_for_index col)
          ∧ ¬ (0 ≤ col < 2))
  ∧ (∀ st2 st3, assign_border pressure_graph 0 st2 def_of_3 = inr st3 →
       ∃ col, a_regs st3 !! 3 = Some col ∧ 0 ≤ col < colors_n (a_env st2)).
Proof.
  apply (assign_color_exhaustion_fatal pressure_graph [def_of_3] [] [] 0 two_registers
           (mk_ast (mk_env ∅ [] 6 3 3 2) (a_regs two_registers)) def_of_3).
  - reflexivity.
  - vm_compute. reflexivity.
  - reflexivity.
  - vm_compute. reflexivity.
  - intros c Hc. simpl in Hc.
    assert (c = 0 ∨ c = 1) as [-> | ->] by lia; reflexivity.
Defined.

(** With a third register the same block is coloured. *)
Example assign_three_registers :
  bind (assign pressure_graph [def_of_3] 0
               (mk_ast (mk_env ∅ [] 0 0 0 3) (a_regs two_registers)))
       (fun st => inr (a_regs st))
  = inr (<[3 := 2]> (a_regs two_registers)).
Proof. vm_compute. reflexivity. Qed.

(** *** Example: the interference graph of a small block *)

(** Block 0 with the schedule 1, 2, 3 = op(1, 2), 4 = op(3, 1); 4 is
    live at the end. *)
Definition small_graph : ir_graph :=
  mk_graph (fun _ => true) (fun _ => false)
           (fun n => if n =? 3 then [1; 2] else if n =? 4 then [3; 1] else [])
           (fun b => if b =? 0 then [1; 2; 3; 4] else [])
           (fun _ => []) (fun b => if b =? 0 then [4] else []).

Definition small_env : env_t :=
  w_env (pressure_walk small_graph [0] (initial_walk 3 ∅)).

Example small_graph_edges :
  (edges small_env).*2 = [mk_edge 1 3; mk_edge 1 2].
Proof. vm_compute. reflexivity. Qed.

Example small_graph_colored :
  bind (be_ra_chordal small_graph [0] 3 ∅ ∅) (fun st => inr (a_regs st))
  = inr (<[4 := 0]> (<[3 := 1]> (<[2 := 1]> (<[1 := 0]> ∅)))).
Proof. vm_compute. reflexivity. Qed.

Lemma phi_ops_interfere_sym_witness :
  phi_ops_interfere {[ 0%nat := small_env ]} (mk_node 0 3) (mk_node 0 1)
    = Some (are_connected small_env 3 1)
  ∧ phi_ops_interfere {[ 0%nat := small_env ]} (mk_node 0 3) (mk_node 0 1)
    = phi_ops_interfere {[ 0%nat := small_env ]} (mk_node 0 1) (mk_node 0 3).
Proof.
  apply (phi_ops_interfere_sym {[ 0%nat := small_env ]} small_env
           (mk_node 0 3) (mk_node 0 1)).
  - reflexivity.
  - vm_compute. reflexivity.
Defined.

End ChordalFacts.

(** ** The two representations of the interference graph *)

Module IfgFacts.
Import Bitset Chordal ChordalGraph ChordalFacts.

(** *** The two representations of the interference graph *)

(** The neighbours of a node in the node set; a node that was never
    entered has none. *)
Definition neighb (ns : gmap Z (gset Z)) (a : Z) : gset Z := default ∅ (ns !! a).

Lemma neighb_node_insert (ns : gmap Z (gset Z)) (x a : Z) :
  neighb (node_insert ns x) a = neighb ns a.
Proof.
  unfold neighb, node_insert. destruct (ns !! x) eqn:Hx; [done|].
  destruct (decide (a = x)) as [->|Hne].
  - by rewrite lookup_insert_eq, Hx.
  - by rewrite lookup_insert_ne.
Qed.

Lemma node_insert_is_Some (ns : gmap Z (gset Z)) (x a : Z) :
  a = x ∨ is_Some (ns !! a) → is_Some (node_insert ns x !! a).
Proof.
  unfold node_insert. intros H. destruct (ns !! x) eqn:Hx.
  - destruct H as [->|H]; [by rewrite Hx|done].
  - destruct (decide (a = x)) as [->|Hne].
    + by rewrite lookup_insert_eq.
    + rewrite lookup_insert_ne by done. by destruct H.
Qed.

Lemma neighb_neighb_insert (ns : gmap Z (gset Z)) (x other a : Z) :
  is_Some (ns !! x) →
  neighb (neighb_insert ns x other) a
  = neighb ns a ∪ (if decide (a = x) then {[other]} else ∅).
Proof.
  unfold neighb, neighb_insert. intros [nb Hx]. rewrite Hx.
  destruct (decide (a = x)) as [->|Hne].
  - by rewrite lookup_insert_eq, Hx.
  - rewrite lookup_insert_ne by done. set_solver.
Qed.

Lemma neighb_insert_is_Some (ns : gmap Z (gset Z)) (x other a : Z) :
  is_Some (ns !! a) → is_Some (neighb_insert ns x other !! a).
Proof.
  unfold neighb_insert. intros H. destruct (ns !! x) eqn:Hx; [|done].
  destruct (decide (a = x)) as [->|Hne].
  - by rewrite lookup_insert_eq.
  - by rewrite lookup_insert_ne.
Qed.

Lemma neighb_add_if (env : env_t) (s t a : Z) :
  neighb (nodes (add_if env s t)) a
  = neighb (nodes env) a
    ∪ (if decide (a = s) then {[t]} else ∅)
    ∪ (if decide (a = t) then {[s]} else ∅).
Proof.
  unfold add_if. simpl.
  rewrite neighb_neighb_insert.
  2: { apply neighb_insert_is_Some, node_insert_is_Some. by left. }
  rewrite neighb_neighb_insert.
  2: { apply node_insert_is_Some. right. apply node_insert_is_Some. by left. }
  by rewrite !neighb_node_insert.
Qed.

Lemma edge_init_eq (a b s t : Z) :
  edge_init a b = edge_init s t ↔ (a = s ∧ b = t) ∨ (a = t ∧ b = s).
Proof.
  unfold edge_init.
  destruct (Z.gtb_spec a b), (Z.gtb_spec s t); split;
    try (intros [= -> ->]; lia);
    try (intros [[-> ->]|[-> ->]]; f_equal; lia).
Qed.

Lemma set_insert_elem (s : set if_edge_t) (key e : if_edge_t) :
  (∀ h e, (h, e) ∈ s → h = IF_EDGE_HASH e) →
  e ∈ (set_insert if_edge_cmp s key (IF_EDGE_HASH key)).*2 ↔ e ∈ s.*2 ∨ e = key.
Proof.
  intros Hh. unfold set_insert.
  destruct (set_find _ _ _ _) as [e'|] eqn:Hf.
  - apply set_find_Some in Hf as [_ Hin]. split; [by left|].
    intros [H| ->]; [done|]. apply list_elem_of_fmap. by exists (IF_EDGE_HASH key, key).
  - rewrite fmap_app. simpl. set_solver.
Qed.

Lemma set_insert_hash (s : set if_edge_t) (key : if_edge_t) :
  (∀ h e, (h, e) ∈ s → h = IF_EDGE_HASH e) →
  ∀ h e, (h, e) ∈ set_insert if_edge_cmp s key (IF_EDGE_HASH key) → h = IF_EDGE_HASH e.
Proof.
  intros Hh h e. unfold set_insert.
  destruct (set_find _ _ _ _); [apply Hh|].
  intros [H|H%list_elem_of_singleton]%elem_of_app; [by apply Hh|]. by simplify_eq.
Qed.

Lemma find_app_found {A} (f : A → bool) (l l' : list A) (x : A) :
  List.find f l = Some x → List.find f (l ++ l') = Some x.
Proof.
  induction l as [|y l IH]; simpl; [done|].
  destruct (f y); [done|]. apply IH.
Qed.

(** The node set and the edge set describe the same graph. *)
Record ifg_ok (ns : gmap Z (gset Z)) (es : set if_edge_t) : Prop := mk_ifg_ok {
  ifg_hash  : ∀ h e, (h, e) ∈ es → h = IF_EDGE_HASH e;
  ifg_agree : ∀ a b, b ∈ neighb ns a ↔ edge_init a b ∈ es.*2
}.

Lemma ifg_ok_empty : ifg_ok ∅ [].
Proof.
  split; [set_solver|]. intros a b. unfold neighb. rewrite lookup_empty. set_solver.
Qed.

Lemma ifg_ok_add_if (env : env_t) (s t : Z) :
  ifg_ok (nodes env) (edges env) →
  ifg_ok (nodes (add_if env s t)) (edges (add_if env s t)).
Proof.
  intros [Hh Ha]. split.
  - rewrite edges_add_if. by apply set_insert_hash.
  - intros a b. rewrite neighb_add_if, edges_add_if, set_insert_elem by done.
    rewrite edge_init_eq, <- Ha.
    destruct (decide (a = s)), (decide (a = t)); set_solver.
Qed.

(** *** What the pressure pass does to the graph *)

Section GraphInvariant.
Context (P : gmap Z (gset Z) → set if_edge_t → Prop).
Context (P_add_if : ∀ env a b, P (nodes env) (edges env) →
                               P (nodes (add_if env a b)) (edges (add_if env a b))).

Definition holds_for (env : env_t) : Prop := P (nodes env) (edges env).

Lemma add_if_fold_inv (env : env_t) (nr : Z) (l : list Z) :
  holds_for env → holds_for (foldl (fun env elm => add_if env nr elm) env l).
Proof.
  revert env. induction l as [|x l IH]; intros env H; simpl; [done|].
  apply IH. by apply P_add_if.
Qed.

Lemma pressure_use_inv (g : ir_graph) (st : pressure_st) (op : Z) :
  holds_for (p_env st) → holds_for (p_env (pressure_use g st op)).
Proof.
  unfold pressure_use. intros H. destruct (has_reg_class g op); [|exact H].
  destruct (negb _); exact H.
Qed.

Lemma pressure_uses_inv (g : ir_graph) (ops : list Z) (st : pressure_st) :
  holds_for (p_env st) → holds_for (p_env (foldl (pressure_use g) st ops)).
Proof.
  revert st. induction ops as [|op ops IH]; intros st H; simpl; [exact H|].
  apply IH. by apply pressure_use_inv.
Qed.

Lemma pressure_insn_inv (g : ir_graph) (st : pressure_st) (irn : Z) :
  holds_for (p_env st) → holds_for (p_env (pressure_insn g st irn)).
Proof.
  intros H. unfold pressure_insn.
  set (st1 := erase_color st irn).
  assert (H1 : holds_for (p_env st1)) by done.
  clearbody st1. clear H.
  match goal with
  | |- context [incr_step (if _ then foldl _ ?s _ else ?s)] =>
      assert (Hs : holds_for (p_env s))
  end.
  { destruct (has_reg_class g irn); [|exact H1]. simpl. apply add_if_fold_inv. exact H1. }
  destruct (negb (is_Phi g irn)); simpl; [|exact Hs].
  apply pressure_uses_inv. exact Hs.
Qed.

Lemma pressure_inv (g : ir_graph) (block : Z) (env : env_t) (color : gmap Z Z) :
  holds_for env → holds_for (pressure g block env color).1.1.
Proof.
  intros H. unfold pressure. simpl.
  assert (Hin : ∀ l st, holds_for (p_env st) →
            holds_for (p_env (foldl (pressure_live_in g) st l))).
  { induction l as [|x l IH]; intros st Hst; simpl; [done|]. apply IH.
    unfold pressure_live_in. destruct (has_reg_class g x); exact Hst. }
  assert (Hinsn : ∀ l st, holds_for (p_env st) →
            holds_for (p_env (foldl (pressure_insn g) st l))).
  { induction l as [|x l IH]; intros st Hst; simpl; [done|]. apply IH.
    by apply pressure_insn_inv. }
  assert (Hend : ∀ l st, holds_for (p_env st) →
            holds_for (p_env (foldl (pressure_live_end g) st l))).
  { induction l as [|x l IH]; intros st Hst; simpl; [done|]. apply IH.
    unfold pressure_live_end. destruct (has_reg_class g x); exact Hst. }
  apply Hin, Hinsn. apply Hend. exact H.
Qed.

Lemma pressure_walk_inv (g : ir_graph) (blocks : list Z) (w : walk_st) :
  holds_for (w_env w) → holds_for (w_env (pressure_walk g blocks w)).
Proof.
  unfold pressure_walk. revert w.
  induction blocks as [|b blocks IH]; intros w H; cbn [foldl]; [done|].
  apply IH. pose proof (pressure_inv g b (w_env w) (w_color w) H) as H'.
  destruct (pressure g b (w_env w) (w_color w)) as [[env color] head].
  exact H'.
Qed.
End GraphInvariant.

(** In the interference graph that the pressure walk of [be_ra_chordal]
    builds, the neighbour sets of the nodes and the edge set are the same
    relation: [n2] is among the neighbours of [n1] exactly when
    [ifg_has_edge] finds the edge, the neighbour relation is symmetric,
    and both ends of an edge are nodes of the node set. *)
Theorem ifg_neighbours_are_edges
    (g : ir_graph) (blocks : list Z) (n_regs : Z) (color : gmap Z Z) (irg : nat) :
  let env := w_env (pressure_walk g blocks (initial_walk n_regs color)) in
  ∀ n1 n2,
    (n2 ∈ neighb (nodes env) n1 ↔ ifg_has_edge {[ irg := env ]} irg n1 n2 = Some true)
    ∧ (n2 ∈ neighb (nodes env) n1 ↔ n1 ∈ neighb (nodes env) n2)
    ∧ (are_connected env n1 n2 = true →
       is_Some (nodes env !! n1) ∧ is_Some (nodes env !! n2)).
Proof.
  intros env n1 n2.
  assert (Hok : ifg_ok (nodes env) (edges env)).
  { apply (pressure_walk_inv ifg_ok ifg_ok_add_if). apply ifg_ok_empty. }
  destruct Hok as [Hh Ha].
  assert (Hc : ∀ a b, are_connected env a b = true ↔ b ∈ neighb (nodes env) a).
  { intros a b. rewrite Ha. unfold are_connected.
    rewrite bool_decide_eq_true. by apply set_find_is_Some. }
  assert (Hs : ∀ a b, b ∈ neighb (nodes env) a → is_Some (nodes env !! a)).
  { intros a b. unfold neighb. destruct (nodes env !! a); [by eexists|set_solver]. }
  split_and!.
  - unfold ifg_has_edge. rewrite lookup_singleton_eq. simpl. rewrite <- Hc.
    split; [by intros ->|by intros [= ->]].
  - by rewrite <- !Hc, are_connected_sym.
  - intros H. split.
    + apply (Hs n1 n2). by apply Hc.
    + apply (Hs n2 n1). apply Hc. by rewrite are_connected_sym.
Qed.

(** The pressure pass only adds to the graph: the edge set of before is
    a prefix of the edge set afterwards (no entry is removed or moved),
    two nodes that were connected stay connected, and no node loses a
    neighbour. *)
Theorem pressure_walk_keeps_edges (g : ir_graph) (blocks : list Z) (w : walk_st) :
  let env := w_env w in
  let env' := w_env (pressure_walk g blocks w) in
  edges env `prefix_of` edges env'
  ∧ (∀ a b, are_connected env a b = true → are_connected env' a b = true)
  ∧ (∀ a, neighb (nodes env) a ⊆ neighb (nodes env') a).
Proof.
  intros env env'.
  pose (P := fun (ns : gmap Z (gset Z)) (es : set if_edge_t) =>
               edges env `prefix_of` es ∧ ∀ a, neighb (nodes env) a ⊆ neighb ns a).
  assert (HP : P (nodes env') (edges env')).
  { apply (pressure_walk_inv P); [|by split].
    intros e a b [Hp Hn]. split.
    - rewrite edges_add_if. unfold set_insert.
      destruct (set_find _ _ _ _); [done|]. by apply prefix_app_r.
    - intros x. rewrite neighb_add_if. specialize (Hn x). set_solver. }
  destruct HP as [[k Hk] Hn]. split_and!; [by exists k| |done].
  intros a b. unfold are_connected. rewrite !bool_decide_eq_true.
  rewrite Hk. unfold set_find. intros [e He].
  destruct (List.find _ (edges env)) as [he|] eqn:Hf; [|done].
  erewrite find_app_found by done. by eexists.
Qed.

End IfgFacts.

(** ** The registers of the assignment pass *)

Module AssignFacts.
Import Bitset Chordal ChordalFacts.

(** *** Bits *)

Lemma pow2_testbit (n m : Z) : Z.testbit (2 ^ n) m = true ↔ m = n ∧ 0 ≤ n.
Proof.
  destruct (Z.neg_nonneg_cases n) as [Hn|Hn].
  - rewrite Z.pow_neg_r, Z.bits_0 by lia. split; [done|lia].
  - rewrite Z.pow2_bits_eqb by lia. rewrite Z.eqb_eq. split; [by intros ->|by intros [-> _]].
Qed.

Lemma bitset_set_spec (bs : bitset_t) (n m : Z) :
  bitset_is_set (bitset_set bs n) m = true ↔ (m = n ∧ 0 ≤ n) ∨ bitset_is_set bs m = true.
Proof.
  unfold bitset_is_set, bitset_set.
  rewrite Z.setbit_spec', Z.lor_spec, orb_true_iff, pow2_testbit. tauto.
Qed.

Lemma bitset_clear_spec (bs : bitset_t) (n m : Z) :
  bitset_is_set (bitset_clear bs n) m = true ↔ bitset_is_set bs m = true ∧ m ≠ n.
Proof.
  unfold bitset_is_set, bitset_clear.
  rewrite Z.clearbit_spec', Z.ldiff_spec, andb_true_iff, negb_true_iff.
  split; intros [H1 H2]; split; try done.
  - intros ->. destruct (Z.neg_nonneg_cases n) as [Hn|Hn].
    + by rewrite Z.testbit_neg_r in H1.
    + assert (Z.testbit (2 ^ n) n = true) by (by apply pow2_testbit). congruence.
  - apply not_true_is_false. rewrite pow2_testbit. by intros [? _].
Qed.

(** *** The colours of the live values *)

Definition is_live (st : assign_st) (n : Z) : Prop :=
  bitset_is_set (live (a_env st)) n = true.

(** What [assign] keeps true of its state: the live values have
    registers, the colour of each is marked as in use, and no two live
    values have the same register. *)
Record colors_apart (st : assign_st) : Prop := mk_colors_apart {
  ca_nonneg   : 0 ≤ colors (a_env st);
  ca_reg      : ∀ n, is_live st n →
                  ∃ c, a_regs st !! n = Some c ∧ bitset_is_set (colors (a_env st)) c = true;
  ca_distinct : ∀ n m c, n ≠ m → is_live st n → is_live st m →
                  a_regs st !! n = Some c → a_regs st !! m ≠ Some c
}.

(** The registers that the live-in values of the class bring along are
    indices (not negative) and differ from value to value. *)
Record live_in_colored (g : ir_graph) (block : Z) (regs : gmap Z Z) : Prop := mk_live_in_colored {
  lic_nonneg   : ∀ n c, n ∈ live_in g block → has_reg_class g n = true →
                   regs !! n = Some c → 0 ≤ c;
  lic_distinct : ∀ n m c, n ∈ live_in g block → m ∈ live_in g block →
                   has_reg_class g n = true → has_reg_class g m = true →
                   n ≠ m → regs !! n = Some c → regs !! m ≠ Some c
}.

(** The state of the first loop of [assign]. *)
Record live_in_inv (g : ir_graph) (block : Z) (regs : gmap Z Z) (st : assign_st) : Prop :=
  mk_live_in_inv {
  lii_regs  : a_regs st = regs;
  lii_live  : ∀ n, is_live st n → n ∈ live_in g block ∧ has_reg_class g n = true;
  lii_apart : colors_apart st
}.

Lemma assign_live_in_inv (g : ir_graph) (block : Z) (regs : gmap Z Z)
      (st st' : assign_st) (irn : Z) :
  live_in_colored g block regs →
  irn ∈ live_in g block →
  live_in_inv g block regs st →
  assign_live_in g st irn = inr st' →
  live_in_inv g block regs st'.
Proof.
  intros [Hnn Hd] Hin [Hr Hl [Hc0 Hc1 Hc2]]. unfold assign_live_in.
  destruct (has_reg_class g irn) eqn:Hcls; [|by intros [= <-]].
  destruct (a_regs st !! irn) as [col|] eqn:Hcol; [|done].
  intros [= <-]. unfold is_live in *. simpl in *.
  assert (Hcol0 : 0 ≤ col) by (apply (Hnn irn col); [done|done|by rewrite <- Hr]).
  split; [done| |split]; simpl.
  - intros n [[-> _]|Hn]%bitset_set_spec; [done|by apply Hl].
  - by apply bitset_set_nonneg.
  - intros n [[-> _]|Hn]%bitset_set_spec.
    + exists col. split; [done|]. apply bitset_set_spec. by left.
    + destruct (Hc1 n Hn) as (c & Hc & Hbit). exists c. split; [done|].
      apply bitset_set_spec. by right.
  - intros n m c Hne Hn Hm Hnc.
    assert (Hn' : n ∈ live_in g block ∧ has_reg_class g n = true).
    { apply bitset_set_spec in Hn as [[-> _]|Hn]; [done|by apply Hl]. }
    assert (Hm' : m ∈ live_in g block ∧ has_reg_class g m = true).
    { apply bitset_set_spec in Hm as [[-> _]|Hm]; [done|by apply Hl]. }
    rewrite Hr in *. apply (Hd n m c); tauto.
Qed.

Lemma assign_live_ins_inv (g : ir_graph) (block : Z) (regs : gmap Z Z) (l : list Z)
      (st st' : assign_st) :
  live_in_colored g block regs →
  (∀ n, n ∈ l → n ∈ live_in g block) →
  live_in_inv g block regs st →
  foreach (assign_live_in g) st l = inr st' →
  live_in_inv g block regs st'.
Proof.
  intros Hlic. revert st. induction l as [|irn l IH]; intros st Hl Hinv; simpl.
  - by intros [= <-].
  - destruct (assign_live_in g st irn) as [e|st1] eqn:H1; simpl; [done|].
    apply IH; [set_solver|].
    eapply assign_live_in_inv; [done| |done|done]. set_solver.
Qed.

(** One border: the invariant is kept, the registers assigned before
    stay, and a register that is assigned is the one of no live value. *)
Lemma assign_border_apart (g : ir_graph) (block : Z) (st st' : assign_st) (b : border_t) :
  colors_apart st →
  assign_border g block st b = inr st' →
  colors_apart st'
  ∧ colors_n (a_env st') = colors_n (a_env st)
  ∧ (∀ n c, a_regs st !! n = Some c → a_regs st' !! n = Some c)
  ∧ (∀ n, n ≠ b_irn b → (is_live st' n ↔ is_live st n)
                         ∧ a_regs st' !! n = a_regs st !! n)
  ∧ (b_is_def b = true → is_live_in g block (b_irn b) = false →
       ∃ col, a_regs st' !! b_irn b = Some col
              ∧ 0 ≤ col < colors_n (a_env st)
              ∧ ∀ m, is_live st m → a_regs st !! m ≠ Some col)
  ∧ (b_is_def b = false → is_live st (b_irn b)).
Proof.
  intros [Hc0 Hc1 Hc2]. unfold assign_border.
  destruct (b_is_def b && negb (is_live_in g block (b_irn b))) eqn:Hdef.
  - (* a definition in the block *)
    apply andb_true_iff in Hdef as [Hd Hli]. apply negb_true_iff in Hli.
    destruct (bitset_next_clear_clear (colors (a_env st)) Hc0) as [Hclear Hcol0].
    set (col := bitset_next_clear (colors (a_env st)) 0) in *.
    unfold arch_register_for_index.
    destruct ((0 <=? col) && (col <? colors_n (a_env st))) eqn:Hrange; simpl; [|done].
    apply andb_true_iff in Hrange as [_ Hlt%Z.ltb_lt].
    case_bool_decide as Hnone; simpl; [|done].
    destruct (bitset_is_set (live (a_env st)) (b_irn b)) eqn:Hlive; simpl; [done|].
    intros [= <-]. unfold is_live in *. simpl.
    assert (Hother : ∀ m, bitset_is_set (live (a_env st)) m = true →
                          a_regs st !! m ≠ Some col).
    { intros m Hm Hmc. destruct (Hc1 m Hm) as (c & Hc & Hbit). congruence. }
    split_and!.
    + split; simpl.
      * by apply bitset_set_nonneg.
      * intros n [[-> _]|Hn]%bitset_set_spec.
        -- exists col. rewrite lookup_insert_eq. split; [done|].
           apply bitset_set_spec. by left.
        -- assert (n ≠ b_irn b) by congruence.
           destruct (Hc1 n Hn) as (c & Hc & Hbit). exists c.
           rewrite lookup_insert_ne by done. split; [done|].
           apply bitset_set_spec. by right.
      * intros n m c Hne Hn Hm.
        apply bitset_set_spec in Hn, Hm.
        destruct (decide (n = b_irn b)) as [->|Hnb].
        -- rewrite lookup_insert_eq, lookup_insert_ne by done. intros [= <-].
           destruct Hm as [[-> _]|Hm]; [done|]. by apply Hother.
        -- rewrite lookup_insert_ne by done.
           destruct Hn as [[-> _]|Hn]; [done|]. intros Hnc.
           destruct (decide (m = b_irn b)) as [->|Hmb].
           ++ rewrite lookup_insert_eq. intros [= <-]. by apply (Hother n).
           ++ rewrite lookup_insert_ne by done.
              destruct Hm as [[-> _]|Hm]; [done|]. by eapply Hc2.
    + done.
    + intros n c Hn. destruct (decide (n = b_irn b)) as [->|Hne]; [congruence|].
      by rewrite lookup_insert_ne.
    + intros n Hne. rewrite lookup_insert_ne by done. split; [|done].
      rewrite bitset_set_spec. split; [|by right]. by intros [[-> _]|?].
    + intros _ _. exists col. rewrite lookup_insert_eq. split_and!; try done.
    + by rewrite Hd.
  - destruct (b_is_def b) eqn:Hd; simpl.
    + (* the definition of a live-in value *)
      intros [= <-]. split_and!; try done.
      intros _ Hli. by rewrite Hli in Hdef.
    + (* a use *)
      destruct (a_regs st !! b_irn b) as [col|] eqn:Hcol; [|done].
      destruct (bitset_is_set (live (a_env st)) (b_irn b)) eqn:Hlive; simpl; [|done].
      intros [= <-]. unfold is_live in *. simpl. split_and!.
      * split; simpl.
        -- by apply bitset_clear_nonneg.
        -- intros n [Hn Hne]%bitset_clear_spec.
           destruct (Hc1 n Hn) as (c & Hc & Hbit). exists c. split; [done|].
           apply bitset_clear_spec. split; [done|]. intros ->.
           by apply (Hc2 (b_irn b) n col).
        -- intros n m c Hne [Hn _]%bitset_clear_spec [Hm _]%bitset_clear_spec.
           by apply Hc2.
      * done.
      * done.
      * intros n Hne. split; [|done]. rewrite bitset_clear_spec. tauto.
      * done.
      * done.
Qed.

Lemma assign_borders_apart (g : ir_graph) (block : Z) (l : list border_t)
      (st st' : assign_st) :
  colors_apart st →
  foreach (assign_border g block) st l = inr st' →
  colors_apart st'
  ∧ colors_n (a_env st') = colors_n (a_env st)
  ∧ (∀ n c, a_regs st !! n = Some c → a_regs st' !! n = Some c)
  ∧ (∀ n, (∀ b, b ∈ l → b_irn b ≠ n) →
          (is_live st' n ↔ is_live st n) ∧ a_regs st' !! n = a_regs st !! n).
Proof.
  revert st. induction l as [|b l IH]; intros st Hca; simpl.
  - intros [= <-]. split_and!; done.
  - destruct (assign_border g block st b) as [e|st1] eqn:H1; simpl; [done|].
    intros H2.
    destruct (assign_border_apart g block st st1 b Hca H1) as (Hca1 & Hn1 & Hr1 & Hk1 & _).
    destruct (IH st1 Hca1 H2) as (Hca2 & Hn2 & Hr2 & Hk2).
    split_and!; [done|congruence|by auto|].
    intros n Hn.
    destruct (Hk1 n) as [Hl1 He1]; [apply not_eq_sym, Hn; set_solver|].
    destruct (Hk2 n) as [Hl2 He2]; [intros b' Hb'; apply Hn; set_solver|].
    split; [by rewrite Hl2|congruence].
Qed.

(** The state of [assign] before the loop over the borders. *)
Lemma assign_start_apart (g : ir_graph) (block : Z) (st st1 : assign_st) :
  live_in_colored g block (a_regs st) →
  foreach (assign_live_in g)
          (mk_ast (set_in_colors
                     (set_colors (set_live (a_env st) (bitset_clear_all (live (a_env st))))
                                 (bitset_clear_all (colors (a_env st))))
                     (bitset_clear_all (in_colors (a_env st))))
                  (a_regs st))
          (live_in g block) = inr st1 →
  colors_apart st1 ∧ a_regs st1 = a_regs st
  ∧ colors_n (a_env st1) = colors_n (a_env st)
  ∧ ∀ n, n ∈ live_in g block → has_reg_class g n = true → 0 ≤ n → is_live st1 n.
Proof.
  intros Hlic H1.
  assert (Hinv : live_in_inv g block (a_regs st) st1).
  { eapply assign_live_ins_inv; [done|done| |exact H1].
    split; [done| |split]; unfold is_live, bitset_is_set; simpl.
    - intros n. by rewrite Z.bits_0.
    - done.
    - intros n. by rewrite Z.bits_0.
    - intros n m c _. by rewrite Z.bits_0. }
  destruct Hinv as [Hr _ Hca]. split_and!; [done|done| |].
  - clear Hr Hca Hlic. revert H1.
    match goal with |- foreach _ ?s _ = _ → _ =>
      change (colors_n (a_env st)) with (colors_n (a_env s)); generalize s end.
    induction (live_in g block) as [|x l IH]; intros s; simpl.
    + by intros [= <-].
    + destruct (assign_live_in g s x) as [e|s1] eqn:Hx; simpl; [done|].
      intros H. rewrite (IH s1 H). unfold assign_live_in in Hx.
      destruct (has_reg_class g x); [|by simplify_eq].
      destruct (a_regs s !! x); by simplify_eq.
  - clear Hr Hca Hlic. revert H1.
    match goal with |- foreach _ ?s _ = _ → _ => generalize s end.
    assert (Hmono : ∀ l s s', foreach (assign_live_in g) s l = inr s' →
                     ∀ n, is_live s n → is_live s' n).
    { induction l as [|x l IH]; intros s s'; simpl; [by intros [= <-]|].
      destruct (assign_live_in g s x) as [e|s1] eqn:Hx; simpl; [done|].
      intros H n Hn. apply (IH s1 s' H). unfold assign_live_in in Hx.
      destruct (has_reg_class g x); [|by simplify_eq].
      destruct (a_regs s !! x); [|done]. simplify_eq. unfold is_live. simpl.
      apply bitset_set_spec. by right. }
    induction (live_in g block) as [|x l IH]; intros s; simpl; [set_solver|].
    destruct (assign_live_in g s x) as [e|s1] eqn:Hx; simpl; [done|].
    intros H n [->|Hn]%elem_of_cons Hcls Hn0.
    + apply (Hmono l s1 st1 H). unfold assign_live_in in Hx. rewrite Hcls in Hx.
      destruct (a_regs s !! x); [|done]. simplify_eq. unfold is_live. simpl.
      apply bitset_set_spec. by left.
    + by apply (IH s1).
Qed.

(** [assign] keeps the colours of the values that are live at the same
    time apart.  When the live-in values of the class come with
    registers that differ from value to value, then at every definition
    in the block the register that [assign] gives to the value is a
    register of the class that no value live at that point has, and at
    the end of the block all live values have registers of their own. *)
Theorem assign_colors_apart
    (g : ir_graph) (head pre post : list border_t) (block : Z)
    (st st1 st2 st' : assign_st) (b : border_t) :
  live_in_colored g block (a_regs st) →
  rev head = pre ++ b :: post →
  assign g (rev pre) block st = inr st1 →
  assign_border g block st1 b = inr st2 →
  assign g head block st = inr st' →
  b_is_def b = true → is_live_in g block (b_irn b) = false →
  (∃ col, a_regs st2 !! b_irn b = Some col
          ∧ 0 ≤ col < colors_n (a_env st)
          ∧ a_regs st' !! b_irn b = Some col
          ∧ ∀ m, is_live st1 m → a_regs st1 !! m ≠ Some col)
  ∧ colors_apart st'.
Proof.
  intros Hlic Hsplit Hpre Hb Hall Hdef Hli.
  unfold assign in Hpre, Hall. rewrite rev_involutive in Hpre.
  destruct (foreach (assign_live_in g) _ (live_in g block)) as [e|s0] eqn:H0;
    simpl in Hpre, Hall; [done|].
  destruct (assign_start_apart g block st s0 Hlic H0) as (Hca0 & Hr0 & Hn0 & _).
  destruct (assign_borders_apart g block pre s0 st1 Hca0 Hpre) as (Hca1 & Hn1 & _ & _).
  destruct (assign_border_apart g block st1 st2 b Hca1 Hb)
    as (Hca2 & Hn2 & _ & _ & Hcol & _).
  destruct (Hcol Hdef Hli) as (col & Hc & Hrange & Hfree).
  rewrite Hsplit, foreach_app, Hpre in Hall. simpl in Hall. rewrite Hb in Hall.
  simpl in Hall.
  destruct (assign_borders_apart g block post st2 st' Hca2 Hall) as (Hca' & _ & Hr' & _).
  split; [|done]. exists col.
  split; [done|]. split; [lia|]. split; [by apply Hr'|done].
Qed.

(** The block of [pressure_graph] with three registers: the live-in
    values 1 and 2 come in the registers 0 and 1. *)
Definition three_registers : assign_st :=
  mk_ast (mk_env ∅ [] 0 0 0 3) (a_regs two_registers).

Lemma pressure_graph_live_in_colored :
  live_in_colored pressure_graph 0 (a_regs three_registers).
Proof.
  split.
  - intros n c Hn _ Hc. simpl in Hn.
    repeat (apply elem_of_cons in Hn as [->|Hn]); [| |by apply elem_of_nil in Hn];
      vm_compute in Hc; simplify_eq; lia.
  - intros n m c Hn Hm _ _ Hne Hc. simpl in Hn, Hm.
    repeat (apply elem_of_cons in Hn as [->|Hn]); [| |by apply elem_of_nil in Hn];
      (repeat (apply elem_of_cons in Hm as [->|Hm]); [| |by apply elem_of_nil in Hm]);
      try done; vm_compute in Hc; simplify_eq; vm_compute; congruence.
Qed.

Lemma assign_colors_apart_witness :
  let st1 := mk_ast (mk_env ∅ [] 6 3 3 3) (a_regs two_registers) in
  let st2 := mk_ast (mk_env ∅ [] 14 7 3 3) (<[3 := 2]> (a_regs two_registers)) in
  (∃ col, a_regs st2 !! 3 = Some col
          ∧ 0 ≤ col < 3
          ∧ a_regs st2 !! 3 = Some col
          ∧ ∀ m, is_live st1 m → a_regs st1 !! m ≠ Some col)
  ∧ colors_apart st2.
Proof.
  apply (assign_colors_apart pressure_graph [def_of_3] [] [] 0 three_registers
           (mk_ast (mk_env ∅ [] 6 3 3 3) (a_regs two_registers))
           (mk_ast (mk_env ∅ [] 14 7 3 3) (<[3 := 2]> (a_regs two_registers)))
           (mk_ast (mk_env ∅ [] 14 7 3 3) (<[3 := 2]> (a_regs two_registers)))
           def_of_3).
  - exact pressure_graph_live_in_colored.
  - reflexivity.
  - vm_compute. reflexivity.
  - vm_compute. reflexivity.
  - vm_compute. reflexivity.
  - reflexivity.
  - reflexivity.
Defined.

End AssignFacts.

(** ** Interference and assignment together *)

Module AllocFacts.
Import Bitset Chordal ChordalFacts IfgFacts AssignFacts.

(** *** The border list of a block *)

(** The steps of [pressure] append to the border list. *)
Lemma pressure_use_head (g : ir_graph) (st : pressure_st) (op : Z) :
  ∃ new, p_head (pressure_use g st op) = p_head st ++ new.
Proof.
  unfold pressure_use. destruct (has_reg_class g op); [|by exists []; rewrite app_nil_r].
  destruct (negb _); [by eexists|by exists []; rewrite app_nil_r].
Qed.

Lemma pressure_uses_head (g : ir_graph) (ops : list Z) (st : pressure_st) :
  ∃ new, p_head (foldl (pressure_use g) st ops) = p_head st ++ new.
Proof.
  revert st. induction ops as [|op ops IH]; intros st; simpl.
  - exists []. by rewrite app_nil_r.
  - destruct (IH (pressure_use g st op)) as [n2 ->].
    destruct (pressure_use_head g st op) as [n1 ->].
    exists (n1 ++ n2). by rewrite app_assoc.
Qed.

Lemma pressure_insn_head (g : ir_graph) (st : pressure_st) (irn : Z) :
  ∃ new, p_head (pressure_insn g st irn) = p_head st ++ new
         ∧ (has_reg_class g irn = true →
            ∃ b, b ∈ new ∧ b_irn b = irn ∧ b_is_def b = true).
Proof.
  unfold pressure_insn.
  destruct (has_reg_class g irn) eqn:Hcls.
  - destruct (negb (is_Phi g irn)); cbn [incr_step p_head].
    + match goal with |- context [foldl (pressure_use g) ?s ?l] =>
        destruct (pressure_uses_head g l s) as [n2 ->] end.
      unfold with_env, border_def, border_add, erase_color. cbn [p_head].
      eexists. rewrite <- app_assoc. split; [reflexivity|].
      intros _. eexists. split; [apply elem_of_app; left; apply list_elem_of_singleton;
                                 reflexivity|done].
    + unfold with_env, border_def, border_add, erase_color. cbn [p_head].
      eexists. split; [reflexivity|]. intros _. eexists.
      split; [apply list_elem_of_singleton; reflexivity|done].
  - destruct (negb (is_Phi g irn)); cbn [incr_step p_head].
    + match goal with |- context [foldl (pressure_use g) ?s ?l] =>
        destruct (pressure_uses_head g l s) as [n2 ->] end.
      unfold erase_color. cbn [p_head]. by eexists.
    + unfold erase_color. cbn [p_head]. exists []. by rewrite app_nil_r.
Qed.

Lemma pressure_insns_head (g : ir_graph) (l : list Z) (st : pressure_st) :
  ∃ new, p_head (foldl (pressure_insn g) st l) = p_head st ++ new
         ∧ ∀ irn, irn ∈ l → has_reg_class g irn = true →
             ∃ b, b ∈ new ∧ b_irn b = irn ∧ b_is_def b = true.
Proof.
  revert st. induction l as [|x l IH]; intros st; simpl.
  - exists []. rewrite app_nil_r. split; [done|]. intros irn Hin. by apply elem_of_nil in Hin.
  - destruct (IH (pressure_insn g st x)) as (n2 & -> & H2).
    destruct (pressure_insn_head g st x) as (n1 & -> & H1).
    exists (n1 ++ n2). rewrite app_assoc. split; [done|].
    intros irn [->|Hin]%elem_of_cons Hcls.
    + destruct (H1 Hcls) as (b & Hb & ?). exists b. split; [set_solver|done].
    + destruct (H2 irn Hin Hcls) as (b & Hb & ?). exists b. split; [set_solver|done].
Qed.

Lemma pressure_live_ins_head (g : ir_graph) (l : list Z) (st : pressure_st) :
  ∃ new, p_head (foldl (pressure_live_in g) st l) = p_head st ++ new.
Proof.
  revert st. induction l as [|x l IH]; intros st; simpl.
  - exists []. by rewrite app_nil_r.
  - destruct (IH (pressure_live_in g st x)) as [n2 ->].
    unfold pressure_live_in. destruct (has_reg_class g x);
      unfold border_def, border_add, with_env; cbn [p_head].
    + eexists. by rewrite <- app_assoc.
    + by eexists.
Qed.

(** Every scheduled value of the class has a border of its definition. *)
Lemma pressure_defs_in_head (g : ir_graph) (block : Z) (env : env_t) (color : gmap Z Z) :
  ∀ irn, irn ∈ sched g block → has_reg_class g irn = true →
    ∃ b, b ∈ (pressure g block env color).2 ∧ b_irn b = irn ∧ b_is_def b = true.
Proof.
  intros irn Hin Hcls. unfold pressure. simpl.
  match goal with |- context [foldl (pressure_live_in g) ?s ?l] =>
    destruct (pressure_live_ins_head g l s) as [n3 ->] end.
  match goal with |- context [foldl (pressure_insn g) ?s ?l] =>
    destruct (pressure_insns_head g l s) as (n2 & -> & H2) end.
  destruct (H2 irn) as (b & Hb & ?); [|done|].
  { apply list_elem_of_In, in_rev. rewrite rev_involutive. by apply list_elem_of_In. }
  exists b. split; [set_solver|done].
Qed.

(** *** The registers that [assign] hands out *)

Lemma assign_border_regs (g : ir_graph) (block : Z) (st st' : assign_st) (b : border_t) :
  assign_border g block st b = inr st' →
  colors_n (a_env st') = colors_n (a_env st)
  ∧ (∀ n c, a_regs st !! n = Some c → a_regs st' !! n = Some c)
  ∧ (∀ n c, a_regs st' !! n = Some c →
       a_regs st !! n = Some c ∨ 0 ≤ c < colors_n (a_env st))
  ∧ (b_is_def b = true → is_live_in g block (b_irn b) = false →
       is_Some (a_regs st' !! b_irn b)).
Proof.
  unfold assign_border.
  destruct (b_is_def b && negb (is_live_in g block (b_irn b))) eqn:Hdef.
  - unfold arch_register_for_index.
    set (col := bitset_next_clear (colors (a_env st)) 0).
    destruct ((0 <=? col) && (col <? colors_n (a_env st))) eqn:Hrange; simpl; [|done].
    apply andb_true_iff in Hrange as [H0%Z.leb_le Hlt%Z.ltb_lt].
    case_bool_decide as Hnone; simpl; [|done].
    destruct (bitset_is_set (live (a_env st)) (b_irn b)); simpl; [done|].
    intros [= <-]. simpl. split_and!; [done| | |].
    + intros n c Hn. destruct (decide (n = b_irn b)) as [->|Hne]; [congruence|].
      by rewrite lookup_insert_ne.
    + intros n c. destruct (decide (n = b_irn b)) as [->|Hne].
      * rewrite lookup_insert_eq. intros [= <-]. right. lia.
      * rewrite lookup_insert_ne by done. by left.
    + intros _ _. rewrite lookup_insert_eq. by eexists.
  - destruct (b_is_def b) eqn:Hd; simpl.
    + intros [= <-]. split_and!; [done|done|by left|].
      intros _ Hli. by rewrite Hli in Hdef.
    + destruct (a_regs st !! b_irn b) as [col|]; [|done].
      destruct (bitset_is_set (live (a_env st)) (b_irn b)); simpl; [|done].
      intros [= <-]. simpl. split_and!; [done|done|by left|done].
Qed.

Lemma assign_borders_regs (g : ir_graph) (block : Z) (l : list border_t)
      (st st' : assign_st) :
  foreach (assign_border g block) st l = inr st' →
  colors_n (a_env st') = colors_n (a_env st)
  ∧ (∀ n c, a_regs st !! n = Some c → a_regs st' !! n = Some c)
  ∧ (∀ n c, a_regs st' !! n = Some c →
       a_regs st !! n = Some c ∨ 0 ≤ c < colors_n (a_env st))
  ∧ (∀ b, b ∈ l → b_is_def b = true → is_live_in g block (b_irn b) = false →
       is_Some (a_regs st' !! b_irn b)).
Proof.
  revert st. induction l as [|b l IH]; intros st; simpl.
  - intros [= <-]. split_and!; [done|done|by left|]. intros b Hb. by apply elem_of_nil in Hb.
  - destruct (assign_border g block st b) as [e|st1] eqn:H1; simpl; [done|].
    intros H2.
    destruct (assign_border_regs g block st st1 b H1) as (Hn1 & Hk1 & Hr1 & Hd1).
    destruct (IH st1 H2) as (Hn2 & Hk2 & Hr2 & Hd2).
    split_and!.
    + congruence.
    + auto.
    + intros n c Hc. destruct (Hr2 n c Hc) as [H|H]; [by apply Hr1|].
      right. by rewrite <- Hn1.
    + intros b' [->|Hb']%elem_of_cons Hdef Hli.
      * destruct (Hd1 Hdef Hli) as [c Hc]. exists c. by apply Hk2.
      * by apply Hd2.
Qed.

Lemma assign_live_ins_regs (g : ir_graph) (l : list Z) (st st' : assign_st) :
  foreach (assign_live_in g) st l = inr st' →
  a_regs st' = a_regs st
  ∧ colors_n (a_env st') = colors_n (a_env st)
  ∧ ∀ n, n ∈ l → has_reg_class g n = true → is_Some (a_regs st !! n).
Proof.
  revert st. induction l as [|x l IH]; intros st; simpl.
  - intros [= <-]. split_and!; [done|done|]. intros n Hn. by apply elem_of_nil in Hn.
  - destruct (assign_live_in g st x) as [e|st1] eqn:H1; simpl; [done|].
    intros H2. destruct (IH st1 H2) as (Hr & Hn & Hs).
    unfold assign_live_in in H1.
    destruct (has_reg_class g x) eqn:Hcls.
    + destruct (a_regs st !! x) as [col|] eqn:Hcol; [|done]. simplify_eq. simpl in *.
      split_and!; [done|done|].
      intros n [->|Hin]%elem_of_cons Hc; [by eexists|by apply Hs].
    + simplify_eq. split_and!; [done|done|].
      intros n [->|Hin]%elem_of_cons Hc; [congruence|by apply Hs].
Qed.


(** The block of [small_graph] with three registers, after both passes. *)
Definition small_start : assign_st := mk_ast (mk_env ∅ [] 0 0 0 3) ∅.

Definition small_borders : list border_t :=
  (pressure small_graph 0 (a_env small_start) ∅).2.

Definition small_assigned : assign_st :=
  match assign small_graph small_borders 0 small_start with
  | inr st => st
  | inl _ => small_start
  end.


(** *** Interference and registers *)

(** The borders of a value, and what it means that the value is live
    behind a border list: its most recent border is a use. *)
Definition borders_of (x : Z) (l : list border_t) : list border_t :=
  filter (fun b => b_irn b = x) l.

Definition last_is_use (x : Z) (head : list border_t) : Prop :=
  ∃ u, last (borders_of x head) = Some u ∧ b_is_def u = false.

(** The border list shows that [x] is live across the definition of
    [nr]: the list has a border of the definition of [nr], and among the
    borders recorded before it (which are later in the block) the most
    recent one of [x], if [x] is of the class, is a use. *)
Definition interferes_at (g : ir_graph) (block : Z) (head : list border_t) (nr x : Z) : Prop :=
  ∃ h1 d h2, head = h1 ++ d :: h2
    ∧ b_irn d = nr ∧ b_is_def d = true
    ∧ nr ∈ sched g block ∧ has_reg_class g nr = true ∧ x ≠ nr
    ∧ (has_reg_class g x = true → last_is_use x h1).

Lemma borders_of_app (x : Z) (l1 l2 : list border_t) :
  borders_of x (l1 ++ l2) = borders_of x l1 ++ borders_of x l2.
Proof. apply filter_app. Qed.

Lemma borders_of_other (x : Z) (b : border_t) :
  b_irn b ≠ x → borders_of x [b] = [].
Proof. intros H. unfold borders_of. by rewrite filter_cons_False, filter_nil. Qed.

Lemma borders_of_same (x : Z) (b : border_t) :
  b_irn b = x → borders_of x [b] = [b].
Proof. intros H. unfold borders_of. by rewrite filter_cons_True, filter_nil. Qed.

Lemma last_is_use_other (x : Z) (head : list border_t) (b : border_t) :
  b_irn b ≠ x → last_is_use x head → last_is_use x (head ++ [b]).
Proof.
  intros Hb (u & Hu & Hd). exists u.
  by rewrite borders_of_app, borders_of_other, app_nil_r.
Qed.

Lemma last_is_use_new (x : Z) (head : list border_t) (b : border_t) :
  b_irn b = x → b_is_def b = false → last_is_use x (head ++ [b]).
Proof.
  intros Hb Hd. exists b.
  by rewrite borders_of_app, borders_of_same, last_snoc.
Qed.

Lemma interferes_at_app (g : ir_graph) (block : Z) (head new : list border_t) (nr x : Z) :
  interferes_at g block head nr x → interferes_at g block (head ++ new) nr x.
Proof.
  intros (h1 & d & h2 & -> & H). exists h1, d, (h2 ++ new).
  split; [by rewrite <- app_assoc|done].
Qed.

(** The edges that are new since the pass over the block began come with
    such borders. *)
Definition edges_explained (g : ir_graph) (block : Z) (env0 : env_t) (st : pressure_st) : Prop :=
  ∀ e, e ∈ (edges (p_env st)).*2 →
    e ∈ (edges env0).*2
    ∨ ∃ nr x, e = edge_init nr x ∧ interferes_at g block (p_head st) nr x.

Definition edges_hashed (env : env_t) : Prop :=
  ∀ h e, (h, e) ∈ edges env → h = IF_EDGE_HASH e.

Definition live_have_uses (g : ir_graph) (st : pressure_st) : Prop :=
  ∀ x, has_reg_class g x = true → bitset_is_set (live (p_env st)) x = true →
       last_is_use x (p_head st).

Record borders_inv (g : ir_graph) (block : Z) (env0 : env_t) (st : pressure_st) : Prop :=
  mk_borders_inv {
  pi_hash  : edges_hashed (p_env st);
  pi_live  : live_have_uses g st;
  pi_edges : edges_explained g block env0 st
}.

Lemma pressure_live_end_inv (g : ir_graph) (block : Z) (env0 : env_t)
      (st : pressure_st) (irn : Z) :
  borders_inv g block env0 st → borders_inv g block env0 (pressure_live_end g st irn).
Proof.
  intros [Hh Hl He]. unfold pressure_live_end.
  destruct (has_reg_class g irn) eqn:Hcls.
  - split.
    + exact Hh.
    + intros x Hx Hlive. simpl in *. destruct (decide (x = irn)) as [->|Hne].
      * by apply last_is_use_new.
      * apply last_is_use_other; [done|]. apply Hl; [done|].
        apply bitset_set_spec in Hlive as [[-> _]|H]; done.
    + intros e Hin. destruct (He e Hin) as [H|(nr & x & -> & H)]; [by left|right].
      exists nr, x. split; [done|]. by apply interferes_at_app.
  - split.
    + exact Hh.
    + intros x Hx Hlive. simpl in *. apply Hl; [done|].
      apply bitset_set_spec in Hlive as [[-> _]|H]; [congruence|done].
    + exact He.
Qed.

Lemma pressure_use_pinv (g : ir_graph) (block : Z) (env0 : env_t)
      (st : pressure_st) (op : Z) :
  borders_inv g block env0 st → borders_inv g block env0 (pressure_use g st op).
Proof.
  intros [Hh Hl He]. unfold pressure_use.
  destruct (has_reg_class g op) eqn:Hcls; [|done].
  destruct (negb (bitset_is_set (live (p_env st)) op)); [|done].
  split.
  - exact Hh.
  - intros x Hx Hlive. simpl in *. destruct (decide (x = op)) as [->|Hne].
    + by apply last_is_use_new.
    + apply last_is_use_other; [done|]. apply Hl; [done|].
      apply bitset_set_spec in Hlive as [[-> _]|H]; done.
  - intros e Hin. destruct (He e Hin) as [H|(nr & x & -> & H)]; [by left|right].
    exists nr, x. split; [done|]. by apply interferes_at_app.
Qed.

Lemma pressure_uses_pinv (g : ir_graph) (block : Z) (env0 : env_t)
      (ops : list Z) (st : pressure_st) :
  borders_inv g block env0 st → borders_inv g block env0 (foldl (pressure_use g) st ops).
Proof.
  revert st. induction ops as [|op ops IH]; intros st H; simpl; [done|].
  by apply IH, pressure_use_pinv.
Qed.

Lemma add_if_fold_edges (env : env_t) (nr : Z) (l : list Z) :
  edges_hashed env →
  edges_hashed (foldl (fun env elm => add_if env nr elm) env l)
  ∧ ∀ e, e ∈ (edges (foldl (fun env elm => add_if env nr elm) env l)).*2 →
         e ∈ (edges env).*2 ∨ ∃ elm, elm ∈ l ∧ e = edge_init nr elm.
Proof.
  revert env. induction l as [|x l IH]; intros env Hh; simpl.
  - split; [done|]. by left.
  - assert (Hh' : edges_hashed (add_if env nr x)).
    { unfold edges_hashed. rewrite edges_add_if. by apply set_insert_hash. }
    destruct (IH _ Hh') as [H1 H2]. split; [done|].
    intros e He. destruct (H2 e He) as [H|(elm & Helm & ->)].
    + rewrite edges_add_if in H. apply (set_insert_elem _ _ _ Hh) in H as [H| ->]; [by left|].
      right. exists x. split; [set_solver|done].
    + right. exists elm. split; [set_solver|done].
Qed.

Lemma pressure_insn_pinv (g : ir_graph) (block : Z) (env0 : env_t)
      (st : pressure_st) (irn : Z) :
  irn ∈ sched g block →
  borders_inv g block env0 st → borders_inv g block env0 (pressure_insn g st irn).
Proof.
  intros Hsched Hinv. unfold pressure_insn.
  set (st1 := erase_color st irn).
  assert (H1 : borders_inv g block env0 st1) by (by destruct Hinv).
  clearbody st1. clear Hinv.
  match goal with
  | |- context [incr_step (if _ then foldl _ ?s _ else ?s)] =>
      assert (Hs : borders_inv g block env0 s)
  end.
  { destruct (has_reg_class g irn) eqn:Hcls; [|exact H1].
    destruct H1 as [Hh Hl He].
    set (live' := bitset_clear (live (p_env st1)) irn).
    set (head' := border_add (p_head st1) irn (p_step st1) (p_pressure st1) true true).
    match goal with |- borders_inv _ _ _ (with_env ?s (foldl _ ?e ?l)) =>
      destruct (add_if_fold_edges e irn l) as [Hh2 He2]; [exact Hh|] end.
    split.
    - exact Hh2.
    - intros x Hx Hlive.
      assert (Hlive' : bitset_is_set live' x = true).
      { revert Hlive. simpl.
        match goal with |- context [foldl ?f ?e ?l] =>
          assert (Hlv : ∀ l' e', live (foldl f e' l') = live e') end.
        { induction l' as [|y l' IH]; intros e'; simpl; [done|]. by rewrite IH. }
        by rewrite Hlv. }
      apply bitset_clear_spec in Hlive' as [Hlv Hne].
      simpl. apply last_is_use_other; [done|]. by apply Hl.
    - intros e Hin. simpl in Hin. destruct (He2 e Hin) as [H|(elm & Helm & ->)].
      + destruct (He e H) as [H'|(nr & x & -> & H')]; [by left|right].
        exists nr, x. split; [done|]. by apply interferes_at_app.
      + right. exists irn, elm. split; [done|].
        exists (p_head st1), (mk_border irn (p_step st1) (p_pressure st1) true true), [].
        simpl in Helm.
        pose proof (bitset_foreach_not_cleared _ _ _ Helm) as Hne.
        apply bitset_foreach_is_set in Helm.
        apply bitset_clear_spec in Helm as [Hlv _].
        split_and!; try done. intros Hx. by apply Hl. }
  match type of Hs with borders_inv _ _ _ ?s => set (s2 := s) in * end.
  clearbody s2.
  assert (Hu : borders_inv g block env0
                 (if negb (is_Phi g irn)
                  then foldl (pressure_use g) s2 (get_irn_ins g irn) else s2)).
  { destruct (negb (is_Phi g irn)); [|exact Hs]. apply pressure_uses_pinv. exact Hs. }
  destruct Hu as [Hh Hl He]. split; [exact Hh|exact Hl|exact He].
Qed.

Lemma pressure_insns_pinv (g : ir_graph) (block : Z) (env0 : env_t)
      (l : list Z) (st : pressure_st) :
  (∀ irn, irn ∈ l → irn ∈ sched g block) →
  borders_inv g block env0 st → borders_inv g block env0 (foldl (pressure_insn g) st l).
Proof.
  revert st. induction l as [|x l IH]; intros st Hl H; simpl; [done|].
  apply IH; [set_solver|]. apply pressure_insn_pinv; [set_solver|done].
Qed.

Lemma pressure_live_ins_explained (g : ir_graph) (block : Z) (env0 : env_t)
      (l : list Z) (st : pressure_st) :
  edges_hashed (p_env st) ∧ edges_explained g block env0 st →
  edges_hashed (p_env (foldl (pressure_live_in g) st l))
  ∧ edges_explained g block env0 (foldl (pressure_live_in g) st l).
Proof.
  revert st. induction l as [|x l IH]; intros st [Hh He]; simpl; [done|].
  apply IH. unfold pressure_live_in. destruct (has_reg_class g x); [|done].
  split; [exact Hh|].
  intros e Hin. destruct (He e Hin) as [H|(nr & y & -> & H)]; [by left|right].
  exists nr, y. split; [done|]. by apply interferes_at_app.
Qed.

Lemma pressure_explained (g : ir_graph) (block : Z) (env : env_t) (color : gmap Z Z) :
  edges_hashed env →
  edges_hashed (pressure g block env color).1.1
  ∧ ∀ e, e ∈ (edges (pressure g block env color).1.1).*2 →
      e ∈ (edges env).*2
      ∨ ∃ nr x, e = edge_init nr x
                ∧ interferes_at g block (pressure g block env color).2 nr x.
Proof.
  intros Hh. unfold pressure. simpl.
  apply (pressure_live_ins_explained g block env).
  assert (Hinv : ∀ st, borders_inv g block env st →
            edges_hashed (p_env st) ∧ edges_explained g block env st).
  { by intros st [? ? ?]. }
  apply Hinv. apply pressure_insns_pinv.
  { intros irn Hin. apply list_elem_of_In, in_rev in Hin. by apply list_elem_of_In. }
  assert (Hend : ∀ l st, borders_inv g block env st →
            borders_inv g block env (foldl (pressure_live_end g) st l)).
  { induction l as [|x l IH]; intros st H; simpl; [done|].
    by apply IH, pressure_live_end_inv. }
  assert (Hstep : ∀ st, borders_inv g block env st → borders_inv g block env (incr_step st)).
  { intros st [? ? ?]. by split. }
  apply Hstep, Hend. split.
  - exact Hh.
  - intros x _. unfold bitset_is_set. simpl. by rewrite Z.bits_0.
  - intros e He. by left.
Qed.

Lemma last_filter_split {A} (P : A → Prop) `{∀ x, Decision (P x)} (l : list A) (u : A) :
  last (filter P l) = Some u →
  ∃ l1 l2, l = l1 ++ u :: l2 ∧ P u ∧ ∀ x, x ∈ l2 → ¬ P x.
Proof.
  induction l as [|y l IH] using rev_ind; [done|].
  rewrite filter_app. destruct (decide (P y)) as [Hy|Hy].
  - rewrite filter_cons_True, filter_nil, last_snoc by done. intros [= ->].
    exists l, []. split; [done|]. split; [done|]. intros x Hx. by apply elem_of_nil in Hx.
  - rewrite filter_cons_False, filter_nil, app_nil_r by done. intros Hl.
    destruct (IH Hl) as (l1 & l2 & -> & Hu & Hl2).
    exists l1, (l2 ++ [y]). rewrite <- app_assoc. split; [done|]. split; [done|].
    intros x [Hx| ->%list_elem_of_singleton]%elem_of_app; [by apply Hl2|done].
Qed.

(** What the border list shows, [assign] respects. *)
Lemma assign_respects_borders (g : ir_graph) (block : Z) (head : list border_t)
      (st st' : assign_st) (nr x : Z) :
  live_in_colored g block (a_regs st) →
  is_live_in g block nr = false →
  has_reg_class g x = true →
  interferes_at g block head nr x →
  assign g head block st = inr st' →
  ∃ c cx, a_regs st' !! nr = Some c ∧ a_regs st' !! x = Some cx ∧ c ≠ cx.
Proof.
  intros Hlic Hli Hx (h1 & d & h2 & -> & Hd & Hdef & _ & _ & Hne & Huse).
  destruct (Huse Hx) as (u & Hlast & Hu).
  apply last_filter_split in Hlast as (h1a & h1b & -> & Hux & Hh1b).
  unfold assign.
  destruct (foreach (assign_live_in g) _ (live_in g block)) as [e|s0] eqn:H0;
    simpl; [done|].
  destruct (assign_start_apart g block st s0 Hlic H0) as (Hca0 & _).
  rewrite rev_app_distr. simpl. rewrite rev_app_distr. simpl.
  rewrite <- !app_assoc. simpl.
  rewrite foreach_app.
  destruct (foreach (assign_border g block) s0 (rev h2)) as [e|s1] eqn:H1; simpl; [done|].
  destruct (assign_border g block s1 d) as [e|s2] eqn:H2; simpl; [done|].
  rewrite foreach_app.
  destruct (foreach (assign_border g block) s2 (rev h1b)) as [e|s3] eqn:H3; simpl; [done|].
  destruct (assign_border g block s3 u) as [e|s4] eqn:H4; simpl; [done|].
  intros H5.
  destruct (assign_borders_apart g block _ s0 s1 Hca0 H1) as (Hca1 & _).
  destruct (assign_border_apart g block s1 s2 d Hca1 H2)
    as (Hca2 & _ & _ & Hk2 & Hcol & _).
  destruct (assign_borders_apart g block _ s2 s3 Hca2 H3) as (Hca3 & _ & Hr3 & Hk3).
  destruct (assign_border_apart g block s3 s4 u Hca3 H4)
    as (Hca4 & _ & Hr4 & _ & _ & Hlx).
  destruct (assign_borders_apart g block _ s4 st' Hca4 H5) as (_ & _ & Hr5 & _).
  rewrite Hd in *. rewrite Hux in *.
  destruct (Hcol Hdef Hli) as (col & Hc & _ & Hfree).
  specialize (Hlx Hu).
  destruct (Hk3 x) as [Hl3 He3].
  { intros b Hb Hbx. apply list_elem_of_In, in_rev, list_elem_of_In in Hb.
    by apply (Hh1b b). }
  destruct (Hk2 x Hne) as [Hl2 He2].
  assert (Hl1 : is_live s1 x) by (by apply Hl2, Hl3).
  destruct (ca_reg _ Hca1 x Hl1) as (cx & Hcx & _).
  exists col, cx. split_and!.
  - by apply Hr5, Hr4, Hr3.
  - apply Hr5, Hr4. by rewrite He3, He2.
  - intros ->. by apply (Hfree x).
Qed.



End AllocFacts.

(** ** The fixpoint loops of GVN-PRE *)

Module GvnPreLoops.
Import GvnPre.

Section Loops.
Context {S : Type} (W : walks S).

(** Both loops have the shape
    [do { ++iter; pass } while (changes != 0 && iter < cap)]. *)
Fixpoint capped_loop (pass : pre_env S → pre_env S) (cap : Z)
         (fuel : nat) (iter : Z) (env : pre_env S) : option (Z * pre_env S) :=
  match fuel with
  | O => None
  | Datatypes.S fuel' =>
      let iter := iter + 1 in
      let env := pass env in
      if negb (changes env =? 0) && (iter <? cap)
      then capped_loop pass cap fuel' iter env
      else Some (iter, env)
  end.

Lemma antic_loop_capped (fuel : nat) (i : Z) (env : pre_env S) :
  antic_loop W fuel i env = capped_loop (antic_pass W) MAX_ANTIC_ITER fuel i env.
Proof.
  revert i env. induction fuel as [|fuel IH]; intros i env; simpl; [done|].
  by rewrite IH.
Qed.

Lemma insert_loop_capped (fuel : nat) (i : Z) (env : pre_env S) :
  insert_loop W fuel i env = capped_loop (insert_pass W) MAX_INSERT_ITER fuel i env.
Proof.
  revert i env. induction fuel as [|fuel IH]; intros i env; simpl; [done|].
  by rewrite IH.
Qed.

(** The environment after [k] rounds. *)
Definition rounds (pass : pre_env S → pre_env S) (k : Z) (env : pre_env S) : pre_env S :=
  Nat.iter (Z.to_nat k) pass env.

Lemma rounds_succ (pass : pre_env S → pre_env S) (k : Z) (env : pre_env S) :
  0 ≤ k → rounds pass (k + 1) env = rounds pass k (pass env).
Proof.
  intros Hk. unfold rounds.
  replace (Z.to_nat (k + 1)) with (Datatypes.S (Z.to_nat k)) by lia.
  apply Nat.iter_succ_r.
Qed.

(** What a capped loop does when it has fuel for the rounds left: it
    returns after [n] rounds in all, [n] is at most the cap, the
    round that ended it left [changes] at 0 unless it was round
    number [cap], and every round before it set [changes]. *)
Lemma capped_loop_spec (pass : pre_env S → pre_env S) (cap : Z) (fuel : nat)
      (i : Z) (env : pre_env S) :
  i < cap → cap - i ≤ Z.of_nat fuel →
  ∃ n, capped_loop pass cap fuel i env = Some (n, rounds pass (n - i) env)
       ∧ i < n ≤ cap
       ∧ (changes (rounds pass (n - i) env) = 0 ∨ n = cap)
       ∧ (∀ k, i < k < n → changes (rounds pass (k - i) env) ≠ 0).
Proof.
  revert i env. induction fuel as [|fuel IH]; intros i env Hi Hf; [lia|].
  simpl.
  destruct (Z.eqb_spec (changes (pass env)) 0) as [H0|H0]; simpl.
  - exists (i + 1). replace (i + 1 - i) with 1 by lia.
    split; [done|]. split; [lia|]. split; [by left|lia].
  - destruct (Z.ltb_spec (i + 1) cap) as [Hlt|Hge].
    + destruct (IH (i + 1) (pass env)) as (n & Hn & Hr & Hc & Hb); [lia|lia|].
      exists n. replace (n - i) with (n - (i + 1) + 1) by lia.
      rewrite rounds_succ by lia.
      split; [done|]. split; [lia|]. split; [done|].
      intros k Hk. destruct (decide (k = i + 1)) as [->|Hne].
      * by replace (i + 1 - i) with 1 by lia.
      * replace (k - i) with (k - (i + 1) + 1) by lia.
        rewrite rounds_succ by lia. apply Hb. lia.
    + exists (i + 1). replace (i + 1 - i) with 1 by lia.
      split; [done|]. split; [lia|]. split; [right; lia|lia].
Qed.

Lemma capped_loop_fuel (pass : pre_env S → pre_env S) (cap : Z) (fuel fuel' : nat)
      (i : Z) (env : pre_env S) :
  i < cap → cap - i ≤ Z.of_nat fuel → cap - i ≤ Z.of_nat fuel' →
  capped_loop pass cap fuel i env = capped_loop pass cap fuel' i env.
Proof.
  revert fuel' i env. induction fuel as [|fuel IH]; intros fuel' i env Hi Hf Hf'; [lia|].
  destruct fuel' as [|fuel']; [lia|]. simpl.
  destruct (negb (changes (pass env) =? 0)); simpl; [|done].
  destruct (Z.ltb_spec (i + 1) cap); [|done]. apply IH; lia.
Qed.

(** The environment that enters the insert loop, from the one that the
    antic_in loop left. *)
Definition before_insert (env : pre_env S) : pre_env S :=
  set_first_iter 1 (init_keeps W env).

(** The environment that enters the antic_in loop. *)
Definition before_antic (env : pre_env S) : pre_env S :=
  set_iteration 1 (set_first_iter 1
    (compute_avail_walk W (topo_walk W (block_info_walk W env)))).

End Loops.

End GvnPreLoops.

(** ** Value numbering and redundancy in GVN-PRE *)

Module GvnPreFacts.
Import GvnPre.

(** *** The comparison of the value table *)

Section Compare.
Context (F : firm) (g : list ir_node).

(** Two input arrays agree when at each position the inputs are the same
    node or both are neutral for CSE. *)
Definition inputs_agree (ins_a ins_b : list nat) : Prop :=
  Forall2 (fun pred_a pred_b =>
             pred_a = pred_b
             ∨ (is_irn_cse_neutral F g pred_a = true ∧ is_irn_cse_neutral F g pred_b = true))
          ins_a ins_b.

(** The attributes agree when the op has no attribute comparison or its
    comparison returns 0. *)
Definition attrs_agree (a b : nat) : Prop :=
  match node_cmp_attr (op_table F (get_irn_op g a)) with
  | Some cmp => cmp (irn_attr (g !!! a)) (irn_attr (g !!! b)) = 0
  | None => True
  end.

Lemma ins_differ_false (ins_a ins_b : list nat) :
  length ins_a = length ins_b →
  ins_differ F g ins_a ins_b = false ↔ inputs_agree ins_a ins_b.
Proof.
  revert ins_b. induction ins_a as [|pa ins_a IH]; intros [|pb ins_b] Hlen;
    simpl in *; try discriminate.
  - split; [constructor|done].
  - injection Hlen as Hlen. specialize (IH ins_b Hlen).
    unfold inputs_agree in *. rewrite Forall2_cons_iff.
    case_bool_decide as Hp; simpl.
    + rewrite IH. naive_solver.
    + destruct (is_irn_cse_neutral F g pa), (is_irn_cse_neutral F g pb); simpl;
        try (split; [discriminate | intros [[?|[??]] _]; congruence]).
      rewrite IH. naive_solver.
Qed.

End Compare.

(** *** The summary of the loop of [is_partially_redundant] *)

(** The four variables of the loop. *)
Record summary := mk_sum {
  s_first     : option nat;
  s_fully     : Z;
  s_partially : Z;
  s_mode      : option ir_mode
}.

Definition summary_of (r : redundancy) : summary :=
  mk_sum (r_first_avail r) (r_fully_redundant r) (r_partially_redundant r) (r_mode r).

(** One round of the loop, for a predecessor in which the expression is
    available as [a] ([None]: not available). *)
Definition summary_step (g : list ir_node) (s : summary) (a : option nat) : summary :=
  match a with
  | None => mk_sum (s_first s) 0 (s_partially s) (s_mode s)
  | Some e =>
      match s_first s with
      | None => mk_sum (Some e) (s_fully s) 1 (Some (get_irn_mode g e))
      | Some first =>
          mk_sum (Some first) (if bool_decide (first = e) then s_fully s else 0)
                 1 (Some (get_irn_mode g e))
      end
  end.

Definition summary_init : summary := mk_sum None 1 0 None.

Record summary_inv (avs : list (option nat)) (s : summary) : Prop := mk_sum_inv {
  inv_partially : s_partially s ≠ 0 ↔ ∃ e, Some e ∈ avs;
  inv_fully     : s_fully s ≠ 0 ↔ ∀ x, x ∈ avs → is_Some x ∧ x = s_first s;
  inv_first     : s_first s = None ↔ ∀ x, x ∈ avs → x = None;
  inv_first_in  : ∀ f, s_first s = Some f → Some f ∈ avs;
  inv_mode      : s_partially s ≠ 0 → is_Some (s_mode s)
}.

Lemma summary_inv_init : summary_inv [] summary_init.
Proof.
  split; simpl.
  - split; [done|]. intros [e He]. by apply elem_of_nil in He.
  - split; [|done]. intros _ x Hx. by apply elem_of_nil in Hx.
  - split; [|done]. intros _ x Hx. by apply elem_of_nil in Hx.
  - done.
  - done.
Qed.

Lemma summary_inv_step (g : list ir_node) (avs : list (option nat)) (s : summary)
      (a : option nat) :
  summary_inv avs s → summary_inv (avs ++ [a]) (summary_step g s a).
Proof.
  intros [Hp Hf H1 Hin Hm]. unfold summary_step.
  destruct a as [e|]; [destruct (s_first s) as [first|] eqn:Hfirst|]; simpl.
  - (* available, not the first *)
    split; simpl.
    + split; [|intros _; lia]. intros _. exists e. set_solver.
    + case_bool_decide as He.
      * subst e. rewrite Hf. split.
        -- intros H x [Hx|Hx%list_elem_of_singleton]%elem_of_app; [by apply H|].
           subst. split; [by eexists|done].
        -- intros H x Hx. apply H. set_solver.
      * split; [done|]. intros H.
        destruct (H (Some e)) as [_ Heq]; [set_solver|]. congruence.
    + split; [done|]. intros H. specialize (Hin first eq_refl).
      assert (Some first = None); [|done]. apply H. set_solver.
    + intros f [= <-]. specialize (Hin first eq_refl). set_solver.
    + by eexists.
  - (* the first available *)
    split; simpl.
    + split; [|intros _; lia]. intros _. exists e. set_solver.
    + rewrite Hf. split.
      * intros H x [Hx|Hx%list_elem_of_singleton]%elem_of_app.
        -- destruct (H x Hx) as [[y ->] Hy]. done.
        -- subst. split; [by eexists|done].
      * intros H x Hx. destruct (H x) as [[y Hy] Hxe]; [set_solver|].
        assert (x = None) by (by apply H1). congruence.
    + split; [done|]. intros H. assert (Some e = None); [|done]. apply H. set_solver.
    + intros f [= <-]. set_solver.
    + by eexists.
  - (* not available *)
    split; simpl.
    + rewrite Hp. split.
      * intros [e He]. exists e. set_solver.
      * intros [e [He|He%list_elem_of_singleton]%elem_of_app]; [by exists e|done].
    + split; [done|]. intros H. destruct (H None) as [[y Hy] _]; [set_solver|done].
    + rewrite H1. split.
      * intros H x [Hx|Hx%list_elem_of_singleton]%elem_of_app; [by apply H|done].
      * intros H x Hx. apply H. set_solver.
    + intros f Hfi. specialize (Hin f Hfi). set_solver.
    + done.
Qed.

Lemma summary_inv_fold (g : list ir_node) (seen avs : list (option nat)) (s : summary) :
  summary_inv seen s → summary_inv (seen ++ avs) (foldl (summary_step g) s avs).
Proof.
  revert seen s. induction avs as [|a avs IH]; intros seen s Hs; simpl.
  - by rewrite app_nil_r.
  - replace (seen ++ a :: avs) with ((seen ++ [a]) ++ avs) by by rewrite <- app_assoc.
    apply IH. by apply summary_inv_step.
Qed.

(** The mode returned for a summary. *)
Definition summary_result (s : summary) : option ir_mode :=
  if negb (bool_decide (s_partially s ≠ 0)) || bool_decide (s_fully s ≠ 0)
  then None else s_mode s.

Lemma summary_result_iff (avs : list (option nat)) (s : summary) :
  summary_inv avs s →
  summary_result s ≠ None ↔
  (∃ e, Some e ∈ avs) ∧ ¬ (∃ e, ∀ x, x ∈ avs → x = Some e).
Proof.
  intros [Hp Hf H1 Hin Hm]. unfold summary_result.
  case_bool_decide as Hpart; simpl.
  - case_bool_decide as Hfull.
    + split; [done|]. intros [[e He] Hne]. exfalso. apply Hne.
      pose proof (proj1 Hf Hfull) as Hall. destruct (Hall _ He) as [_ Hfirst].
      exists e. intros x Hx. destruct (Hall x Hx) as [_ ->]. done.
    + split.
      * intros _. split; [exact (proj1 Hp Hpart)|]. intros [e He].
        assert (Hne : s_fully s ≠ 0); [|done]. apply (proj2 Hf).
        intros x Hx. split; [rewrite (He x Hx); by eexists|].
        destruct (s_first s) as [f|] eqn:Hfirst.
        -- rewrite (He x Hx). rewrite (He _ (Hin f eq_refl)). done.
        -- exfalso. destruct (proj1 Hp Hpart) as [e' He'].
           assert (Some e' = None); [|done]. by apply H1.
      * intros _. destruct (Hm Hpart) as [m ->]. done.
  - split; [done|]. intros [He _]. by apply (proj2 Hp) in He.
Qed.

(** *** The loop of [is_partially_redundant] and its summary *)

Section Redundancy.
Context (F : firm) (st : gvn_state) (infos : block_infos) (expr : nat).

(** The translation of [expr] into the predecessor block [P]. *)
Definition translation (P : nat) : option nat :=
  get_translated F (graph st) infos P expr.

(** The value number of a node that has been remembered. *)
Definition value_of (n : nat) : option nat := value_map st !! n.

(** What the claim speaks of: the result of looking up the value of the
    translated expression in [avail_out] of the predecessor. *)
Definition avail_lookup (P : nat) : option nat :=
  info ← infos !! P; t ← translation P; v ← value_of t;
  ir_valueset_lookup (avail_out info) v.

(** What the code takes as the available expression. *)
Definition avail_expr_of (P : nat) : option nat :=
  info ← infos !! P; t ← translation P; v ← value_of t;
  if is_Const (graph st) t then Some t else ir_valueset_lookup (avail_out info) v.

(** The state in which the insertion phase calls the function. *)
Definition translated_and_numbered (P : nat) : Prop :=
  is_Some (infos !! P) ∧ is_Some (translation P ≫= value_of).

Definition translation_keeps_op (P : nat) : Prop :=
  get_irn_op (graph st) <$> translation P = Some (get_irn_op (graph st) expr).

Definition const_not_in_avail_out (P : nat) : Prop :=
  (info ← infos !! P; v ← value_of expr; ir_valueset_lookup (avail_out info) v) = None.

(** Block infos that differ at most in [avail] and [found]. *)
Definition infos_agree (infos' : block_infos) : Prop :=
  ∀ P, avail_out <$> infos' !! P = avail_out <$> infos !! P
       ∧ trans <$> infos' !! P = trans <$> infos !! P.

Lemma infos_agree_refl : infos_agree infos.
Proof. by intros P. Qed.

Lemma infos_agree_insert (infos' : block_infos) (P : nat) (info : block_info)
      (a : option nat) (f : Z) :
  infos_agree infos' → infos' !! P = Some info →
  infos_agree (<[P := set_avail_found info a f]> infos').
Proof.
  intros Hag HP Q. destruct (decide (P = Q)) as [<-|Hne].
  - rewrite lookup_insert_eq. simpl. destruct (Hag P) as [H1 H2].
    rewrite HP in H1, H2. done.
  - rewrite lookup_insert_ne by done. apply Hag.
Qed.

Lemma get_translated_agree (infos' : block_infos) (P : nat) :
  infos_agree infos' →
  get_translated F (graph st) infos' P expr = translation P.
Proof.
  intros Hag. unfold translation, get_translated.
  destruct (is_irn_constlike F (graph st) expr); [done|].
  destruct (Hag P) as [_ H2].
  destruct (infos' !! P) as [i'|], (infos !! P) as [i|]; simpl in *; congruence.
Qed.

Lemma identify_numbered (t v : nat) :
  value_of t = Some v → identify F st t = (st, v).
Proof. unfold value_of, identify. by intros ->. Qed.

(** One round of the loop is one step of the summary. *)
Lemma redundancy_pred_summary (r : redundancy) (P : nat) :
  r_state r = st → infos_agree (r_infos r) → translated_and_numbered P →
  ∃ r', redundancy_pred F expr r P = Some r'
        ∧ r_state r' = st ∧ infos_agree (r_infos r')
        ∧ summary_of r' = summary_step (graph st) (summary_of r) (avail_expr_of P).
Proof.
  intros Hst Hag [[info Hinfo] Htv].
  destruct (translation P) as [t|] eqn:Ht; [|by destruct Htv].
  simpl in Htv. destruct Htv as [v Hv].
  destruct (Hag P) as [Ha Htr]. rewrite Hinfo in Ha, Htr.
  destruct (r_infos r !! P) as [info'|] eqn:Hinfo'; [|done].
  simpl in Ha, Htr. injection Ha as Ha.
  unfold redundancy_pred. rewrite Hinfo'. simpl.
  rewrite Hst, (get_translated_agree _ _ Hag), Ht. simpl.
  rewrite (identify_numbered t v Hv).
  unfold avail_expr_of. rewrite Hinfo, Ht. simpl. rewrite Hv. simpl. rewrite Ha.
  destruct (is_Const (graph st) t) eqn:Hc; simpl.
  - (* a constant is taken as available *)
    destruct r as [rs ri [first|] fu pa mo]; simpl in *.
    + unfold summary_of, summary_step; simpl.
      case_bool_decide; simpl; eexists; (split; [reflexivity|]); simpl;
        (split; [done|]); (split; [by apply infos_agree_insert|done]).
    + eexists. split; [reflexivity|]. simpl.
      split; [done|]. split; [by apply infos_agree_insert|done].
  - rewrite andb_false_r.
    destruct (ir_valueset_lookup (avail_out info) v) as [e|] eqn:Hl.
    + destruct r as [rs ri [first|] fu pa mo]; simpl in *.
      * unfold summary_of, summary_step; simpl.
        case_bool_decide; simpl; eexists; (split; [reflexivity|]); simpl;
          (split; [done|]); (split; [by apply infos_agree_insert|done]).
      * eexists. split; [reflexivity|]. simpl.
        split; [done|]. split; [by apply infos_agree_insert|done].
    + eexists. split; [reflexivity|]. simpl.
      split; [done|]. split; [by apply infos_agree_insert|done].
Qed.

Lemma redundancy_loop_summary (preds : list nat) (r : redundancy) :
  r_state r = st → infos_agree (r_infos r) → Forall translated_and_numbered preds →
  ∃ r', redundancy_loop F expr r preds = Some r'
        ∧ r_state r' = st ∧ infos_agree (r_infos r')
        ∧ summary_of r'
          = foldl (summary_step (graph st)) (summary_of r) (avail_expr_of <$> preds).
Proof.
  revert r. induction preds as [|P preds IH]; intros r Hst Hag Hall; simpl.
  - by exists r.
  - apply Forall_cons in Hall as [HP Hall].
    destruct (redundancy_pred_summary r P Hst Hag HP) as (r1 & -> & Hst1 & Hag1 & Hs1).
    simpl. destruct (IH r1 Hst1 Hag1 Hall) as (r' & -> & Hst' & Hag' & Hs').
    exists r'. by rewrite Hs', Hs1.
Qed.
End Redundancy.

Lemma is_partially_redundant_summary
    (F : firm) (st : gvn_state) (infos : block_infos) (block expr value : nat) :
  Forall (translated_and_numbered F st infos expr) (cfgpred_blocks (graph st) block) →
  ∃ infos',
    is_partially_redundant F st infos block expr value
    = Some (st, infos',
            summary_result (foldl (summary_step (graph st)) summary_init
                                  (avail_expr_of F st infos expr
                                     <$> cfgpred_blocks (graph st) block))).
Proof.
  intros Hall. unfold is_partially_redundant.
  destruct (redundancy_loop_summary F st infos expr (cfgpred_blocks (graph st) block)
              (mk_red st infos None 1 0 None) eq_refl (infos_agree_refl infos) Hall)
    as (r' & -> & Hst & _ & Hsum).
  simpl. exists (r_infos r'). rewrite Hst. do 2 f_equal.
  unfold summary_init.
  change (mk_sum None 1 0 None) with (summary_of (mk_red st infos None 1 0 None)).
  rewrite <- Hsum. reflexivity.
Qed.

(** C2.  In the state in which the insertion phase calls it (every
    predecessor of the block has its block info and a translation of the
    expression whose value is numbered; phi translation kept the opcode of
    the expression, which is not a Phi; constants are not entered in
    [avail_out]), [is_partially_redundant] returns a mode, and not NULL,
    exactly when the lookup of the value of the translated expression in
    [avail_out] of the predecessor succeeds for at least one predecessor
    and does not yield one and the same expression in all of them. *)
Theorem is_partially_redundant_iff
    (F : firm) (st : gvn_state) (infos : block_infos) (block expr value : nat) :
  let preds := cfgpred_blocks (graph st) block in
  constlike (op_table F iro_Const) = true →
  Forall (translated_and_numbered F st infos expr) preds →
  Forall (translation_keeps_op F st infos expr) preds →
  (is_Const (graph st) expr = true → Forall (const_not_in_avail_out st infos expr) preds) →
  ∃ infos' res,
    is_partially_redundant F st infos block expr value = Some (st, infos', res)
    ∧ (res ≠ None ↔
       (∃ P, P ∈ preds ∧ is_Some (avail_lookup F st infos expr P))
       ∧ ¬ (∃ e, ∀ P, P ∈ preds → avail_lookup F st infos expr P = Some e)).
Proof.
  intros preds Hcl Hok Hop Hconst.
  destruct (is_partially_redundant_summary F st infos block expr value Hok)
    as [infos' Hrun].
  eexists infos', _. split; [exact Hrun|]. fold preds.
  rewrite (summary_result_iff (avail_expr_of F st infos expr <$> preds));
    [|apply (summary_inv_fold (graph st) []), summary_inv_init].
  destruct (is_Const (graph st) expr) eqn:Hc.
  - (* the expression is a constant: it is its own translation, taken as
       available in every predecessor, and never found by a lookup *)
    specialize (Hconst eq_refl).
    assert (Hcl' : is_irn_constlike F (graph st) expr = true).
    { unfold is_irn_constlike. unfold is_Const in Hc.
      apply bool_decide_eq_true in Hc. by rewrite Hc. }
    assert (Htr : ∀ P, translation F st infos expr P = Some expr).
    { intros P. unfold translation, get_translated. by rewrite Hcl'. }
    assert (Hav : ∀ P, P ∈ preds → avail_expr_of F st infos expr P = Some expr
                                   ∧ avail_lookup F st infos expr P = None).
    { intros P HP.
      destruct (proj1 (Forall_forall _ _) Hok P HP) as [[info Hinfo] Hv].
      pose proof (proj1 (Forall_forall _ _) Hconst P HP) as Hnone.
      unfold const_not_in_avail_out in Hnone.
      unfold avail_expr_of, avail_lookup. rewrite Hinfo, Htr in *. simpl in *.
      destruct Hv as [v Hv]. unfold value_of in *. rewrite Hv in *. simpl in *.
      by rewrite Hc. }
    split.
    + intros [_ Hne]. exfalso. apply Hne. exists expr.
      intros x [P [-> HP]]%list_elem_of_fmap. by apply Hav.
    + intros [(P & HP & Hsome) _]. rewrite (proj2 (Hav P HP)) in Hsome.
      by destruct Hsome.
  - (* no translation is a constant: available means found by the lookup *)
    assert (Hav : ∀ P, P ∈ preds →
                  avail_expr_of F st infos expr P = avail_lookup F st infos expr P).
    { intros P HP.
      pose proof (proj1 (Forall_forall _ _) Hop P HP) as Hkeep.
      unfold translation_keeps_op in Hkeep.
      unfold avail_expr_of, avail_lookup.
      destruct (infos !! P) as [info|]; [|done]. simpl.
      destruct (translation F st infos expr P) as [t|]; [|done]. simpl in *.
      injection Hkeep as Hkeep.
      destruct (value_of st t) as [v|]; [|done]. simpl.
      unfold is_Const in *. rewrite Hkeep. by rewrite Hc. }
    split.
    + intros [[e He] Hne]. split.
      * apply list_elem_of_fmap in He as (P & He & HP). exists P. split; [done|].
        rewrite <- (Hav P HP), <- He. by eexists.
      * intros [e' He']. apply Hne. exists e'.
        intros x (P & -> & HP)%list_elem_of_fmap. rewrite (Hav P HP). by apply He'.
    + intros [(P & HP & [e He]) Hne]. split.
      * exists e. apply list_elem_of_fmap. exists P. by rewrite (Hav P HP).
      * intros [e' He']. apply Hne. exists e'. intros Q HQ.
        rewrite <- (Hav Q HQ). apply He'. apply list_elem_of_fmap. by exists Q.
Qed.

(** *** Value numbers *)

(** What [identify_remember] returns: an entry of the value table that
    compares equal with the node, or the node itself, entered now. *)
Lemma identify_remember_value (F : firm) (st st' : gvn_state) (n v : nat) :
  identify_remember F st n = (st', v) →
  (st' = st ∧ (ir_node_hash F (graph st) n, v) ∈ value_table st
   ∧ compare_gvn_identities F (graph st) v n = 0)
  ∨ (v = n ∧ value_table st' = value_table st ++ [(ir_node_hash F (graph st) n, n)]
     ∧ ∀ o, (ir_node_hash F (graph st) n, o) ∈ value_table st →
            compare_gvn_identities F (graph st) o n ≠ 0).
Proof.
  unfold identify_remember.
  destruct (List.find _ (value_table st)) as [[h o]|] eqn:Hf; intros [= <- <-].
  - left. apply find_some in Hf as [Hin Hb]. simpl in *.
    apply andb_true_iff in Hb as [Hh Hc]. apply Z.eqb_eq in Hh, Hc. subst h.
    split; [done|]. split; [by apply list_elem_of_In|done].
  - right. split; [done|]. split; [done|].
    intros o Hin Hc. apply list_elem_of_In in Hin.
    pose proof (find_none _ _ Hf _ Hin) as Hb. simpl in Hb.
    by rewrite Z.eqb_refl, Hc in Hb.
Qed.

(** [remember] enters the value it returns in the value map. *)
Lemma remember_value_map (F : firm) (st : gvn_state) (irn : nat) :
  value_map (remember F st irn).1 !! irn = Some (remember F st irn).2.
Proof.
  unfold remember.
  destruct (foldl _ _ _) as [[st1 ins] changed].
  destruct changed.
  - destruct (new_ir_node _ _) as [st2 nn].
    destruct (identify_remember F st2 nn) as [st3 value]. simpl.
    apply lookup_insert_eq.
  - destruct (identify_remember F st1 irn) as [st3 value]. simpl.
    apply lookup_insert_eq.
Qed.

(** The input that [remember] puts in the place of [pred]: a Phi stands
    for itself, every other node is replaced by its value. *)
Definition value_or_self (st : gvn_state) (pred : nat) : nat :=
  if is_Phi (graph st) pred then pred else default pred (value_map st !! pred).

Lemma remember_pred_step (F : firm) (st : gvn_state) (acc : list nat) (changed : bool)
      (pred : nat) :
  is_Some (value_map st !! pred) →
  remember_pred F (st, acc, changed) pred
  = (st, acc ++ [value_or_self st pred],
     changed || negb (bool_decide (pred = value_or_self st pred))).
Proof.
  intros [v Hv]. unfold remember_pred, identify, value_or_self. rewrite Hv. simpl.
  destruct (is_Phi (graph st) pred); [|done].
  by rewrite bool_decide_eq_true_2, orb_false_r.
Qed.

Lemma remember_pred_numbered (F : firm) (st : gvn_state) (ins acc : list nat) (changed : bool) :
  Forall (fun pred => is_Some (value_map st !! pred)) ins →
  foldl (remember_pred F) (st, acc, changed) ins
  = (st, acc ++ (value_or_self st <$> ins),
     changed || existsb (fun pred => negb (bool_decide (pred = value_or_self st pred))) ins).
Proof.
  revert acc changed. induction ins as [|pred ins IH]; intros acc changed Hall.
  - simpl. by rewrite app_nil_r, orb_false_r.
  - apply Forall_cons in Hall as [Hv Hall].
    cbn [foldl]. rewrite (remember_pred_step F st acc changed pred Hv), IH by done.
    rewrite fmap_cons, <- app_assoc. cbn [existsb app]. by rewrite orb_assoc.
Qed.

(** [remember] on a node whose inputs all have their value: the node with
    the values in the place of the inputs (the node itself when that
    changes nothing) is looked up in the value table, and what it finds
    is the value. *)
Lemma remember_numbered (F : firm) (st : gvn_state) (irn : nat) :
  let n := graph st !!! irn in
  let ins := value_or_self st <$> irn_in n in
  Forall (fun pred => is_Some (value_map st !! pred)) (irn_in n) →
  remember F st irn
  = let '(st1, key) :=
      if existsb (fun pred => negb (bool_decide (pred = value_or_self st pred))) (irn_in n)
      then new_ir_node st (mk_irn (irn_op n) (irn_mode n) ins (irn_attr n) (irn_block n))
      else (st, irn) in
    let '(st2, value) := identify_remember F st1 key in
    (mk_gvn (graph st2) (<[irn := value]> (value_map st2)) (value_table st2), value).
Proof.
  intros n ins Hall. unfold remember. fold n.
  rewrite remember_pred_numbered by done. simpl. fold ins.
  by destruct (existsb _ _).
Qed.

(** Two different nodes of which one is a Phi are never the same value. *)
Lemma compare_gvn_identities_Phi (F : firm) (g : list ir_node) (a b : nat) :
  is_Phi g a = true ∨ is_Phi g b = true →
  compare_gvn_identities F g a b = 0 → a = b.
Proof.
  intros HP. unfold compare_gvn_identities.
  case_bool_decide; [done|].
  destruct (is_Phi g a), (is_Phi g b); simpl; try done.
  by destruct HP.
Qed.

(** *** Example: a diamond *)

Definition attr_cmp (x y : Z) : Z := if x =? y then 0 else 1.

(** An op table: the memory operations, the constants, and the ops whose
    attributes are compared. *)
Definition example_ops (c : ir_opcode) : ir_op :=
  match c with
  | iro_Load | iro_Store | iro_Div | iro_Mod | iro_Call => mk_op true false false None
  | iro_Const | iro_SymConst => mk_op false false true (Some attr_cmp)
  | iro_Proj => mk_op false false false (Some attr_cmp)
  | _ => mk_op false false false None
  end.

(** All nodes hash alike, so that only the comparison tells them apart. *)
Definition example_firm : firm :=
  mk_firm example_ops (fun _ _ => 0)
          (fun lo hi n => (lo <=? irn_attr n) && (irn_attr n <=? hi)).

(** Blocks B0 -> {B1, B2} -> B3.  B3 has two Phis of the same two
    constants; B1 and B3 each add the first Phi and a constant. *)
Definition diamond : list ir_node :=
  [ mk_irn iro_Block mode_BB [] 0 0;          (* 0: B0 *)
    mk_irn iro_Block mode_BB [] 0 1;          (* 1: B1 *)
    mk_irn iro_Block mode_BB [] 0 2;          (* 2: B2 *)
    mk_irn iro_Jmp mode_X [] 0 1;             (* 3: the Jmp of B1 *)
    mk_irn iro_Jmp mode_X [] 0 2;             (* 4: the Jmp of B2 *)
    mk_irn iro_Block mode_BB [3; 4]%nat 0 5;  (* 5: B3 *)
    mk_irn iro_Const mode_Is [] 1 0;          (* 6 *)
    mk_irn iro_Const mode_Is [] 2 0;          (* 7 *)
    mk_irn iro_Phi mode_Is [6; 7]%nat 0 5;    (* 8 *)
    mk_irn iro_Phi mode_Is [6; 7]%nat 0 5;    (* 9 *)
    mk_irn iro_Add mode_Is [8; 6]%nat 0 1;    (* 10: in B1 *)
    mk_irn iro_Add mode_Is [8; 6]%nat 0 5     (* 11: in B3 *)
  ].

(** The state after the value numbering of the walk. *)
Definition numbered : gvn_state :=
  remember_all example_firm (mk_gvn diamond ∅ []) [3; 4; 6; 7; 8; 9; 10; 11]%nat.

(** The two Adds are one value. *)
Example diamond_adds_same_value :
  value_map numbered !! 10%nat = Some 10%nat ∧ value_map numbered !! 11%nat = Some 10%nat.
Proof. vm_compute. done. Qed.

(** What the claim calls coinciding: opcode, mode, attributes, arity and
    the value numbers of the inputs. *)
Definition same_structure (st : gvn_state) (a b : nat) : Prop :=
  get_irn_op (graph st) a = get_irn_op (graph st) b
  ∧ get_irn_mode (graph st) a = get_irn_mode (graph st) b
  ∧ irn_attr (graph st !!! a) = irn_attr (graph st !!! b)
  ∧ get_irn_arity (graph st) a = get_irn_arity (graph st) b
  ∧ Forall2 (fun pred_a pred_b => value_map st !! pred_a = value_map st !! pred_b)
            (irn_in (graph st !!! a)) (irn_in (graph st !!! b)).


(** The block infos of B1 and B2 when B3 is looked at: the Add is available
    in B1 only; it translates to itself. *)
Definition diamond_infos : block_infos :=
  <[1%nat := mk_info [] [(10, 10)]%nat [] [] None {[11%nat := 11%nat]} None 1]>
    (<[2%nat := mk_info [] [] [] [] None {[11%nat := 11%nat]} None 1]> ∅).

Example diamond_partially_redundant :
  (λ r, r.2) <$> is_partially_redundant example_firm numbered diamond_infos 5 11 10
  = Some (Some mode_Is).
Proof. vm_compute. reflexivity. Qed.

(** Available as the same expression in both predecessors: fully
    redundant, NULL.  Available nowhere: NULL as well. *)
Example diamond_fully_redundant :
  (λ r, r.2) <$> is_partially_redundant example_firm numbered
                   (<[2%nat := mk_info [] [(10, 10)]%nat [] [] None {[11%nat := 11%nat]} None 1]>
                      diamond_infos) 5 11 10
  = Some None
  ∧ (λ r, r.2) <$> is_partially_redundant example_firm numbered
                     (<[1%nat := mk_info [] [] [] [] None {[11%nat := 11%nat]} None 1]>
                        diamond_infos) 5 11 10
    = Some None.
Proof. vm_compute. done. Qed.

Lemma is_partially_redundant_iff_witness :
  ∃ infos' res,
    is_partially_redundant example_firm numbered diamond_infos 5 11 10
    = Some (numbered, infos', res)
    ∧ (res ≠ None ↔
       (∃ P, P ∈ cfgpred_blocks (graph numbered) 5
             ∧ is_Some (avail_lookup example_firm numbered diamond_infos 11 P))
       ∧ ¬ (∃ e, ∀ P, P ∈ cfgpred_blocks (graph numbered) 5 →
                      avail_lookup example_firm numbered diamond_infos 11 P = Some e)).
Proof.
  apply (is_partially_redundant_iff example_firm numbered diamond_infos 5 11 10).
  - reflexivity.
  - unfold translated_and_numbered. apply (bool_decide_unpack _). vm_compute. exact I.
  - unfold translation_keeps_op. apply (bool_decide_unpack _). vm_compute. exact I.
  - intros H. vm_compute in H. discriminate H.
Defined.

End GvnPreFacts.

(** ** Values, translations and the value numbering walk *)

Module GvnValueFacts.
Import GvnPre GvnPreFacts GvnTranslate.

(** *** The value of a node *)

(** Nodes that compare equal have the same opcode and mode. *)
Lemma compare_same_op (F : firm) (g : list ir_node) (a b : nat) :
  compare_gvn_identities F g a b = 0 →
  get_irn_op g a = get_irn_op g b ∧ get_irn_mode g a = get_irn_mode g b.
Proof.
  unfold compare_gvn_identities.
  case_bool_decide as Hab; [by subst|].
  destruct (is_Phi g a || is_Phi g b); [done|].
  destruct ((is_memop F g a || is_memop F g b) && _); [done|].
  case_bool_decide as Hop; simpl; [|done].
  case_bool_decide as Hmode; simpl; [|done]. done.
Qed.

Lemma compare_refl (F : firm) (g : list ir_node) (a : nat) :
  compare_gvn_identities F g a a = 0.
Proof. unfold compare_gvn_identities. by rewrite bool_decide_eq_true_2. Qed.

(** [identify] changes nothing but the value table, which it extends by
    at most the node. *)
Lemma identify_state (F : firm) (st st' : gvn_state) (n v : nat) :
  identify F st n = (st', v) →
  graph st' = graph st ∧ value_map st' = value_map st
  ∧ (value_table st' = value_table st
     ∨ value_table st' = value_table st ++ [(ir_node_hash F (graph st) n, n)]).
Proof.
  unfold identify. destruct (value_map st !! n) as [v'|].
  - intros [= <- <-]. split_and!; [done|done|by left].
  - unfold identify_remember.
    destruct (List.find _ _); intros [= <- <-]; simpl.
    + split_and!; [done|done|by left].
    + split_and!; [done|done|by right].
Qed.

(** Where the value comes from: the value map, the value table, or the
    node itself. *)
Lemma identify_value (F : firm) (st st' : gvn_state) (n v : nat) :
  identify F st n = (st', v) →
  value_map st !! n = Some v
  ∨ (∃ h, (h, v) ∈ value_table st ∧ compare_gvn_identities F (graph st) v n = 0)
  ∨ v = n.
Proof.
  unfold identify. destruct (value_map st !! n) as [v'|].
  - intros [= <- <-]. by left.
  - intros H. apply identify_remember_value in H as [(_ & Hin & Hc)|(-> & _)].
    + right. left. by eexists.
    + by right; right.
Qed.

Lemma find_app_first {A} (f : A → bool) (l l' : list A) (x : A) :
  List.find f l = Some x → List.find f (l ++ l') = Some x.
Proof.
  induction l as [|y l IH]; simpl; [done|].
  destruct (f y); [done|]. apply IH.
Qed.

Lemma find_app_last {A} (f : A → bool) (l : list A) (x : A) :
  List.find f l = None → f x = true → List.find f (l ++ [x]) = Some x.
Proof.
  induction l as [|y l IH]; simpl; [by intros _ ->|].
  destruct (f y); [done|]. apply IH.
Qed.

(** A value found once is found again when the value table has grown. *)
Lemma identify_again (F : firm) (st st' s : gvn_state) (n v : nat) (more : list (Z * nat)) :
  identify F st n = (st', v) →
  graph s = graph st → value_map s = value_map st →
  value_table s = value_table st' ++ more →
  identify F s n = (s, v).
Proof.
  unfold identify. intros H Hg Hm Ht. rewrite Hm.
  destruct (value_map st !! n) as [v'|]; [by simplify_eq|].
  unfold identify_remember in *. rewrite Hg, Ht.
  destruct (List.find _ (value_table st)) as [he|] eqn:Hf.
  - injection H as <- <-. by rewrite (find_app_first _ _ _ _ Hf).
  - injection H as <- <-. simpl.
    match goal with |- context [List.find ?f _] =>
      rewrite (find_app_first f _ more (ir_node_hash F (graph st) n, n)) end; [done|].
    apply find_app_last; [done|]. simpl.
    by rewrite Z.eqb_refl, compare_refl.
Qed.

(** The value of a node is stable: while only [identify] is called,
    asking for the value of a node again gives the same value and enters
    nothing more, also with the value of another node asked for in
    between. *)
Theorem identify_stable (F : firm) (st st1 st2 : gvn_state) (a b va vb : nat) :
  identify F st a = (st1, va) →
  identify F st1 b = (st2, vb) →
  identify F st1 a = (st1, va) ∧ identify F st2 a = (st2, va).
Proof.
  intros Ha Hb.
  destruct (identify_state F st st1 a va Ha) as (Hg1 & Hm1 & _).
  destruct (identify_state F st1 st2 b vb Hb) as (Hg2 & Hm2 & Ht2).
  split.
  - apply (identify_again F st st1 st1 a va []); [done|done|done|by rewrite app_nil_r].
  - destruct Ht2 as [Ht2|Ht2].
    + apply (identify_again F st st1 st2 a va []); [done|congruence|congruence|].
      by rewrite app_nil_r.
    + eapply (identify_again F st st1 st2 a va); [done|congruence|congruence|done].
Qed.

Lemma identify_stable_witness :
  identify example_firm (identify example_firm (mk_gvn diamond ∅ []) 10).1 10
    = ((identify example_firm (mk_gvn diamond ∅ []) 10).1, 10%nat)
  ∧ identify example_firm
      (identify example_firm (identify example_firm (mk_gvn diamond ∅ []) 10).1 11).1 10
    = ((identify example_firm (identify example_firm (mk_gvn diamond ∅ []) 10).1 11).1,
       10%nat).
Proof.
  apply (identify_stable example_firm (mk_gvn diamond ∅ [])
           (identify example_firm (mk_gvn diamond ∅ []) 10).1
           (identify example_firm (identify example_firm (mk_gvn diamond ∅ []) 10).1 11).1
           10 11 10 10).
  - vm_compute. reflexivity.
  - vm_compute. reflexivity.
Defined.

(** *** The translations of a block *)

(** What is stored with [set_translated] in the map of a block,
    [get_translated] gives back; a constlike node is not stored and
    translates into itself in every block; and the translations of the
    other nodes, and those of the other blocks, stay as they are. *)
Theorem translated_round_trip (F : firm) (g : list ir_node) (infos : block_infos)
    (info : block_info) (block node t : nat) :
  infos !! block = Some info →
  let infos' := <[block := set_trans info (set_translated F g (trans info) node t)]> infos in
  get_translated F g infos' block node
    = Some (if is_irn_constlike F g node then node else t)
  ∧ (∀ b n, (b, n) ≠ (block, node) →
       get_translated F g infos' b n = get_translated F g infos b n).
Proof.
  intros Hinfo infos'. subst infos'. unfold get_translated, set_translated, set_trans.
  split.
  - destruct (is_irn_constlike F g node) eqn:Hc; [done|].
    rewrite lookup_insert_eq. simpl. by rewrite lookup_insert_eq.
  - intros b n Hne. destruct (is_irn_constlike F g n) eqn:Hn; [done|].
    destruct (decide (b = block)) as [->|Hb].
    + rewrite lookup_insert_eq, Hinfo. simpl.
      destruct (is_irn_constlike F g node); [done|].
      rewrite lookup_insert_ne; [done|congruence].
    + by rewrite lookup_insert_ne.
Qed.

Lemma translated_round_trip_witness :
  let info := mk_info [] [(10, 10)]%nat [] [] None {[11%nat := 11%nat]} None 1 in
  let infos' :=
    <[1%nat := set_trans info (set_translated example_firm diamond (trans info) 10 11)]>
      diamond_infos in
  get_translated example_firm diamond infos' 1 10
    = Some (if is_irn_constlike example_firm diamond 10 then 10%nat else 11%nat)
  ∧ (∀ b n, (b, n) ≠ (1%nat, 10%nat) →
       get_translated example_firm diamond infos' b n
       = get_translated example_firm diamond diamond_infos b n).
Proof.
  apply (translated_round_trip example_firm diamond diamond_infos
           (mk_info [] [(10, 10)]%nat [] [] None {[11%nat := 11%nat]} None 1) 1 10 11).
  vm_compute. reflexivity.
Defined.

(** *** Phi translation *)

(** The input that the translation puts in the place of [pred]: [pred]
    itself, or the translation into the predecessor block of [pred] or
    of a leader of the leader set. *)
Definition translated_input (F : firm) (g : list ir_node) (infos : block_infos)
           (leaderset : ir_valueset_t) (pred_block pred new_pred : nat) : Prop :=
  new_pred = pred
  ∨ ∃ leader, (leader = pred ∨ leader ∈ leaderset.*2)
              ∧ get_translated F g infos pred_block leader = Some new_pred.

Lemma ir_valueset_lookup_elem (s : ir_valueset_t) (value e : nat) :
  ir_valueset_lookup s value = Some e → e ∈ s.*2.
Proof.
  unfold ir_valueset_lookup. destruct (List.find _ s) as [[v e']|] eqn:Hf; [|done].
  intros [= <-]. apply find_some in Hf as [Hin _].
  apply list_elem_of_fmap. exists (v, e'). split; [done|]. by apply list_elem_of_In.
Qed.

Lemma phi_translate_pred_state (F : firm) (infos : block_infos) (leaderset : ir_valueset_t)
      (pred_block : nat) (st st' : gvn_state) (ins ins' : list nat) (needed needed' : bool)
      (pred : nat) :
  phi_translate_pred F infos leaderset pred_block (st, ins, needed) pred
    = Some (st', ins', needed') →
  graph st' = graph st ∧ value_map st' = value_map st
  ∧ ∃ new_pred, ins' = ins ++ [new_pred]
      ∧ translated_input F (graph st) infos leaderset pred_block pred new_pred.
Proof.
  unfold phi_translate_pred.
  destruct (identify F st pred) as [s1 value] eqn:H1.
  destruct (identify_state F st s1 pred value H1) as (Hg1 & Hm1 & _).
  set (leader := default pred (ir_valueset_lookup leaderset value)).
  assert (Hleader : leader = pred ∨ leader ∈ leaderset.*2).
  { unfold leader. destruct (ir_valueset_lookup leaderset value) as [e|] eqn:He; [|by left].
    right. by apply ir_valueset_lookup_elem in He. }
  clearbody leader.
  destruct (negb _ && _); [done|]. rewrite Hg1.
  destruct (get_translated F (graph st) infos pred_block leader) as [pred_trans|] eqn:Ht.
  - assert (Hin : translated_input F (graph st) infos leaderset pred_block pred pred_trans).
    { right. by exists leader. }
    destruct (is_Proj (graph st) pred_trans && _).
    + intros [= <- <- <-]. split_and!; [done|done|]. by exists pred_trans.
    + destruct (identify F s1 pred_trans) as [s2 new_value] eqn:H2.
      destruct (identify F s2 pred) as [s3 old_value] eqn:H3.
      destruct (identify_state F s1 s2 pred_trans new_value H2) as (Hg2 & Hm2 & _).
      destruct (identify_state F s2 s3 pred old_value H3) as (Hg3 & Hm3 & _).
      intros [= <- <- <-]. split_and!; [congruence|congruence|]. by exists pred_trans.
  - intros [= <- <- <-]. split_and!; [done|done|]. exists pred. split; [done|by left].
Qed.

Lemma phi_translate_ins_state (F : firm) (infos : block_infos) (leaderset : ir_valueset_t)
      (pred_block : nat) (preds : list nat) (st st' : gvn_state) (ins ins' : list nat)
      (needed needed' : bool) :
  phi_translate_ins F infos leaderset pred_block (st, ins, needed) preds
    = Some (st', ins', needed') →
  graph st' = graph st ∧ value_map st' = value_map st
  ∧ ∃ news, ins' = ins ++ news
      ∧ Forall2 (translated_input F (graph st) infos leaderset pred_block) preds news.
Proof.
  revert st ins needed. induction preds as [|pred preds IH]; intros st ins needed;
    cbn [phi_translate_ins].
  - intros [= <- <- <-]. split_and!; [done|done|]. exists []. split; [by rewrite app_nil_r|].
    constructor.
  - destruct (phi_translate_pred F infos leaderset pred_block (st, ins, needed) pred)
      as [[[s1 ins1] needed1]|] eqn:H1; simpl; [|done].
    intros H2.
    destruct (phi_translate_pred_state _ _ _ _ _ _ _ _ _ _ _ H1)
      as (Hg1 & Hm1 & new_pred & -> & Hin).
    destruct (IH _ _ _ H2) as (Hg2 & Hm2 & news & -> & Hall).
    split_and!; [congruence|congruence|].
    exists (new_pred :: news). rewrite <- app_assoc. split; [done|].
    constructor; [done|]. by rewrite <- Hg1.
Qed.

(** What [phi_translate] returns.  It leaves the nodes of the graph and
    the value map as they are.  The result is the node itself, or for a
    Phi of the block its input at the position, or a node that is new in
    the graph, the only one: a copy of the node (which is not a Phi)
    with its opcode, mode and attributes, and with as many inputs, of
    which each is the input of the node or the translation into the
    predecessor block of that input or of a leader. *)
Theorem phi_translate_result (F : firm) (infos : block_infos) (st st' : gvn_state)
    (node block pos : nat) (leaderset : ir_valueset_t) (nn : nat) :
  phi_translate F infos st node block pos leaderset = Some (st', nn) →
  let g := graph st in
  let n := g !!! node in
  value_map st' = value_map st
  ∧ ((nn = node ∧ graph st' = g)
     ∨ (is_Phi g node = true ∧ get_nodes_block g node = block
        ∧ irn_in n !! pos = Some nn ∧ graph st' = g)
     ∨ (∃ new pred_block,
          is_Phi g node = false
          ∧ cfgpred_blocks g block !! pos = Some pred_block
          ∧ graph st' = g ++ [new] ∧ nn = length g
          ∧ irn_op new = irn_op n ∧ irn_mode new = irn_mode n
          ∧ irn_attr new = irn_attr n
          ∧ Forall2 (translated_input F g infos leaderset pred_block)
                    (irn_in n) (irn_in new))).
Proof.
  intros H g n. unfold phi_translate in H.
  destruct (cfgpred_blocks (graph st) block !! pos) as [pred_block|] eqn:Hpb;
    simpl in H; [|done].
  fold g in H. destruct (is_Phi g node) eqn:HPhi.
  - case_bool_decide as Hblock.
    + destruct (irn_in (g !!! node) !! pos) as [p|] eqn:Hp; simpl in H; [|done].
      injection H as <- <-. split; [done|]. right. left. done.
    + injection H as <- <-. split; [done|]. by left.
  - fold n in H.
    destruct (phi_translate_ins F infos leaderset pred_block (st, [], false) (irn_in n))
      as [[[s1 ins] needed]|] eqn:Hins; simpl in H; [|done].
    destruct (phi_translate_ins_state _ _ _ _ _ _ _ _ _ _ _ Hins)
      as (Hg1 & Hm1 & news & -> & Hall).
    destruct needed; simpl in H.
    + injection H as <- <-. simpl. split; [done|]. right. right.
      eexists _, pred_block. rewrite Hg1. split_and!; try done.
    + injection H as <- <-. split; [done|]. by left.
Qed.

(** The Add of the diamond, translated from B3 into B1, where the Phi is
    the constant 6. *)
Definition phi_in_B1 : block_infos :=
  <[1%nat := mk_info [] [] [] [] None {[8%nat := 6%nat]} None 0]> ∅.

Definition translated_add : ir_node := mk_irn iro_Add mode_Is [6; 6]%nat 0 1.

Lemma phi_translate_result_witness :
  let g := graph numbered in
  let n := g !!! 11%nat in
  value_map numbered = value_map numbered
  ∧ ((12%nat = 11%nat ∧ g ++ [translated_add] = g)
     ∨ (is_Phi g 11 = true ∧ get_nodes_block g 11 = 5%nat
        ∧ irn_in n !! 0%nat = Some 12%nat ∧ g ++ [translated_add] = g)
     ∨ (∃ new pred_block,
          is_Phi g 11 = false
          ∧ cfgpred_blocks g 5 !! 0%nat = Some pred_block
          ∧ g ++ [translated_add] = g ++ [new] ∧ 12%nat = length g
          ∧ irn_op new = irn_op n ∧ irn_mode new = irn_mode n
          ∧ irn_attr new = irn_attr n
          ∧ Forall2 (translated_input example_firm g phi_in_B1 [(8, 8)]%nat pred_block)
                    (irn_in n) (irn_in new))).
Proof.
  apply (phi_translate_result example_firm phi_in_B1 numbered
           (mk_gvn (graph numbered ++ [translated_add]) (value_map numbered)
                   (value_table numbered))
           11 5 0 [(8, 8)]%nat 12).
  vm_compute. reflexivity.
Defined.

(** *** The value numbering of the walk *)

(** The state of the value numbering over a graph [g0]: the graph has
    grown only at its end, the inputs of its nodes are nodes of the
    graph, the value table holds nodes of the graph, and the value map
    takes nodes of [g0] to nodes of the graph with the same opcode and
    mode. *)
Record numbering_ok (g0 : list ir_node) (st : gvn_state) : Prop := mk_numbering_ok {
  no_prefix : g0 `prefix_of` graph st;
  no_inputs : ∀ n p, (n < length (graph st))%nat → p ∈ irn_in (graph st !!! n) →
                (p < length (graph st))%nat;
  no_table  : ∀ h v, (h, v) ∈ value_table st → (v < length (graph st))%nat;
  no_map    : ∀ n v, value_map st !! n = Some v →
                (n < length g0)%nat ∧ (v < length (graph st))%nat
                ∧ get_irn_op (graph st) v = get_irn_op g0 n
                ∧ get_irn_mode (graph st) v = get_irn_mode g0 n
}.

Lemma node_prefix (g0 g : list ir_node) (n : nat) :
  g0 `prefix_of` g → (n < length g0)%nat → g !!! n = g0 !!! n.
Proof. intros [k ->] Hn. by apply lookup_total_app_l. Qed.

Lemma op_prefix (g0 g : list ir_node) (n : nat) :
  g0 `prefix_of` g → (n < length g0)%nat →
  get_irn_op g n = get_irn_op g0 n ∧ get_irn_mode g n = get_irn_mode g0 n.
Proof.
  intros Hp Hn. unfold get_irn_op, get_irn_mode. by rewrite (node_prefix g0 g n).
Qed.

Lemma numbering_ok_table (g0 : list ir_node) (st : gvn_state) (h : Z) (n : nat) :
  numbering_ok g0 st → (n < length (graph st))%nat →
  numbering_ok g0 (mk_gvn (graph st) (value_map st) (value_table st ++ [(h, n)])).
Proof.
  intros [H1 H2 H3 H4] Hn. split; simpl; [done|done| |done].
  intros h' v [Hin|Hin%list_elem_of_singleton]%elem_of_app; [by eapply H3|].
  by simplify_eq.
Qed.

Lemma numbering_ok_insert (g0 : list ir_node) (st : gvn_state) (irn v : nat) :
  numbering_ok g0 st → (irn < length g0)%nat → (v < length (graph st))%nat →
  get_irn_op (graph st) v = get_irn_op g0 irn →
  get_irn_mode (graph st) v = get_irn_mode g0 irn →
  numbering_ok g0 (mk_gvn (graph st) (<[irn := v]> (value_map st)) (value_table st)).
Proof.
  intros [H1 H2 H3 H4] Hirn Hv Hop Hmode. split; simpl; [done|done|done|].
  intros n w. destruct (decide (n = irn)) as [->|Hne].
  - rewrite lookup_insert_eq. intros [= <-]. done.
  - rewrite lookup_insert_ne by done. apply H4.
Qed.

Lemma numbering_ok_new (g0 : list ir_node) (st : gvn_state) (new : ir_node) :
  numbering_ok g0 st →
  Forall (fun p => (p < length (graph st))%nat) (irn_in new) →
  numbering_ok g0 (new_ir_node st new).1.
Proof.
  intros [H1 H2 H3 H4] Hnew. split; simpl.
  - by apply prefix_app_r.
  - intros n p. rewrite length_app. simpl. intros Hn Hp.
    destruct (decide (n < length (graph st))%nat) as [Hlt|Hge].
    + rewrite lookup_total_app_l in Hp by done. pose proof (H2 n p Hlt Hp). lia.
    + assert (n = length (graph st)) as -> by lia.
      rewrite list_lookup_total_middle in Hp by done.
      rewrite Forall_forall in Hnew. pose proof (Hnew p Hp). lia.
  - intros h v Hin. rewrite length_app. pose proof (H3 h v Hin). simpl. lia.
  - intros n v Hv. destruct (H4 n v Hv) as (Hn & Hlt & Hop & Hmode).
    rewrite length_app. simpl. split; [done|]. split; [lia|].
    unfold get_irn_op, get_irn_mode in *. by rewrite lookup_total_app_l.
Qed.

Lemma identify_remember_ok (F : firm) (g0 : list ir_node) (st st' : gvn_state) (n v : nat) :
  numbering_ok g0 st → (n < length (graph st))%nat →
  identify_remember F st n = (st', v) →
  numbering_ok g0 st' ∧ graph st' = graph st ∧ value_map st' = value_map st
  ∧ (v < length (graph st))%nat
  ∧ get_irn_op (graph st) v = get_irn_op (graph st) n
  ∧ get_irn_mode (graph st) v = get_irn_mode (graph st) n.
Proof.
  intros Hok Hn. unfold identify_remember.
  destruct (List.find _ (value_table st)) as [[h o]|] eqn:Hf; intros [= <- <-].
  - apply find_some in Hf as [Hin Hb]. simpl in *.
    apply andb_true_iff in Hb as [_ Hc]. apply Z.eqb_eq in Hc.
    apply compare_same_op in Hc as [Hop Hmode].
    split_and!; try done. eapply (no_table _ _ Hok). by apply list_elem_of_In.
  - split_and!; try done. by apply numbering_ok_table.
Qed.

Lemma identify_ok (F : firm) (g0 : list ir_node) (st st' : gvn_state) (n v : nat) :
  numbering_ok g0 st → (n < length (graph st))%nat →
  identify F st n = (st', v) →
  numbering_ok g0 st' ∧ graph st' = graph st ∧ value_map st' = value_map st
  ∧ (v < length (graph st))%nat.
Proof.
  intros Hok Hn. unfold identify.
  destruct (value_map st !! n) as [v'|] eqn:Hv.
  - intros [= <- <-]. split_and!; try done. by destruct (no_map _ _ Hok n v' Hv) as (_ & ? & _).
  - intros H. by destruct (identify_remember_ok F g0 st st' n v Hok Hn H) as (? & ? & ? & ? & _).
Qed.

Lemma remember_preds_ok (F : firm) (g0 : list ir_node) (preds : list nat)
      (st st' : gvn_state) (ins ins' : list nat) (changed changed' : bool) :
  numbering_ok g0 st →
  Forall (fun p => (p < length (graph st))%nat) preds →
  Forall (fun p => (p < length (graph st))%nat) ins →
  foldl (remember_pred F) (st, ins, changed) preds = (st', ins', changed') →
  numbering_ok g0 st' ∧ graph st' = graph st ∧ value_map st' = value_map st
  ∧ Forall (fun p => (p < length (graph st))%nat) ins'.
Proof.
  revert st ins changed. induction preds as [|pred preds IH]; intros st ins changed; simpl.
  - intros Hok _ Hins [= <- <- <-]. done.
  - intros Hok [Hpred Hpreds]%Forall_cons Hins.
    destruct (identify F st pred) as [s1 pred_value] eqn:H1.
    destruct (identify_ok F g0 st s1 pred pred_value Hok Hpred H1) as (Hok1 & Hg1 & Hm1 & Hv).
    destruct (is_Phi (graph s1) pred); intros H2.
    + apply IH in H2 as (? & ? & ? & ?).
      * split_and!; [done|congruence|congruence|by rewrite <- Hg1].
      * done.
      * by rewrite Hg1.
      * rewrite Hg1. apply Forall_app. split; [done|]. by apply Forall_singleton.
    + apply IH in H2 as (? & ? & ? & ?).
      * split_and!; [done|congruence|congruence|by rewrite <- Hg1].
      * done.
      * by rewrite Hg1.
      * rewrite Hg1. apply Forall_app. split; [done|]. by apply Forall_singleton.
Qed.

Lemma remember_ok (F : firm) (g0 : list ir_node) (st : gvn_state) (irn : nat) :
  numbering_ok g0 st → (irn < length g0)%nat →
  numbering_ok g0 (remember F st irn).1
  ∧ ∃ v, value_map (remember F st irn).1 = <[irn := v]> (value_map st).
Proof.
  intros Hok Hirn. unfold remember.
  pose proof (prefix_length _ _ (no_prefix _ _ Hok)) as Hlen.
  destruct (op_prefix g0 (graph st) irn (no_prefix _ _ Hok) Hirn) as [Hop0 Hmode0].
  set (n := graph st !!! irn) in *.
  destruct (foldl (remember_pred F) (st, [], false) (irn_in n))
    as [[st1 ins] changed] eqn:Hfold.
  assert (Hpreds : Forall (fun p => (p < length (graph st))%nat) (irn_in n)).
  { apply Forall_forall. intros p Hp. apply (no_inputs _ _ Hok irn p); [lia|done]. }
  destruct (remember_preds_ok F g0 (irn_in n) st st1 [] ins false changed
              Hok Hpreds (Forall_nil_2 _) Hfold) as (Hok1 & Hg1 & Hm1 & Hins).
  destruct changed.
  - set (new := mk_irn (irn_op n) (irn_mode n) ins (irn_attr n) (irn_block n)).
    pose proof (numbering_ok_new g0 st1 new Hok1) as Hok2.
    destruct (new_ir_node st1 new) as [st2 nn] eqn:Hnew.
    injection Hnew as <- <-. simpl in Hok2.
    set (st2 := mk_gvn (graph st1 ++ [new]) (value_map st1) (value_table st1)) in *.
    specialize (Hok2 ltac:(by rewrite Hg1)).
    destruct (identify_remember F st2 (length (graph st1))) as [st3 value] eqn:H3.
    assert (Hnn : (length (graph st1) < length (graph st2))%nat).
    { unfold st2. simpl. rewrite length_app. simpl. lia. }
    destruct (identify_remember_ok F g0 st2 st3 _ value Hok2 Hnn H3)
      as (Hok3 & Hg3 & Hm3 & Hv & Hop & Hmode).
    simpl. split; [|exists value; by rewrite Hm3, <- Hm1].
    apply numbering_ok_insert; [done|done|by rewrite Hg3| |].
    + rewrite Hg3, Hop, <- Hop0. unfold get_irn_op, st2. simpl.
      by rewrite list_lookup_total_middle.
    + rewrite Hg3, Hmode, <- Hmode0. unfold get_irn_mode, st2. simpl.
      by rewrite list_lookup_total_middle.
  - destruct (identify_remember F st1 irn) as [st3 value] eqn:H3.
    assert (Hirn1 : (irn < length (graph st1))%nat) by (rewrite Hg1; lia).
    destruct (identify_remember_ok F g0 st1 st3 irn value Hok1 Hirn1 H3)
      as (Hok3 & Hg3 & Hm3 & Hv & Hop & Hmode).
    simpl. split; [|exists value; by rewrite Hm3, <- Hm1].
    apply numbering_ok_insert; [done|done|by rewrite Hg3| |].
    + by rewrite Hg3, Hop, Hg1.
    + by rewrite Hg3, Hmode, Hg1.
Qed.

Lemma remember_all_ok (F : firm) (g0 : list ir_node) (irns : list nat) (st : gvn_state) :
  numbering_ok g0 st →
  (∀ n, n ∈ irns → (n < length g0)%nat) →
  let st' := remember_all F st irns in
  numbering_ok g0 st'
  ∧ (∀ n, is_Some (value_map st' !! n) →
          is_Some (value_map st !! n) ∨ (n ∈ irns ∧ is_Block g0 n = false))
  ∧ (∀ n, is_Some (value_map st !! n) ∨ (n ∈ irns ∧ is_Block g0 n = false) →
          is_Some (value_map st' !! n)).
Proof.
  revert st. induction irns as [|irn irns IH]; intros st Hok Hin; simpl.
  - split_and!; [done|by left|]. intros n [H|[H _]]; [done|]. by apply elem_of_nil in H.
  - assert (Hirn : (irn < length g0)%nat) by (apply Hin; by left).
    assert (HB : is_Block (graph st) irn = is_Block g0 irn).
    { unfold is_Block. by destruct (op_prefix g0 (graph st) irn (no_prefix _ _ Hok) Hirn) as [-> _]. }
    unfold remember_all in *. simpl. rewrite HB.
    destruct (is_Block g0 irn) eqn:HB0.
    + destruct (IH st Hok) as (H1 & H2 & H3); [set_solver|].
      split_and!; [done| |].
      * intros n Hn. destruct (H2 n Hn) as [?|[? ?]]; [by left|right].
        split; [set_solver|done].
      * intros n [Hn|[Hn Hb]]; [apply H3; by left|].
        apply elem_of_cons in Hn as [->|Hn]; [congruence|]. apply H3. by right.
    + destruct (remember_ok F g0 st irn Hok Hirn) as (Hok1 & v & Hm).
      destruct (IH _ Hok1) as (H1 & H2 & H3); [set_solver|].
      split_and!; [done| |].
      * intros n Hn. destruct (H2 n Hn) as [Hs|[Hs Hb]]; [|right; split; [set_solver|done]].
        rewrite Hm in Hs. destruct (decide (n = irn)) as [->|Hne].
        { right. split; [set_solver|done]. }
        rewrite lookup_insert_ne in Hs by done. by left.
      * intros n Hn. apply H3. rewrite Hm.
        destruct (decide (n = irn)) as [->|Hne]; [left; by rewrite lookup_insert_eq|].
        rewrite lookup_insert_ne by done.
        destruct Hn as [Hn|[Hn Hb]]; [by left|]. right.
        apply elem_of_cons in Hn as [->|Hn]; done.
Qed.

(** The value numbering of a walk over a graph, of which the inputs of
    every node are nodes of the graph, from the empty value map and
    table: the graph grows only at its end; the nodes of the walk that
    are not Blocks, and no others, have a value; and the value of a node
    is a node of the graph with the opcode and the mode of the node. *)
Theorem remember_all_values (F : firm) (g : list ir_node) (irns : list nat) :
  (∀ n p, (n < length g)%nat → p ∈ irn_in (g !!! n) → (p < length g)%nat) →
  (∀ n, n ∈ irns → (n < length g)%nat) →
  let st' := remember_all F (mk_gvn g ∅ []) irns in
  g `prefix_of` graph st'
  ∧ (∀ n, n ∈ irns → is_Block g n = false → is_Some (value_map st' !! n))
  ∧ (∀ n v, value_map st' !! n = Some v →
       n ∈ irns ∧ is_Block g n = false
       ∧ (v < length (graph st'))%nat
       ∧ get_irn_op (graph st') v = get_irn_op g n
       ∧ get_irn_mode (graph st') v = get_irn_mode g n).
Proof.
  intros Hg Hirns st'.
  assert (Hok : numbering_ok g (mk_gvn g ∅ [])).
  { split; simpl; [done|done| |].
    - intros h v H. by apply elem_of_nil in H.
    - intros n v H. by rewrite lookup_empty in H. }
  destruct (remember_all_ok F g irns _ Hok Hirns) as (Hok' & Hdom & Hsome).
  fold st' in Hok', Hdom, Hsome. split_and!.
  - apply (no_prefix _ _ Hok').
  - intros n Hn Hb. apply Hsome. by right.
  - intros n v Hv. destruct (no_map _ _ Hok' n v Hv) as (Hn & Hlt & Hop & Hmode).
    destruct (Hdom n) as [H|H]; [by eexists| |].
    + simpl in H. rewrite lookup_empty in H. by destruct H.
    + destruct H as [H1 H2]. split_and!; try done.
Qed.

Lemma diamond_inputs_in_graph :
  ∀ n p, (n < length diamond)%nat → p ∈ irn_in (diamond !!! n) → (p < length diamond)%nat.
Proof.
  intros n p Hn Hp.
  assert (Hall : Forall (fun nd => Forall (fun p => (p < length diamond)%nat) (irn_in nd))
                        diamond).
  { apply (bool_decide_unpack _). vm_compute. exact I. }
  rewrite Forall_forall in Hall.
  specialize (Hall (diamond !!! n) (list_elem_of_lookup_total_2 _ _ Hn)).
  rewrite Forall_forall in Hall. by apply Hall.
Qed.

Lemma remember_all_values_witness :
  diamond `prefix_of` graph numbered
  ∧ (∀ n, n ∈ [3; 4; 6; 7; 8; 9; 10; 11]%nat → is_Block diamond n = false →
          is_Some (value_map numbered !! n))
  ∧ (∀ n v, value_map numbered !! n = Some v →
       n ∈ [3; 4; 6; 7; 8; 9; 10; 11]%nat ∧ is_Block diamond n = false
       ∧ (v < length (graph numbered))%nat
       ∧ get_irn_op (graph numbered) v = get_irn_op diamond n
       ∧ get_irn_mode (graph numbered) v = get_irn_mode diamond n).
Proof.
  apply (remember_all_values example_firm diamond [3; 4; 6; 7; 8; 9; 10; 11]%nat).
  - exact diamond_inputs_in_graph.
  - intros n Hn. simpl.
    repeat (apply elem_of_cons in Hn as [->|Hn]; [lia|]). by apply elem_of_nil in Hn.
Defined.

End GvnValueFacts.

(** ** The IA-32 emitter *)

Module Ia32Facts.
Import Ia32Emitter.

(** *** Jcc *)

Definition is_cond_branch (l : asm_line) : bool :=
  match l with
  | jp_L _ | jp_1f | jcc_L _ _ => true
  | _ => false
  end.

Definition is_jmp (l : asm_line) : bool :=
  match l with
  | jmp_L _ => true
  | _ => false
  end.

(** The number of conditional branch instructions among the lines. *)
Definition cond_branches (out : list asm_line) : nat :=
  length (List.filter is_cond_branch out).

(** C5 (as amended).  When the true Proj of a Jcc can fall through, the
    emitter writes the conditional branch with the negated condition
    code to the target of the false Proj and no jmp.  When the negated
    code has none of the parity-case bits this branch is the only
    instruction written; when it has, the branch is guarded by one jp,
    to the same target for a negated code and over the branch (to the
    local label 1) otherwise. *)
Theorem jcc_true_fallthrough
    (C : cc_ops) (sched : nat → option nat) (verbose : bool) (node : jcc_node) :
  can_be_fallthrough sched (jcc_proj_true node) = true →
  let cc := ia32_negate_condition_code C (determine_final_cc C node (jcc_condcode node)) in
  let target := cfop_target_block (jcc_proj_false node) in
  let parity := negb (Z.land cc (ia32_cc_float_parity_cases C) =? 0) in
  let negated := negb (Z.land cc (ia32_cc_negated C) =? 0) in
  let out := emit_ia32_Jcc C sched verbose node in
  out = (if parity then if negated then [jp_L target] else [jp_1f] else [])
          ++ [jcc_L cc target]
          ++ (if parity && negb negated then [label_1] else [])
          ++ (if verbose
              then [fallthrough_comment (cfop_target_block (jcc_proj_true node))]
              else [])
  ∧ List.filter is_jmp out = []
  ∧ (parity = false → List.filter is_cond_branch out = [jcc_L cc target])
  ∧ (parity = true → cond_branches out = 2%nat).
Proof.
  intros Hft. cbv zeta. unfold emit_ia32_Jcc, cond_branches. rewrite Hft.
  destruct (negb (Z.land _ (ia32_cc_float_parity_cases C) =? 0)),
           (negb (Z.land _ (ia32_cc_negated C) =? 0)), verbose;
    simpl; rewrite ?Hft; simpl; done.
Qed.

(** Modelled from the spec: the condition codes of [ia32_nodes_attr.h],
    which is not under src/.  "When the code has the parity-cases bit set,
    additional jp/jnp sequences guard the primary test"; the low four
    bits of a code are the encoding of the condition in the instruction
    ([pnc2cc]), of which bit 0 negates, and bit 5 is the parity-cases bit
    that the floating point codes carry.  No operand is permuted here, so
    the inversion of a code does not come into play. *)
Definition libfirm_cc : cc_ops :=
  mk_cc_ops 0x01 0x20 (fun cc => Z.lxor cc 0x01) (fun cc => cc).

Definition ia32_cc_less : Z := 0x0C.
Definition ia32_cc_greater_equal : Z := 0x0D.
Definition ia32_cc_float_equal : Z := 0x34.

(** The block schedule B0, Btrue, Bfalse as blocks 0, 1, 2. *)
Definition schedule_0_1_2 (block : nat) : option nat :=
  match block with
  | 1%nat => Some 0%nat
  | 2%nat => Some 1%nat
  | _ => None
  end.

Definition jcc_in_B0 (cc : Z) : jcc_node :=
  mk_jcc cc false (mk_cfop 1 0) (mk_cfop 2 0).

Lemma jcc_true_fallthrough_witness :
  let out := emit_ia32_Jcc libfirm_cc schedule_0_1_2 false (jcc_in_B0 ia32_cc_less) in
  out = [] ++ [jcc_L ia32_cc_greater_equal 2] ++ [] ++ []
  ∧ List.filter is_jmp out = []
  ∧ (false = false → List.filter is_cond_branch out = [jcc_L ia32_cc_greater_equal 2])
  ∧ (false = true → cond_branches out = 2%nat).
Proof.
  apply (jcc_true_fallthrough libfirm_cc schedule_0_1_2 false (jcc_in_B0 ia32_cc_less)).
  reflexivity.
Defined.

(** C5 as stated fails for a floating point condition: with the true
    side falling through, the emitter writes two conditional branches,
    a jp and the branch with the negated code. *)
Lemma jcc_float_two_branches :
  let node := jcc_in_B0 ia32_cc_float_equal in
  let out := emit_ia32_Jcc libfirm_cc schedule_0_1_2 false node in
  can_be_fallthrough schedule_0_1_2 (jcc_proj_true node) = true
  ∧ out = [jp_L 2; jcc_L 0x35 2]
  ∧ cond_branches out ≠ 1%nat.
Proof. vm_compute. split_and!; [reflexivity | reflexivity | discriminate]. Qed.

(** *** The address mode bytes *)

(** The fields of a ModR/M byte and the base field of a SIB byte. *)
Definition mod_field (modrm : Z) : Z := Z.land modrm 0xC0.
Definition rm_field (modrm : Z) : Z := Z.land modrm 0x07.
Definition sib_base_field (sib : Z) : Z := Z.land sib 0x07.

(** What is emitted for the displacement, after the ModR/M byte and the
    SIB byte. *)
Definition displacement (l : mod_am) (node : am_node) : list emitted :=
  if emitoffs l =? 8 then bemit8 (am_offs node)
  else if emitoffs l =? 32
       then bemit_entity (am_sc node) (am_sc_sign node) (am_offs node)
       else [].

Lemma reg_gp_map_range (r : gp_reg) : 0 ≤ reg_gp_map r < 8.
Proof. destruct r; simpl; lia. Qed.

Lemma small_cases (x : Z) :
  0 ≤ x < 8 → x = 0 ∨ x = 1 ∨ x = 2 ∨ x = 3 ∨ x = 4 ∨ x = 5 ∨ x = 6 ∨ x = 7.
Proof. lia. Qed.

Ltac cases_lt_8 H :=
  apply small_cases in H;
  destruct H as [-> | [-> | [-> | [-> | [-> | [-> | [-> | ->]]]]]]].

Lemma mod_field_modrm (m rm reg : Z) :
  m = MOD_IND ∨ m = MOD_IND_BYTE_OFS ∨ m = MOD_IND_WORD_OFS →
  0 ≤ rm < 8 → 0 ≤ reg < 8 →
  mod_field (Z.lor (Z.lor m (ENC_RM rm)) (ENC_REG reg)) = m
  ∧ rm_field (Z.lor (Z.lor m (ENC_RM rm)) (ENC_REG reg)) = rm.
Proof.
  intros Hm Hrm Hreg. cases_lt_8 Hrm; cases_lt_8 Hreg;
    destruct Hm as [-> | [-> | ->]]; vm_compute; done.
Qed.

Lemma sib_base_low (scale idx base : Z) :
0 ≤ base < 8 → sib_base_field (ENC_SIB scale idx base) = base.
Proof.
intros Hb. unfold sib_base_field, ENC_SIB.
rewrite Z.land_lor_distr_l.
assert (Hlow : Z.land (Z.lor (Z.shiftl scale 6) (Z.shiftl idx 3)) 7 = 0).
{ apply Z.bits_inj'. intros n Hn. rewrite Z.land_spec, Z.lor_spec, Z.bits_0.
  destruct (Z.ltb_spec n 3).
  - rewrite !Z.shiftl_spec_low by lia. done.
  - replace (Z.testbit 7 n) with false; [by rewrite andb_false_r|].
    symmetry. apply (Z.bits_above_log2 7 n); [lia|]. simpl. lia. }
rewrite Hlow. simpl. cases_lt_8 Hb; done.
Qed.

(** The three ways the displacement of an address mode without entity is
    classified. *)
Inductive offs_class := offs_zero | offs_byte | offs_word.

Definition classify_offs (offs : Z) : offs_class :=
  if offs =? 0 then offs_zero
  else if (-128 <=? offs) && (offs <? 128) then offs_byte
  else offs_word.

Lemma locals_value (reg : Z) (sign : bool) (offs : Z) (base index : option gp_reg) (scale : Z) :
(index ≠ None → scale < 4) →
mod_am_locals reg (mk_am None sign offs base index scale)
= let m := match base, classify_offs offs with
           | None, _ => MOD_IND
           | Some r, offs_zero => if bool_decide (r = EBP) then MOD_IND_BYTE_OFS else MOD_IND
           | Some r, offs_byte => MOD_IND_BYTE_OFS
           | Some r, offs_word => MOD_IND_WORD_OFS
           end in
  let eo := match base, classify_offs offs with
            | None, _ => 32
            | Some r, offs_zero => if bool_decide (r = EBP) then 8 else 0
            | Some r, offs_byte => 8
            | Some r, offs_word => 32
            end in
  let be := match base with Some r => reg_gp_map r | None => 5 end in
  let rm := match index with
            | Some _ => 4
            | None => be
            end in
  let sb := match index with
            | Some ri => ENC_SIB scale (reg_gp_map ri) be
            | None => if be =? 4 then ENC_SIB 0 4 4 else 0
            end in
  let es := match index with Some _ => true | None => be =? 4 end in
  Some (mk_mod_am (Z.lor (Z.lor m (ENC_RM rm)) (ENC_REG reg)) sb eo es be).
Proof.
intros Hscale. unfold mod_am_locals, classify_offs. simpl.
destruct index as [ri|]; simpl.
- destruct (Z.ltb_spec scale 4) as [Hs|Hs];
    [|exfalso; assert (scale < 4) by (by apply Hscale); lia].
  destruct base as [[]|]; simpl;
    destruct (offs =? 0); simpl; try reflexivity;
    destruct ((-128 <=? offs) && (offs <? 128)); simpl; reflexivity.
- destruct base as [[]|]; simpl;
    destruct (offs =? 0); simpl; try reflexivity;
    destruct ((-128 <=? offs) && (offs <? 128)); simpl; reflexivity.
Qed.

Lemma classify_offs_zero : classify_offs 0 = offs_zero.
Proof. reflexivity. Qed.

Lemma classify_offs_byte (offs : Z) :
  -128 ≤ offs ≤ 127 → offs ≠ 0 → classify_offs offs = offs_byte.
Proof.
  intros Hr Hz. unfold classify_offs.
  destruct (Z.eqb_spec offs 0); [done|].
  destruct (Z.leb_spec (-128) offs); [|lia].
  destruct (Z.ltb_spec offs 128); [done|lia].
Qed.


(** [movl 8(%ebp), %ecx]: a base and a small displacement. *)
Definition ebp_plus_8 : am_node := mk_am None false 8 (Some EBP) None 0.


(** The encodings of the four rules on examples: an absolute address, a
    small displacement from a base, the stack pointer as base, and the
    frame pointer as base without displacement. *)
Example bemit_mod_am_examples :
  bemit_mod_am 1 (mk_am None false 0x1000 None None 0) = Some [byte 0x0D; long 0x1000]
  ∧ bemit_mod_am 1 ebp_plus_8 = Some [byte 0x4D; byte 8]
  ∧ bemit_mod_am 1 (mk_am None false (-4) (Some EAX) None 0) = Some [byte 0x48; byte 0xFC]
  ∧ bemit_mod_am 1 (mk_am None false 0 (Some ESP) None 0) = Some [byte 0x0C; byte 0x24]
  ∧ bemit_mod_am 1 (mk_am None false 0 (Some EBP) None 0) = Some [byte 0x4D; byte 0]
  ∧ bemit_mod_am 1 (mk_am None false 300 (Some EAX) (Some EBX) 2)
    = Some [byte 0x8C; byte 0x98; long 300].
Proof. vm_compute. done. Qed.


(** *** Minus64Bit *)

Lemma normal_neg_insns (out_lo out_hi : gp_reg) :
  normal_neg out_lo out_hi = [negl out_hi; negl out_lo; sbbl0 out_hi].
Proof. reflexivity. Qed.

Lemma zero_neg_insns (in_hi out_lo out_hi : gp_reg) :
  zero_neg in_hi out_lo out_hi = [xorl out_hi out_hi; negl out_lo; sbbl in_hi out_hi].
Proof. reflexivity. Qed.

(** What each branch writes in front of the negation, and which of the
    two negations it jumps to. *)
Definition minus64_preface (c : minus64_case) (in_lo in_hi out_lo out_hi : gp_reg)
  : list insn :=
  match c with
  | a_a_b_d | a_a_b_b => []
  | a_b_b_a => [xchgl in_lo in_hi]
  | a_b_b_d => [movl in_hi out_hi; movl in_lo out_lo]
  | a_c_b_a | a_c_b_b | a_c_b_d => [movl in_lo out_lo]
  end.

Definition minus64_zero_neg (c : minus64_case) : bool :=
  match c with
  | a_a_b_d | a_c_b_a | a_c_b_d => true
  | a_a_b_b | a_b_b_a | a_b_b_d | a_c_b_b => false
  end.

Lemma emit_ia32_Minus64Bit_branch (in_lo in_hi out_lo out_hi : gp_reg) :
  let c := minus64_branch in_lo in_hi out_lo out_hi in
  emit_ia32_Minus64Bit in_lo in_hi out_lo out_hi
  = minus64_preface c in_lo in_hi out_lo out_hi
    ++ (if minus64_zero_neg c then zero_neg in_hi out_lo out_hi
        else normal_neg out_lo out_hi).
Proof.
  unfold emit_ia32_Minus64Bit, minus64_branch. cbv zeta.
  repeat case_bool_decide; reflexivity.
Qed.

(** The bytes of an instruction, as the helpers of [bemit_minus64bit]
    write them. *)
Definition bemit_insn (i : insn) : list emitted :=
  match i with
  | xchgl src dst => bemit_helper_xchg src dst
  | xorl src dst => bemit8 0x33 ++ bemit_modrr src dst
  | movl src dst => bemit_helper_mov src dst
  | negl reg => bemit_helper_neg reg
  | sbbl0 reg => bemit_helper_sbb0 reg
  | sbbl src dst => bemit_helper_sbb src dst
  end.

(** The binary emitter takes the same branches: it writes the bytes of
    the instructions of the textual emitter. *)
Lemma bemit_minus64bit_text (in_lo in_hi out_lo out_hi : gp_reg) :
  bemit_minus64bit in_lo in_hi out_lo out_hi
  = concat (bemit_insn <$> emit_ia32_Minus64Bit in_lo in_hi out_lo out_hi).
Proof.
  unfold bemit_minus64bit, emit_ia32_Minus64Bit.
  repeat case_bool_decide; simpl; rewrite ?app_nil_r, <- ?app_assoc; reflexivity.
Qed.

Definition all_minus64_cases : list minus64_case :=
  [a_a_b_d; a_a_b_b; a_b_b_a; a_b_b_d; a_c_b_a; a_c_b_b; a_c_b_d].

Lemma all_minus64_cases_complete (c : minus64_case) : c ∈ all_minus64_cases.
Proof. unfold all_minus64_cases. destruct c; set_solver. Qed.

Lemma minus64_cases_at_most_7 (l : list minus64_case) : NoDup l → (length l ≤ 7)%nat.
Proof.
  intros Hl.
  change 7%nat with (length all_minus64_cases).
  apply submseteq_length, NoDup_submseteq; [done|].
  intros c _. apply all_minus64_cases_complete.
Qed.

(** Registers for each of the branches, in the order in_lo, in_hi, out_lo,
    out_hi. *)
Definition minus64_example (c : minus64_case) : gp_reg * gp_reg * gp_reg * gp_reg :=
  match c with
  | a_a_b_d => (EAX, EDX, EAX, EBX)
  | a_a_b_b => (EAX, EDX, EAX, EDX)
  | a_b_b_a => (EAX, EDX, EDX, EAX)
  | a_b_b_d => (EAX, EDX, EDX, EBX)
  | a_c_b_a => (EAX, EDX, ECX, EAX)
  | a_c_b_b => (EAX, EDX, ECX, EDX)
  | a_c_b_d => (EAX, EDX, ECX, EBX)
  end.

(** C8 (as amended).  The Minus64Bit emitter distinguishes seven subcases
    of the mapping from the input registers to the output registers, all
    of which occur.  Every one of them emits either neg out_hi; neg
    out_lo; sbb $0, out_hi or xor out_hi, out_hi; neg out_lo; sbb in_hi,
    out_hi, after nothing, after an xchg of the inputs, or after one or
    two register moves; the binary emitter writes the bytes of the same
    instructions. *)
Theorem minus64bit_subcases :
  (∀ l : list minus64_case, NoDup l → (length l ≤ 7)%nat)
  ∧ NoDup all_minus64_cases ∧ length all_minus64_cases = 7%nat
  ∧ (∀ c, let '(in_lo, in_hi, out_lo, out_hi) := minus64_example c in
          minus64_branch in_lo in_hi out_lo out_hi = c)
  ∧ (∀ in_lo in_hi out_lo out_hi,
       ∃ preface body,
         emit_ia32_Minus64Bit in_lo in_hi out_lo out_hi = preface ++ body
         ∧ (body = [negl out_hi; negl out_lo; sbbl0 out_hi]
            ∨ body = [xorl out_hi out_hi; negl out_lo; sbbl in_hi out_hi])
         ∧ (preface = [] ∨ preface = [xchgl in_lo in_hi]
            ∨ preface = [movl in_lo out_lo]
            ∨ preface = [movl in_hi out_hi; movl in_lo out_lo])
         ∧ bemit_minus64bit in_lo in_hi out_lo out_hi
           = concat (bemit_insn <$> preface ++ body)).
Proof.
  split_and!.
  - apply minus64_cases_at_most_7.
  - apply (bool_decide_unpack (NoDup all_minus64_cases)). vm_compute. exact I.
  - reflexivity.
  - intros c. destruct c; reflexivity.
  - intros in_lo in_hi out_lo out_hi.
    exists (minus64_preface (minus64_branch in_lo in_hi out_lo out_hi)
                            in_lo in_hi out_lo out_hi).
    exists (if minus64_zero_neg (minus64_branch in_lo in_hi out_lo out_hi)
            then zero_neg in_hi out_lo out_hi else normal_neg out_lo out_hi).
    rewrite bemit_minus64bit_text.
    pose proof (emit_ia32_Minus64Bit_branch in_lo in_hi out_lo out_hi) as Hb.
    cbv zeta in Hb.
    split; [exact Hb|].
    split; [destruct (minus64_branch _ _ _ _); simpl; auto|].
    split; [destruct (minus64_branch _ _ _ _); simpl; auto|].
    by rewrite <- Hb.
Qed.

(** C8 as stated fails in its count: there are no eight subcases, for no
    eight register assignments take eight different branches. *)
Lemma minus64bit_not_eight_subcases :
  ¬ ∃ l : list (gp_reg * gp_reg * gp_reg * gp_reg),
      length l = 8%nat
      ∧ NoDup ((fun '(in_lo, in_hi, out_lo, out_hi) =>
                  minus64_branch in_lo in_hi out_lo out_hi) <$> l).
Proof.
  intros (l & Hlen & Hnd).
  apply minus64_cases_at_most_7 in Hnd. rewrite length_fmap in Hnd. lia.
Qed.

End Ia32Facts.

(** ** The machine code of the IA-32 emitter *)

Module Ia32Opcodes.
Import Ia32Emitter.

(** *** Reading machine code

    The instruction format of the IA-32 manual, by which the bytes of the
    binary emitter are read back. *)

(** The register with a given encoding. *)
Definition reg_of_enc (z : Z) : option gp_reg :=
  match z with
  | 0 => Some EAX | 1 => Some ECX | 2 => Some EDX | 3 => Some EBX
  | 4 => Some ESP | 5 => Some EBP | 6 => Some ESI | 7 => Some EDI
  | _ => None
  end.

(** The fields of a ModR/M byte. *)
Definition modrm_mod (b : Z) : Z := Z.shiftr b 6.
Definition modrm_reg (b : Z) : Z := Z.land (Z.shiftr b 3) 7.
Definition modrm_rm (b : Z) : Z := Z.land b 7.

(** An immediate or displacement byte is extended with its sign. *)
Definition sext8 (b : Z) : Z := if b <? 0x80 then b else b - 0x100.

(** The number that a 32 bit field holds in two's complement. *)
Definition sext32 (v : Z) : Z := if v <? 0x80000000 then v else v - 0x100000000.

Lemma reg_of_enc_map (r : gp_reg) : reg_of_enc (reg_gp_map r) = Some r.
Proof. by destruct r. Qed.

Lemma sext8_byte (v : Z) : -128 ≤ v < 128 → sext8 (v mod 2 ^ 8) = v.
Proof.
  intros Hv. unfold sext8.
  destruct (Z.neg_nonneg_cases v) as [Hn|Hn].
  - assert (Hm : v mod 2 ^ 8 = v + 256).
    { symmetry. apply Z.mod_unique with (-1); lia. }
    rewrite Hm. destruct (Z.ltb_spec (v + 256) 128); lia.
  - rewrite Z.mod_small by lia. destruct (Z.ltb_spec v 128); lia.
Qed.

Lemma sext32_long (v : Z) : - 2 ^ 31 ≤ v < 2 ^ 31 → sext32 (v mod 2 ^ 32) = v.
Proof.
  intros Hv. unfold sext32.
  destruct (Z.neg_nonneg_cases v) as [Hn|Hn].
  - assert (Hm : v mod 2 ^ 32 = v + 2 ^ 32).
    { symmetry. apply Z.mod_unique with (-1); lia. }
    rewrite Hm. destruct (Z.ltb_spec (v + 2 ^ 32) 2147483648); lia.
  - rewrite Z.mod_small by lia. destruct (Z.ltb_spec v 2147483648); lia.
Qed.

End Ia32Opcodes.

(** ** Minus64Bit on the machine *)

Module Minus64Semantics.
Import Ia32Emitter Ia32Facts Ia32Opcodes.

(** The part of the machine that the instructions of Minus64Bit work on:
    the general purpose registers, each a number below 2^32, and the carry
    flag. *)
Record machine := mk_machine {
  regs  : gp_reg → Z;
  carry : bool
}.

Definition word (z : Z) : Z := z mod 2 ^ 32.

Definition upd (r : gp_reg) (v : Z) (f : gp_reg → Z) : gp_reg → Z :=
  fun x => if bool_decide (x = r) then v else f x.

Definition borrow (m : machine) : Z := if carry m then 1 else 0.

(** The effect of an instruction (in AT&T order, source first) on the
    registers and the carry flag, as the IA-32 manual gives it: [neg] sets
    the carry unless the operand is 0, [sbb] subtracts the source and the
    carry and sets the carry on a borrow, [xor] clears it, [mov] and
    [xchg] leave it. *)
Definition exec (m : machine) (i : insn) : machine :=
  match i with
  | movl s d => mk_machine (upd d (regs m s) (regs m)) (carry m)
  | xchgl s d => mk_machine (upd d (regs m s) (upd s (regs m d) (regs m))) (carry m)
  | xorl s d => mk_machine (upd d (Z.lxor (regs m d) (regs m s)) (regs m)) false
  | negl r => mk_machine (upd r (word (- regs m r)) (regs m)) (negb (regs m r =? 0))
  | sbbl0 r =>
      mk_machine (upd r (word (regs m r - borrow m)) (regs m)) (regs m r <? borrow m)
  | sbbl s d =>
      mk_machine (upd d (word (regs m d - regs m s - borrow m)) (regs m))
                 (regs m d <? regs m s + borrow m)
  end.

Definition run (m : machine) (code : list insn) : machine := foldl exec m code.

(** The 64 bit number held by a pair of registers. *)
Definition pair64 (m : machine) (lo hi : gp_reg) : Z := regs m lo + 2 ^ 32 * regs m hi.

Lemma mod_eq (a b q r : Z) : 0 ≤ r < b → a = b * q + r → a mod b = r.
Proof. intros Hr Ha. symmetry. apply Z.mod_unique with q; [by left|done]. Qed.

Lemma neg64_normal (lo hi : Z) :
  0 ≤ lo < 2 ^ 32 → 0 ≤ hi < 2 ^ 32 →
  word (- lo) + 2 ^ 32 * word (word (- hi) - (if negb (lo =? 0) then 1 else 0))
  = (- (lo + 2 ^ 32 * hi)) mod 2 ^ 64.
Proof.
  intros Hlo Hhi. unfold word.
  assert (Hm : hi ≠ 0 → (- hi) mod 2 ^ 32 = 2 ^ 32 - hi).
  { intros Hh. apply mod_eq with (-1); lia. }
  destruct (Z.eqb_spec lo 0) as [->|Hne]; simpl.
  - rewrite Z.sub_0_r, Z.mod_mod by lia. simpl (- 0). rewrite Z.mod_0_l by lia.
    destruct (Z.eq_dec hi 0) as [->|Hh].
    + reflexivity.
    + rewrite (Hm Hh). symmetry. apply mod_eq with (-1); lia.
  - assert (Hl : (- lo) mod 2 ^ 32 = 2 ^ 32 - lo).
    { apply mod_eq with (-1); lia. }
    rewrite Hl.
    assert (Hh : ((- hi) mod 2 ^ 32 - 1) mod 2 ^ 32 = 2 ^ 32 - 1 - hi).
    { destruct (Z.eq_dec hi 0) as [->|Hh].
      - reflexivity.
      - rewrite (Hm Hh). rewrite Z.mod_small; lia. }
    rewrite Hh. symmetry. apply mod_eq with (-1); lia.
Qed.

Lemma neg64_zero (lo hi : Z) :
  0 ≤ lo < 2 ^ 32 → 0 ≤ hi < 2 ^ 32 →
  word (- lo) + 2 ^ 32 * word (0 - hi - (if negb (lo =? 0) then 1 else 0))
  = (- (lo + 2 ^ 32 * hi)) mod 2 ^ 64.
Proof.
  intros Hlo Hhi. rewrite <- (neg64_normal lo hi Hlo Hhi). f_equal. f_equal.
  unfold word. rewrite Zminus_mod_idemp_l. f_equal.
Qed.

Ltac reg_cases :=
  repeat match goal with
         | |- context [bool_decide (?a = ?b)] =>
             destruct (decide (a = b));
             [rewrite (bool_decide_eq_true_2 (a = b)) by assumption
             |rewrite (bool_decide_eq_false_2 (a = b)) by assumption];
             try subst; try congruence
         end.

(** Whatever registers hold the operands, the instructions of
    [emit_ia32_Minus64Bit] leave the negated 64 bit number in the output
    pair, and change no register besides the two outputs. *)
Theorem minus64bit_negates (m : machine) (in_lo in_hi out_lo out_hi : gp_reg) :
  in_lo ≠ in_hi → out_lo ≠ out_hi →
  (∀ r, 0 ≤ regs m r < 2 ^ 32) →
  let m' := run m (emit_ia32_Minus64Bit in_lo in_hi out_lo out_hi) in
  pair64 m' out_lo out_hi = (- pair64 m in_lo in_hi) mod 2 ^ 64
  ∧ ∀ r, r ≠ out_lo → r ≠ out_hi → regs m' r = regs m r.
Proof.
  intros Hin Hout Hr. cbv zeta.
  pose proof (Hr in_lo) as Hlo. pose proof (Hr in_hi) as Hhi.
  unfold emit_ia32_Minus64Bit, pair64.
  repeat case_bool_decide; subst;
    simpl; unfold upd, borrow; simpl.
  all: split; [|intros r Hr1 Hr2; reg_cases; reflexivity].
  all: reg_cases; rewrite ?Z.lxor_nilpotent;
    first [by apply neg64_normal | by apply neg64_zero].
Qed.

(** A pair of registers for the witness: the number 5 in eax (low) and edx
    (high), negated in place. *)
Definition five_in_eax_edx : machine :=
  mk_machine (fun r => match r with EAX => 5 | _ => 0 end) false.

Lemma minus64bit_negates_witness :
  let m' := run five_in_eax_edx (emit_ia32_Minus64Bit EAX EDX EAX EDX) in
  pair64 m' EAX EDX = (- pair64 five_in_eax_edx EAX EDX) mod 2 ^ 64
  ∧ ∀ r, r ≠ EAX → r ≠ EDX → regs m' r = regs five_in_eax_edx r.
Proof.
  apply (minus64bit_negates five_in_eax_edx EAX EDX EAX EDX).
  - discriminate.
  - discriminate.
  - intros r. destruct r; simpl; lia.
Defined.

(** *** The bytes of the binary emitter, read back *)

(** The first instruction of a byte sequence and the bytes behind it, by
    the opcode map of the IA-32 manual, for the opcodes that
    [bemit_minus64bit] uses: 8B /r mov, 1B /r sbb, 33 /r xor, 87 /r xchg
    (the register in the r/m field is the source in AT&T order), F7 /3
    neg, 83 /3 ib sbb with an immediate byte, and 90+r xchg with eax. *)
Definition decode_one (bytes : list emitted) : option (insn * list emitted) :=
  match bytes with
  | byte op :: rest =>
      if (0x90 <=? op) && (op <=? 0x97) then
        r ← reg_of_enc (op - 0x90); Some (xchgl EAX r, rest)
      else
        match rest with
        | byte m :: rest =>
            if modrm_mod m =? 3 then
              rm ← reg_of_enc (modrm_rm m);
              if op =? 0xF7 then
                if modrm_reg m =? 3 then Some (negl rm, rest) else None
              else if op =? 0x83 then
                match rest with
                | byte imm :: rest =>
                    if (modrm_reg m =? 3) && (imm =? 0) then Some (sbbl0 rm, rest) else None
                | _ => None
                end
              else
                reg ← reg_of_enc (modrm_reg m);
                if op =? 0x8B then Some (movl rm reg, rest)
                else if op =? 0x1B then Some (sbbl rm reg, rest)
                else if op =? 0x33 then Some (xorl rm reg, rest)
                else if op =? 0x87 then Some (xchgl rm reg, rest)
                else None
            else None
        | _ => None
        end
  | _ => None
  end.

(** The instructions of a byte sequence; every instruction has a byte, so
    the length of the sequence bounds their number. *)
Fixpoint decode_from (fuel : nat) (bytes : list emitted) : option (list insn) :=
  match bytes with
  | [] => Some []
  | _ =>
      match fuel with
      | O => None
      | S fuel' =>
          '(i, rest) ← decode_one bytes;
          tail ← decode_from fuel' rest;
          Some (i :: tail)
      end
  end.

Definition decode (bytes : list emitted) : option (list insn) :=
  decode_from (length bytes) bytes.

(** An exchange with eax has one encoding for both orders of its
    operands; it is read back with eax first. *)
Definition as_encoded (i : insn) : insn :=
  match i with
  | xchgl src dst =>
      if bool_decide (src = EAX) then xchgl EAX dst
      else if bool_decide (dst = EAX) then xchgl EAX src
      else xchgl src dst
  | _ => i
  end.

Lemma decode_one_bemit_insn (i : insn) (rest : list emitted) :
  decode_one (bemit_insn i ++ rest) = Some (as_encoded i, rest).
Proof.
  destruct i as [s d|s d|s d|r|r|s d];
    try destruct s; try destruct d; try destruct r; reflexivity.
Qed.

Lemma bemit_insn_length (i : insn) : (1 ≤ length (bemit_insn i))%nat.
Proof.
  destruct i as [s d|s d|s d|r|r|s d]; simpl; try lia.
  unfold bemit_helper_xchg. repeat case_bool_decide; simpl; lia.
Qed.

Lemma decode_from_bemit (code : list insn) (fuel : nat) :
  (length code ≤ fuel)%nat →
  decode_from fuel (concat (bemit_insn <$> code)) = Some (as_encoded <$> code).
Proof.
  revert fuel. induction code as [|i code IH]; intros fuel Hf.
  - by destruct fuel.
  - destruct fuel as [|fuel]; [simpl in Hf; lia|].
    simpl in Hf. rewrite fmap_cons. change (concat (?x :: ?l)) with (x ++ concat l).
    pose proof (bemit_insn_length i) as Hlen.
    destruct (bemit_insn i ++ concat (bemit_insn <$> code)) as [|e l] eqn:Heq.
    { apply (f_equal length) in Heq. rewrite length_app in Heq.
      change (length (@nil emitted)) with 0%nat in Heq. lia. }
    cbn [decode_from]. rewrite <- Heq, decode_one_bemit_insn. simpl.
    rewrite IH by lia. reflexivity.
Qed.

Lemma concat_bemit_length (code : list insn) :
  (length code ≤ length (concat (bemit_insn <$> code)))%nat.
Proof.
  induction code as [|i code IH]; [simpl; lia|].
  rewrite fmap_cons. change (concat (?x :: ?l)) with (x ++ concat l).
  rewrite length_app. cbn [length]. pose proof (bemit_insn_length i). lia.
Qed.

(** Machines that hold the same values. *)
Definition same (m1 m2 : machine) : Prop :=
  (∀ r, regs m1 r = regs m2 r) ∧ carry m1 = carry m2.

Lemma exec_same (m1 m2 : machine) (i : insn) :
  same m1 m2 → same (exec m1 (as_encoded i)) (exec m2 i).
Proof.
  intros [Hr Hc]. unfold same.
  destruct i as [s d|s d|s d|r|r|s d]; simpl; unfold borrow;
    try (rewrite ?Hr, ?Hc; split; [intros x; unfold upd; rewrite ?Hr; reflexivity|reflexivity]).
  repeat case_bool_decide; subst; simpl; (split; [|done]);
    intros x; unfold upd; rewrite ?Hr; repeat case_bool_decide; congruence.
Qed.

Lemma run_same (code : list insn) (m1 m2 : machine) :
  same m1 m2 → same (run m1 (as_encoded <$> code)) (run m2 code).
Proof.
  revert m1 m2. induction code as [|i code IH]; intros m1 m2 H; simpl; [done|].
  apply IH. by apply exec_same.
Qed.

(** The bytes that [bemit_minus64bit] writes are instructions by the
    opcode map, and on every machine these instructions have the effect
    of the lines that [emit_ia32_Minus64Bit] writes for the same
    registers: the same values in all registers and the same carry. *)
Theorem bemit_minus64bit_decodes (in_lo in_hi out_lo out_hi : gp_reg) :
  ∃ code, decode (bemit_minus64bit in_lo in_hi out_lo out_hi) = Some code
    ∧ ∀ m, same (run m code) (run m (emit_ia32_Minus64Bit in_lo in_hi out_lo out_hi)).
Proof.
  exists (as_encoded <$> emit_ia32_Minus64Bit in_lo in_hi out_lo out_hi).
  assert (Hb : bemit_minus64bit in_lo in_hi out_lo out_hi
               = concat (bemit_insn <$> emit_ia32_Minus64Bit in_lo in_hi out_lo out_hi)).
  { unfold bemit_minus64bit, emit_ia32_Minus64Bit.
    repeat case_bool_decide; simpl; rewrite ?app_nil_r, <- ?app_assoc; reflexivity. }
  split.
  - unfold decode. rewrite Hb. apply decode_from_bemit, concat_bemit_length.
  - intros m. apply run_same. by split.
Qed.

End Minus64Semantics.

(** ** Jumps and labels *)

Module Ia32JumpFacts.
Import Ia32Emitter Ia32Facts Ia32Nodes.

(** *** The binary Jcc against the textual one *)

(** The bytes of a line of the textual emitter, as [bemit_jp],
    [bemit_jcc] and [bemit_jmp] write them; the short [jp] over the branch
    is 7A with the distance 6. *)
Definition encode_line (l : asm_line) : list jump_emitted :=
  match l with
  | jp_L target => bemit_jp false target
  | jp_1f => (code <$> bemit8 0x7A) ++ (code <$> bemit8 0x06)
  | jcc_L cc target => bemit_jcc cc target
  | label_1 => []
  | fallthrough_comment _ => []
  | jmp_L target => bemit_jmp target
  end.

(** The number of bytes that an item takes in the output. *)
Definition emitted_size (e : jump_emitted) : Z :=
  match e with
  | code (byte _) => 1
  | code (long _) => 4
  | code (entity_long _ _ _) => 4
  | jmp_destination _ => 4
  end.

Definition code_size (l : list jump_emitted) : Z :=
  foldr (fun e n => emitted_size e + n) 0 l.

(** The case analysis of the two emitters of a Jcc. *)
Ltac jcc_cases :=
  repeat (cbv iota beta zeta;
          match goal with
          | H : can_be_fallthrough ?s ?p = _ |- context [can_be_fallthrough ?s ?p] =>
              rewrite H
          | |- context [negb (Z.land ?x ?y =? 0)] =>
              destruct (negb (Z.land x y =? 0)) eqn:?
          | |- context [can_be_fallthrough ?s ?p] =>
              destruct (can_be_fallthrough s p) eqn:?
          end).

(** [bemit_ia32_jcc] writes the bytes of the lines of [emit_ia32_Jcc],
    whatever the node and the block schedule; and where the textual
    emitter jumps over the branch to the local label 1, the distance 6 of
    the short jp is the size of the branch between the jp and the label. *)
Theorem bemit_ia32_jcc_text
    (C : cc_ops) (sched : nat → option nat) (verbose : bool) (node : jcc_node) :
  bemit_ia32_jcc C sched node
  = concat (encode_line <$> emit_ia32_Jcc C sched verbose node)
  ∧ ∀ pre post, emit_ia32_Jcc C sched verbose node = pre ++ jp_1f :: post →
      ∃ branch post', post = branch :: label_1 :: post'
                      ∧ code_size (encode_line branch) = 6.
Proof.
  unfold bemit_ia32_jcc, emit_ia32_Jcc. jcc_cases.
  all: destruct verbose; cbn -[bemit_jp bemit_jcc bemit_jmp bemit8];
    rewrite ?app_nil_r, <- ?app_assoc;
    (split; [reflexivity|]);
    intros [|l1 [|l2 [|l3 [|l4 pre]]]] post Heq; simplify_eq/=;
    try (exfalso; match goal with H : [] = ?p ++ _ |- _ => by destruct p end);
    eexists _, _; (split; [reflexivity|]); reflexivity.
Qed.

(** [bemit_jump] writes the bytes of the line of [emit_ia32_Jmp]. *)
Lemma bemit_jump_text (sched : nat → option nat) (verbose : bool) (node : cfop) :
  bemit_jump sched node = concat (encode_line <$> emit_ia32_Jmp sched verbose node).
Proof.
  unfold bemit_jump, emit_ia32_Jmp.
  destruct (can_be_fallthrough sched node); [by destruct verbose|].
  simpl. by rewrite ?app_nil_r.
Qed.

(** *** Labels of jump targets *)

(** The labels that the lines refer to. *)
Definition referenced_label (l : asm_line) : option nat :=
  match l with
  | jp_L target | jcc_L _ target | jmp_L target => Some target
  | jp_1f | label_1 | fallthrough_comment _ => None
  end.

Lemma gen_labels_pred_None (G : cfg) (block : nat) (preds : list nat) :
  foldl (gen_labels_pred G block) None preds = None.
Proof. induction preds; simpl; auto. Qed.

Lemma ia32_gen_labels_None (G : cfg) (blocks : list nat) :
  foldl (ia32_gen_labels G) None blocks = None.
Proof.
  induction blocks as [|b blocks IH]; simpl; [done|].
  unfold ia32_gen_labels at 2. by rewrite gen_labels_pred_None.
Qed.

(** Where the link of a node comes from. *)
Definition linked (G : cfg) (link : gmap nat nat) : Prop :=
  ∀ p B, link !! p = Some B →
    p ∈ get_Block_cfgpreds G B
    ∨ ∃ q, q ∈ get_Block_cfgpreds G B ∧ cf_exc_instr (cf_nodes G q) = Some p.

Lemma gen_labels_pred_linked (G : cfg) (block : nat) (preds : list nat)
      (link link' : gmap nat nat) (exc exc' : option (list (nat * nat))) :
  (∀ p, p ∈ preds → p ∈ get_Block_cfgpreds G block) →
  linked G link →
  foldl (gen_labels_pred G block) (Some (link, exc)) preds = Some (link', exc') →
  linked G link'.
Proof.
  revert link exc. induction preds as [|p preds IH]; intros link exc Hin Hl; simpl.
  - by intros [= <- <-].
  - destruct (cf_exc_instr (cf_nodes G p)) as [instr|] eqn:Hexc.
    + destruct exc as [l|]; simpl; [|by rewrite gen_labels_pred_None].
      apply IH; [set_solver|].
      intros q B. destruct (decide (q = instr)) as [->|Hq].
      * rewrite lookup_insert_eq. intros [= <-]. right. exists p. set_solver.
      * rewrite lookup_insert_ne by done.
        destruct (decide (q = p)) as [->|Hqp].
        -- rewrite lookup_insert_eq. intros [= <-]. left. set_solver.
        -- rewrite lookup_insert_ne by done. apply Hl.
    + apply IH; [set_solver|].
      intros q B. destruct (decide (q = p)) as [->|Hqp].
      * rewrite lookup_insert_eq. intros [= <-]. left. set_solver.
      * rewrite lookup_insert_ne by done. apply Hl.
Qed.

Lemma gen_labels_walk_linked (G : cfg) (blocks : list nat)
      (data : option (list (nat * nat))) (link : gmap nat nat)
      (exc : option (list (nat * nat))) :
  gen_labels_walk G blocks data = Some (link, exc) → linked G link.
Proof.
  unfold gen_labels_walk.
  assert (H : ∀ acc, (∀ l e, acc = Some (l, e) → linked G l) →
            foldl (ia32_gen_labels G) acc blocks = Some (link, exc) → linked G link).
  { induction blocks as [|b blocks IH]; intros acc Hacc; simpl.
    - intros ->. by eapply Hacc.
    - apply IH. intros l e Hle. destruct acc as [[l0 e0]|].
      + unfold ia32_gen_labels in Hle.
        eapply gen_labels_pred_linked; [| |exact Hle].
        * intros p Hp. apply list_elem_of_In. apply list_elem_of_In in Hp. by apply in_rev.
        * by eapply Hacc.
      + unfold ia32_gen_labels in Hle. by rewrite gen_labels_pred_None in Hle. }
  apply H. intros l e [= <- <-]. intros p B. by rewrite lookup_empty.
Qed.

(** The links of the block schedule name every block at most once as the
    block before another one. *)
Definition prev_inv (l : list nat) (prev : option nat) (link : gmap nat (option nat)) : Prop :=
  NoDup l
  ∧ (∀ q, prev = Some q → ¬ q ∈ l)
  ∧ (∀ b q, link !! b = Some (Some q) → ¬ q ∈ l ∧ prev ≠ Some q)
  ∧ (∀ b1 b2 q, link !! b1 = Some (Some q) → link !! b2 = Some (Some q) → b1 = b2).

Lemma next_block_links_injective (l : list nat) (prev : option nat)
      (link : gmap nat (option nat)) :
  prev_inv l prev link →
  ∀ b1 b2 q, next_block_links l prev link !! b1 = Some (Some q) →
             next_block_links l prev link !! b2 = Some (Some q) → b1 = b2.
Proof.
  revert prev link. induction l as [|b l IH]; intros prev link (Hnd & Hp & Hv & Hi); simpl.
  - exact Hi.
  - apply IH. apply NoDup_cons in Hnd as [Hb Hnd]. split_and!.
    + done.
    + intros q [= <-]. done.
    + intros b' q. destruct (decide (b' = b)) as [->|Hne].
      * rewrite lookup_insert_eq. intros [= Hpq]. specialize (Hp q Hpq). split.
        -- set_solver.
        -- intros [= Hbq]. set_solver.
      * rewrite lookup_insert_ne by done. intros Hl.
        destruct (Hv _ _ Hl) as [Hq Hprev]. split; [set_solver|].
        intros [= ->]. set_solver.
    + intros b1 b2 q.
      destruct (decide (b1 = b)) as [->|H1], (decide (b2 = b)) as [->|H2];
        rewrite ?lookup_insert_eq, ?lookup_insert_ne by done; try done.
      * intros [= ->] Hl. by destruct (Hv _ _ Hl).
      * intros Hl [= ->]. by destruct (Hv _ _ Hl).
      * apply Hi.
Qed.

Lemma prev_block_sched_injective (blk_sched : list nat) (b1 b2 q : nat) :
  NoDup blk_sched →
  get_prev_block_sched (next_block_links blk_sched None ∅) b1 = Some q →
  get_prev_block_sched (next_block_links blk_sched None ∅) b2 = Some q →
  b1 = b2.
Proof.
  intros Hnd. unfold get_prev_block_sched. intros H1 H2.
  apply (next_block_links_injective blk_sched None ∅) with q.
  - split_and!; [done|done| |]; intros *; by rewrite lookup_empty.
  - destruct (_ !! b1) as [[?|]|]; simpl in H1; by simplify_eq.
  - destruct (_ !! b2) as [[?|]|]; simpl in H2; by simplify_eq.
Qed.

Lemma label_needed_not_fallthrough (G : cfg) (link : gmap nat (option nat)) (p T : nat) :
  p ∈ get_Block_cfgpreds G T →
  get_prev_block_sched link T ≠ Some (cf_block (cf_nodes G p)) →
  block_needs_label G link T = true.
Proof.
  intros Hin Hprev. unfold block_needs_label.
  case_bool_decide; [done|].
  destruct (get_Block_cfgpreds G T) as [|c [|c' l]]; [set_solver| |done].
  apply list_elem_of_singleton in Hin as ->.
  by rewrite bool_decide_eq_false_2.
Qed.

Lemma label_needed_two_preds (G : cfg) (link : gmap nat (option nat)) (p q T : nat) :
  p ≠ q → p ∈ get_Block_cfgpreds G T → q ∈ get_Block_cfgpreds G T →
  block_needs_label G link T = true.
Proof.
  intros Hne Hp Hq. unfold block_needs_label.
  case_bool_decide; [done|].
  destruct (get_Block_cfgpreds G T) as [|c [|c' l]]; [set_solver| |done].
  apply list_elem_of_singleton in Hp, Hq. congruence.
Qed.

(** Every label that the lines of a Jcc refer to is the label of a block
    that is given one.  The links are those that [ia32_gen_routine] sets:
    the target of a control flow node by [ia32_gen_labels], the block
    before a block from the block schedule, which names every block once.
    The two Projs [t] and [f] of the Jcc are different nodes of the block
    of the Jcc, and neither is the instruction behind a predecessor that
    carries an exception label. *)
Theorem jcc_labels_needed
    (C : cc_ops) (verbose : bool) (G : cfg) (blocks blk_sched : list nat)
    (data exc : option (list (nat * nat))) (link : gmap nat nat)
    (node : jcc_node) (t f : nat) :
  let prev := next_block_links blk_sched None ∅ in
  NoDup blk_sched →
  gen_labels_walk G blocks data = Some (link, exc) →
  t ≠ f →
  (∀ p, cf_exc_instr (cf_nodes G p) ≠ Some t ∧ cf_exc_instr (cf_nodes G p) ≠ Some f) →
  link !! t = Some (cfop_target_block (jcc_proj_true node)) →
  link !! f = Some (cfop_target_block (jcc_proj_false node)) →
  cf_block (cf_nodes G t) = cfop_block (jcc_proj_true node) →
  cf_block (cf_nodes G f) = cfop_block (jcc_proj_false node) →
  cfop_block (jcc_proj_true node) = cfop_block (jcc_proj_false node) →
  ∀ line L, line ∈ emit_ia32_Jcc C (get_prev_block_sched prev) verbose node →
            referenced_label line = Some L →
            block_needs_label G prev L = true.
Proof.
  intros prev Hnd Hwalk Htf Hexc Hlt Hlf Hbt Hbf Hsame line L Hline HL.
  pose proof (gen_labels_walk_linked _ _ _ _ _ Hwalk) as Hlinked.
  assert (Ht : t ∈ get_Block_cfgpreds G (cfop_target_block (jcc_proj_true node))).
  { destruct (Hlinked _ _ Hlt) as [H|(q & _ & Hq)]; [done|]. by destruct (Hexc q). }
  assert (Hf : f ∈ get_Block_cfgpreds G (cfop_target_block (jcc_proj_false node))).
  { destruct (Hlinked _ _ Hlf) as [H|(q & _ & Hq)]; [done|]. by destruct (Hexc q). }
  (* a target that is not fallen into has a label *)
  assert (Hnt : can_be_fallthrough (get_prev_block_sched prev) (jcc_proj_true node) = false →
                block_needs_label G prev (cfop_target_block (jcc_proj_true node)) = true).
  { unfold can_be_fallthrough. intros H%bool_decide_eq_false.
    apply (label_needed_not_fallthrough G prev t); [done|]. by rewrite Hbt. }
  assert (Hnf : can_be_fallthrough (get_prev_block_sched prev) (jcc_proj_false node) = false →
                block_needs_label G prev (cfop_target_block (jcc_proj_false node)) = true).
  { unfold can_be_fallthrough. intros H%bool_decide_eq_false.
    apply (label_needed_not_fallthrough G prev f); [done|]. by rewrite Hbf. }
  (* both sides fall through: one block with two predecessors *)
  assert (Hboth : can_be_fallthrough (get_prev_block_sched prev) (jcc_proj_true node) = true →
                  can_be_fallthrough (get_prev_block_sched prev) (jcc_proj_false node) = true →
                  block_needs_label G prev (cfop_target_block (jcc_proj_false node)) = true).
  { unfold can_be_fallthrough. intros H1%bool_decide_eq_true H2%bool_decide_eq_true.
    rewrite Hsame in H1.
    pose proof (prev_block_sched_injective blk_sched _ _ _ Hnd H1 H2) as Heq.
    apply (label_needed_two_preds G prev t f); [done| |done]. by rewrite <- Heq. }
  revert line Hline L HL. unfold emit_ia32_Jcc. jcc_cases.
  all: intros line Hline L HL; destruct verbose; simpl in Hline;
    repeat (apply elem_of_cons in Hline as [->|Hline]);
    try (by apply elem_of_nil in Hline);
    simpl in HL; simplify_eq; auto.
  all: destruct (can_be_fallthrough (get_prev_block_sched prev) (jcc_proj_false node));
    auto.
Qed.

(** *** The exception list of the label walk *)

(** The entries that the predecessors [preds] of [block] add to the
    exception list. *)
Definition exc_entries (G : cfg) (block : nat) (preds : list nat) : list (nat * nat) :=
  omap (fun pred => (fun instr => (instr, block)) <$> cf_exc_instr (cf_nodes G pred)) preds.

Definition walk_exc_entries (G : cfg) (blocks : list nat) : list (nat * nat) :=
  concat ((fun block => exc_entries G block (rev (get_Block_cfgpreds G block))) <$> blocks).

Lemma gen_labels_preds_exc (G : cfg) (block : nat) (preds : list nat)
      (link : gmap nat nat) (l : list (nat * nat)) :
  ∃ link', foldl (gen_labels_pred G block) (Some (link, Some l)) preds
           = Some (link', Some (l ++ exc_entries G block preds)).
Proof.
  revert link l. induction preds as [|p preds IH]; intros link l; simpl.
  - exists link. by rewrite app_nil_r.
  - unfold exc_entries. simpl.
    destruct (cf_exc_instr (cf_nodes G p)) as [instr|]; simpl.
    + destruct (IH (<[instr := block]> (<[p := block]> link)) (l ++ [(instr, block)]))
        as [link' ->].
      exists link'. by rewrite <- app_assoc.
    + apply IH.
Qed.

Lemma gen_labels_preds_null (G : cfg) (block : nat) (preds : list nat) (link : gmap nat nat) :
  (exc_entries G block preds = []
   ∧ ∃ link', foldl (gen_labels_pred G block) (Some (link, None)) preds = Some (link', None))
  ∨ (exc_entries G block preds ≠ []
     ∧ foldl (gen_labels_pred G block) (Some (link, None)) preds = None).
Proof.
  revert link. induction preds as [|p preds IH]; intros link; simpl.
  - left. split; [done|]. by exists link.
  - unfold exc_entries. simpl.
    destruct (cf_exc_instr (cf_nodes G p)) as [instr|]; simpl.
    + right. split; [done|]. apply gen_labels_pred_None.
    + apply IH.
Qed.

Lemma walk_exc_entries_elem (G : cfg) (blocks : list nat) :
  walk_exc_entries G blocks ≠ [] ↔
  ∃ block pred, block ∈ blocks ∧ pred ∈ get_Block_cfgpreds G block
                ∧ is_Some (cf_exc_instr (cf_nodes G pred)).
Proof.
  unfold walk_exc_entries. induction blocks as [|b blocks IH]; simpl.
  - split; [done|]. intros (block & pred & H & _). by apply elem_of_nil in H.
  - destruct (exc_entries G b (rev (get_Block_cfgpreds G b))) as [|e es] eqn:He; simpl.
    + rewrite IH. split.
      * intros (block & pred & H1 & H2). exists block, pred. split; [by right|done].
      * intros (block & pred & [->|H1]%elem_of_cons & H2 & [instr H3]);
          [|exists block, pred; by split_and!].
        exfalso.
        assert (Hin : (instr, b) ∈ exc_entries G b (rev (get_Block_cfgpreds G b))).
        { apply list_elem_of_omap. exists pred. rewrite H3. split; [|done].
          apply list_elem_of_In, in_rev. rewrite rev_involutive. by apply list_elem_of_In. }
        rewrite He in Hin. by apply elem_of_nil in Hin.
    + split; [|done]. intros _.
      assert (Hin : e ∈ exc_entries G b (rev (get_Block_cfgpreds G b))) by (rewrite He; by left).
      apply list_elem_of_omap in Hin as (pred & Hpred & Hexc).
      exists b, pred. split; [by left|].
      split; [apply list_elem_of_In, in_rev; by apply list_elem_of_In|].
      destruct (cf_exc_instr (cf_nodes G pred)); [by eexists|done].
Qed.

(** The label walk and its exception list.  With the array that the
    textual routine hands over, the walk goes through, and afterwards
    the array holds in addition, block by block in the order of the
    walk, the instructions with an exception label behind the
    predecessors, from the last predecessor to the first.  With NULL
    for the array, as the binary routine calls it, the walk goes through
    if and only if no predecessor of a walked block has an instruction
    with an exception label behind it. *)
Theorem gen_labels_walk_exceptions (G : cfg) (blocks : list nat) :
  (∀ l, ∃ link, gen_labels_walk G blocks (Some l)
                = Some (link, Some (l ++ walk_exc_entries G blocks)))
  ∧ (gen_labels_walk G blocks None = None ↔
     ∃ block pred, block ∈ blocks ∧ pred ∈ get_Block_cfgpreds G block
                   ∧ is_Some (cf_exc_instr (cf_nodes G pred))).
Proof.
  unfold gen_labels_walk. split.
  - generalize (∅ : gmap nat nat).
    induction blocks as [|b blocks IH]; intros link l; simpl.
    + exists link. unfold walk_exc_entries. simpl. by rewrite app_nil_r.
    + unfold ia32_gen_labels at 2.
      destruct (gen_labels_preds_exc G b (rev (get_Block_cfgpreds G b)) link l) as [link1 ->].
      destruct (IH link1 (l ++ exc_entries G b (rev (get_Block_cfgpreds G b)))) as [link2 ->].
      exists link2. unfold walk_exc_entries. simpl. by rewrite <- app_assoc.
  - rewrite <- walk_exc_entries_elem. generalize (∅ : gmap nat nat).
    unfold walk_exc_entries.
    induction blocks as [|b blocks IH]; intros link; simpl.
    + split; [done|]. by intros [].
    + unfold ia32_gen_labels at 2.
      destruct (gen_labels_preds_null G b (rev (get_Block_cfgpreds G b)) link)
        as [(-> & link1 & ->)|(Hne & ->)].
      * simpl. apply IH.
      * rewrite ia32_gen_labels_None. split; [intros _|done].
        destruct (exc_entries G b _); [done|]. done.
Qed.

(** The blocks 0, 1, 2 in this order; the Jcc of block 0 has the Projs
    10 (true, to block 1) and 11 (false, to block 2). *)
Definition jcc_cfg : cfg :=
  mk_cfg (fun _ => None)
         (fun block => match block with
                       | 1%nat => [10%nat]
                       | 2%nat => [11%nat]
                       | _ => []
                       end)
         (fun _ => mk_cf 0 true false None).

Lemma jcc_labels_needed_witness :
  let prev := next_block_links [0; 1; 2]%nat None ∅ in
  emit_ia32_Jcc libfirm_cc (get_prev_block_sched prev) false (jcc_in_B0 ia32_cc_less)
    = [jcc_L ia32_cc_greater_equal 2]
  ∧ block_needs_label jcc_cfg prev 2 = true.
Proof.
  split; [vm_compute; reflexivity|].
  apply (jcc_labels_needed libfirm_cc false jcc_cfg [0; 1; 2]%nat [0; 1; 2]%nat
           (Some []) (Some []) (<[11%nat := 2%nat]> (<[10%nat := 1%nat]> ∅))
           (jcc_in_B0 ia32_cc_less) 10%nat 11%nat)
    with (line := jcc_L ia32_cc_greater_equal 2).
  - apply (bool_decide_unpack _). vm_compute. exact I.
  - vm_compute. reflexivity.
  - lia.
  - intros p. split; discriminate.
  - vm_compute. reflexivity.
  - vm_compute. reflexivity.
  - reflexivity.
  - reflexivity.
  - reflexivity.
  - apply (bool_decide_unpack _). vm_compute. exact I.
  - reflexivity.
Defined.

End Ia32JumpFacts.

(** ** IncSP, CopyB and CMovcc *)

Module Ia32NodeFacts.
Import Ia32Emitter Ia32Facts Ia32Nodes Ia32Opcodes.

(** *** IncSP *)

(** An instruction of the group 83 /r ib (the immediate byte is extended
    with its sign) or 81 /r id on a register, where /5 is sub and /0 is
    add: the register and the instruction as the textual emitter prints
    it. *)
Definition decode_incsp (bytes : list emitted) : option (gp_reg * incsp_line) :=
  match bytes with
  | [byte op; byte m; imm] =>
      if modrm_mod m =? 3 then
        reg ← reg_of_enc (modrm_rm m);
        v ← (if op =? 0x83 then
               match imm with byte b => Some (sext8 b mod 2 ^ 32) | _ => None end
             else if op =? 0x81 then
               match imm with long v => Some v | _ => None end
             else None);
        if modrm_reg m =? 5 then Some (reg, subl_imm v)
        else if modrm_reg m =? 0 then Some (reg, addl_imm v)
        else None
      else None
  | _ => None
  end.

Lemma modru_fields (reg : gp_reg) (ext : Z) :
  0 ≤ ext < 8 →
  ∃ m, bemit_modru reg ext = [byte m]
       ∧ modrm_mod m = 3 ∧ modrm_rm m = reg_gp_map reg ∧ modrm_reg m = ext.
Proof.
  intros Hext. eexists. split; [reflexivity|].
  assert (H : ext = 0 ∨ ext = 1 ∨ ext = 2 ∨ ext = 3 ∨ ext = 4 ∨ ext = 5 ∨ ext = 6 ∨ ext = 7)
    by lia.
  destruct H as [-> | [-> | [-> | [-> | [-> | [-> | [-> | ->]]]]]]];
    destruct reg; vm_compute; done.
Qed.

(** The binary emitter and the textual emitter of IncSP agree: for the
    offset 0 neither writes anything; otherwise the bytes of
    [bemit_incsp] are the instruction that [emit_be_IncSP] prints, on the
    register of the node, and the short form with an immediate byte is
    chosen only where the sign extension of the byte gives the offset
    back. *)
Theorem bemit_incsp_text (reg : gp_reg) (offs : Z) :
  - 2 ^ 31 ≤ offs < 2 ^ 31 →
  match emit_be_IncSP offs with
  | [] => bemit_incsp reg offs = []
  | [line] => decode_incsp (bemit_incsp reg offs) = Some (reg, line)
  | _ => False
  end.
Proof.
  intros Hoffs. unfold emit_be_IncSP, bemit_incsp.
  destruct (Z.eqb_spec offs 0) as [->|Hz]; [done|].
  destruct (Z.gtb_spec offs 0) as [Hpos|Hneg].
  - (* sub *)
    destruct (modru_fields reg 5 ltac:(lia)) as (m & -> & Hmod & Hrm & Hreg).
    unfold get_signed_imm_size.
    destruct (Z.leb_spec (-128) offs); [|lia].
    destruct (Z.ltb_spec offs 128); simpl.
    + rewrite Hmod, Hrm, Hreg, reg_of_enc_map. simpl.
      rewrite sext8_byte by lia. reflexivity.
    + assert (Hs : ((if (-32768 <=? offs) && (offs <? 32768) then 2 else 4) =? 1) = false).
      { by destruct ((-32768 <=? offs) && (offs <? 32768)). }
      rewrite Hs. simpl. rewrite Hmod, Hrm, Hreg, reg_of_enc_map. reflexivity.
  - (* add *)
    destruct (modru_fields reg 0 ltac:(lia)) as (m & -> & Hmod & Hrm & Hreg).
    set (v := int32 (- offs)).
    assert (Hv : v = - offs ∨ (offs = - 2 ^ 31 ∧ v = - 2 ^ 31)).
    { unfold v, int32. destruct (Z.eq_dec offs (- 2 ^ 31)) as [->|Hmin].
      - right. split; reflexivity.
      - left. rewrite Z.mod_small; lia. }
    unfold get_signed_imm_size.
    destruct ((-128 <=? v) && (v <? 128)) eqn:Hsmall; simpl.
    + apply andb_true_iff in Hsmall as [H1%Z.leb_le H2%Z.ltb_lt].
      rewrite Hmod, Hrm, Hreg, reg_of_enc_map. simpl.
      rewrite sext8_byte by lia. reflexivity.
    + assert (Hs : ((if (-32768 <=? v) && (v <? 32768) then 2 else 4) =? 1) = false).
      { by destruct ((-32768 <=? v) && (v <? 32768)). }
      rewrite Hs. simpl. rewrite Hmod, Hrm, Hreg, reg_of_enc_map. reflexivity.
Qed.

Lemma bemit_incsp_text_witness :
  match emit_be_IncSP (-16) with
  | [] => bemit_incsp ESP (-16) = []
  | [line] => decode_incsp (bemit_incsp ESP (-16)) = Some (ESP, line)
  | _ => False
  end.
Proof. apply (bemit_incsp_text ESP (-16)). lia. Defined.

(** *** CopyB *)

(** The number of bytes that a string move copies. *)
Definition movs_width (m : movs) : Z :=
  match m with
  | movsb => 1
  | movsw => 2
  | movsd => 4
  end.

Definition bytes_copied (l : list movs) : Z := foldr (fun m n => movs_width m + n) 0 l.

(** The opcodes of the string moves: A4, A5 with the operand size prefix
    66, and A5. *)
Definition encode_movs (m : movs) : list emitted :=
  match m with
  | movsb => [byte 0xA4]
  | movsw => [byte 0x66; byte 0xA5]
  | movsd => [byte 0xA5]
  end.

Lemma bytes_copied_app (l1 l2 : list movs) :
  bytes_copied (l1 ++ l2) = bytes_copied l1 + bytes_copied l2.
Proof. induction l1 as [|m l1 IH]; simpl; [done|]. rewrite IH. lia. Qed.

Lemma movsd_loop_copied (n : nat) : bytes_copied (movsd_loop n) = 4 * Z.of_nat n.
Proof. induction n as [|n IH]; [done|]. simpl movsd_loop. simpl bytes_copied. lia. Qed.

Lemma movsl_loop_encode (n : nat) : movsl_loop n = concat (encode_movs <$> movsd_loop n).
Proof. induction n as [|n IH]; [done|]. simpl. by rewrite IH. Qed.

Lemma land_low_bits (size : Z) :
  0 ≤ size →
  (if negb (Z.land size 1 =? 0) then 1 else 0)
  + (if negb (Z.land size 2 =? 0) then 2 else 0) = size mod 4.
Proof.
  intros Hs.
  assert (H1 : Z.land size 1 = Z.land (size mod 4) 1).
  { change 4 with (2 ^ 2). rewrite <- Z.land_ones by lia.
    rewrite <- Z.land_assoc. reflexivity. }
  assert (H2 : Z.land size 2 = Z.land (size mod 4) 2).
  { change 4 with (2 ^ 2). rewrite <- Z.land_ones by lia.
    rewrite <- Z.land_assoc. reflexivity. }
  rewrite H1, H2.
  assert (Hm : 0 ≤ size mod 4 < 4) by (apply Z.mod_pos_bound; lia).
  assert (Hc : size mod 4 = 0 ∨ size mod 4 = 1 ∨ size mod 4 = 2 ∨ size mod 4 = 3) by lia.
  destruct Hc as [-> | [-> | [-> | ->]]]; reflexivity.
Qed.

(** The unrolled memcopy moves exactly [size] bytes, and [bemit_copybi]
    writes the opcodes of the same string moves. *)
Theorem copyb_i_copies_size (size : Z) :
  0 ≤ size →
  bytes_copied (emit_ia32_CopyB_i size) = size
  ∧ bemit_copybi size = concat (encode_movs <$> emit_ia32_CopyB_i size).
Proof.
  intros Hs. split.
  - unfold emit_ia32_CopyB_i, emit_CopyB_prolog.
    rewrite !bytes_copied_app, movsd_loop_copied.
    rewrite Z2Nat.id by (apply Z.shiftr_nonneg; lia).
    rewrite Z.shiftr_div_pow2 by lia. change (2 ^ 2) with 4.
    pose proof (land_low_bits size Hs) as Hlow.
    pose proof (Z.div_mod size 4 ltac:(lia)) as Hdm.
    destruct (negb (Z.land size 1 =? 0)), (negb (Z.land size 2 =? 0));
      simpl bytes_copied; simpl in Hlow; lia.
  - unfold bemit_copybi, emit_ia32_CopyB_i, emit_CopyB_prolog.
    rewrite movsl_loop_encode.
    destruct (negb (Z.land size 1 =? 0)), (negb (Z.land size 2 =? 0)); reflexivity.
Qed.

Lemma copyb_i_copies_size_witness :
  bytes_copied (emit_ia32_CopyB_i 11) = 11
  ∧ bemit_copybi 11 = concat (encode_movs <$> emit_ia32_CopyB_i 11).
Proof. apply (copyb_i_copies_size 11). lia. Defined.

(** *** CMovcc *)

(** The bytes of a line of [emit_ia32_CMovcc]: 8B /r for the move, 0F
    40+cc /r for the conditional move, from a register or from the
    address mode. *)
Definition encode_cmov (l : cmov_line) : option (list emitted) :=
  match l with
  | cmov_movl src dst => Some (bemit8 0x8B ++ bemit_modrr src dst)
  | cmovcc cc (inl src) dst =>
      Some (bemit8 0x0F ++ bemit8 (Z.lor 0x40 (pnc2cc cc)) ++ bemit_modrr src dst)
  | cmovcc cc (inr am) dst =>
      operand ← bemit_mod_am (reg_gp_map dst) am;
      Some (bemit8 0x0F ++ bemit8 (Z.lor 0x40 (pnc2cc cc)) ++ operand)
  end.

Definition encode_cmovs (lines : list cmov_line) : option (list emitted) :=
  l ← mapM encode_cmov lines; Some (concat l).


(** A CMovcc on registers: the result in EAX, the true value in ECX,
    the false value in EDX. *)
Definition cmov_less : cmov_node :=
  mk_cmov ia32_cc_less false false EAX (Some ECX) EDX None.

Lemma libfirm_cc_negate_twice (cc : Z) :
  ia32_negate_condition_code libfirm_cc (ia32_negate_condition_code libfirm_cc cc) = cc.
Proof. simpl. by rewrite Z.lxor_assoc, Z.lxor_nilpotent, Z.lxor_0_r. Qed.


(** The flags, and when a condition code holds for them; the header with
    the condition codes is not at hand, so the second is a parameter of
    what follows. *)
Section CMovSemantics.
Context {flags : Type} (holds : Z → flags → bool).

(** The effect of a line on the registers: a conditional move writes the
    destination when the condition holds. *)
Definition exec_cmov (fl : flags) (regs : gp_reg → Z) (l : cmov_line) : option (gp_reg → Z) :=
  match l with
  | cmov_movl src dst => Some (fun r => if bool_decide (r = dst) then regs src else regs r)
  | cmovcc cc (inl src) dst =>
      Some (fun r => if bool_decide (r = dst) && holds cc fl then regs src else regs r)
  | cmovcc cc (inr _) dst => None
  end.

Fixpoint run_cmov (fl : flags) (regs : gp_reg → Z) (lines : list cmov_line)
  : option (gp_reg → Z) :=
  match lines with
  | [] => Some regs
  | l :: lines' => regs' ← exec_cmov fl regs l; run_cmov fl regs' lines'
  end.

(** The lines of a CMovcc on registers select between the two values:
    afterwards the result register holds the true value when the
    condition of the node holds (negated for permuted inputs), the false
    value otherwise, and every other register is as before. *)
Theorem cmovcc_selects (C : cc_ops) (node : cmov_node) (in_true : gp_reg)
    (lines : list cmov_line) (fl : flags) (regs : gp_reg → Z) :
  (∀ cc fl, holds (ia32_negate_condition_code C cc) fl = negb (holds cc fl)) →
  cmov_am node = None →
  cmov_in_true node = Some in_true →
  emit_ia32_CMovcc C node = Some lines →
  let cc := cmov_final_cc C node (cmov_condcode node) in
  let cc := if cmov_ins_permuted node then ia32_negate_condition_code C cc else cc in
  ∃ regs', run_cmov fl regs lines = Some regs'
    ∧ regs' (cmov_out node)
      = (if holds cc fl then regs in_true else regs (cmov_in_false node))
    ∧ ∀ r, r ≠ cmov_out node → regs' r = regs r.
Proof.
  intros Hneg Ham Htrue. unfold emit_ia32_CMovcc. rewrite Ham, Htrue.
  destruct node as [cc0 fp ip out it in_false am]; simpl in *. subst.
  set (cc := if ip then _ else _). clearbody cc.
  destruct (decide (out = in_false)) as [->|Hof].
  - rewrite bool_decide_eq_true_2 by done. simpl.
    destruct (negb (Z.land cc _ =? 0)); simpl; [done|]. intros [= <-]. simpl.
    eexists. split; [reflexivity|]. simpl. split.
    + rewrite bool_decide_eq_true_2 by done. simpl. by destruct (holds cc fl).
    + intros r Hr. by rewrite bool_decide_eq_false_2.
  - rewrite (bool_decide_eq_false_2 (out = in_false)) by done.
    destruct (decide (Some out = Some in_true)) as [[= <-]|Hot].
    + rewrite bool_decide_eq_true_2 by done. simpl.
      destruct (negb (Z.land _ _ =? 0)); simpl; [done|]. intros [= <-]. simpl.
      eexists. split; [reflexivity|]. simpl. split.
      * rewrite bool_decide_eq_true_2 by done. simpl. rewrite Hneg.
        by destruct (holds cc fl).
      * intros r Hr. by rewrite bool_decide_eq_false_2.
    + rewrite (bool_decide_eq_false_2 (Some out = Some in_true)) by done. simpl.
      destruct (negb (Z.land cc _ =? 0)); simpl; [done|]. intros [= <-]. simpl.
      eexists. split; [reflexivity|]. simpl. split.
      * rewrite !bool_decide_eq_true_2 by done. simpl.
        assert (in_true ≠ out) by congruence.
        destruct (holds cc fl); [|done]. case_bool_decide; congruence.
      * intros r Hr. repeat case_bool_decide; simpl; congruence.
Qed.
End CMovSemantics.

(** Flags that record whether the condition of an even code holds; bit
    0 of a code negates. *)
Definition cc_holds (cc : Z) (base : bool) : bool := xorb (Z.testbit cc 0) base.

Lemma cc_holds_negate (cc : Z) (fl : bool) :
  cc_holds (ia32_negate_condition_code libfirm_cc cc) fl = negb (cc_holds cc fl).
Proof.
  unfold cc_holds. change (ia32_negate_condition_code libfirm_cc cc) with (Z.lxor cc 1).
  rewrite Z.lxor_spec. change (Z.testbit 1 0) with true.
  by destruct (Z.testbit cc 0), fl.
Qed.

Lemma cmovcc_selects_witness :
  ∃ regs', run_cmov cc_holds true reg_gp_map
             [cmov_movl EDX EAX; cmovcc ia32_cc_less (inl ECX) EAX] = Some regs'
    ∧ regs' EAX = (if cc_holds ia32_cc_less true then reg_gp_map ECX else reg_gp_map EDX)
    ∧ ∀ r, r ≠ EAX → regs' r = reg_gp_map r.
Proof.
  apply (cmovcc_selects cc_holds libfirm_cc cmov_less ECX
           [cmov_movl EDX EAX; cmovcc ia32_cc_less (inl ECX) EAX] true reg_gp_map).
  - exact cc_holds_negate.
  - reflexivity.
  - reflexivity.
  - reflexivity.
Defined.

End Ia32NodeFacts.

(** ** Address modes, read back *)

Module Ia32AddressFacts.
Import Ia32Emitter Ia32Facts Ia32Nodes Ia32Opcodes.

(** *** The address mode bytes, read back *)

(** What a memory operand denotes: base + index * 2^scale + displacement. *)
Record address := mk_address {
  a_base  : option gp_reg;
  a_index : option gp_reg;
  a_scale : Z;
  a_disp  : Z
}.

(** The fields of a SIB byte. *)
Definition sib_scale (b : Z) : Z := Z.shiftr b 6.
Definition sib_index (b : Z) : Z := Z.land (Z.shiftr b 3) 7.
Definition sib_base (b : Z) : Z := Z.land b 7.

(** The displacement behind the ModR/M and SIB bytes: a byte for mod 01,
    32 bits for mod 10 and for mod 00 without base, none otherwise. *)
Definition decode_disp (md : Z) (no_base : bool) (bytes : list emitted)
  : option (Z * list emitted) :=
  if md =? 1 then
    match bytes with
    | byte d :: rest => Some (sext8 d, rest)
    | _ => None
    end
  else if (md =? 2) || no_base then
    match bytes with
    | long d :: rest => Some (sext32 d, rest)
    | _ => None
    end
  else Some (0, bytes).

(** A memory operand, by the ModR/M and SIB tables of the IA-32 manual:
    the reg field, the address, and the bytes behind the operand.  The
    r/m value 100 announces a SIB byte; the index value 100 is no index;
    the base value 101 with mod 00 is no base, with a displacement of 32
    bits. *)
Definition decode_mod_am (bytes : list emitted) : option (Z * address * list emitted) :=
  match bytes with
  | byte m :: rest =>
      let md := modrm_mod m in
      let rm := modrm_rm m in
      if md =? 3 then None
      else
        r ← (if rm =? 4 then
               match rest with
               | byte s :: rest => Some (Some s, rest)
               | _ => None
               end
             else Some (None, rest));
        let '(sib, rest) := r in
        let base_enc := match sib with Some s => sib_base s | None => rm end in
        let no_base := (md =? 0) && (base_enc =? 5) in
        base ← (if no_base then Some None else Some <$> reg_of_enc base_enc);
        index ← match sib with
                | Some s => if sib_index s =? 4 then Some None
                            else Some <$> reg_of_enc (sib_index s)
                | None => Some None
                end;
        let scale := match sib with
                     | Some s => if sib_index s =? 4 then 0 else sib_scale s
                     | None => 0
                     end in
        d ← decode_disp md no_base rest;
        let '(disp, rest) := d in
        Some (modrm_reg m, mk_address base index scale disp, rest)
  | _ => None
  end.

#[global] Arguments decode_mod_am : simpl never.

(** The address that the attributes of a node ask for. *)
Definition address_of (node : am_node) : address :=
  mk_address (am_base node) (am_index node)
             (match am_index node with Some _ => am_scale node | None => 0 end)
             (am_offs node).

Lemma modrm_byte_fields (m rm reg : Z) :
  m = MOD_IND ∨ m = MOD_IND_BYTE_OFS ∨ m = MOD_IND_WORD_OFS →
  0 ≤ rm < 8 → 0 ≤ reg < 8 →
  let b := Z.lor (Z.lor m (ENC_RM rm)) (ENC_REG reg) mod 2 ^ 8 in
  modrm_mod b = Z.shiftr m 6 ∧ modrm_rm b = rm ∧ modrm_reg b = reg.
Proof.
  intros Hm Hrm Hreg. cases_lt_8 Hrm; cases_lt_8 Hreg;
    destruct Hm as [-> | [-> | ->]]; vm_compute; done.
Qed.

Lemma sib_byte_fields (scale idx base : Z) :
  0 ≤ scale < 4 → 0 ≤ idx < 8 → 0 ≤ base < 8 →
  let b := ENC_SIB scale idx base mod 2 ^ 8 in
  sib_scale b = scale ∧ sib_index b = idx ∧ sib_base b = base.
Proof.
  intros Hs Hi Hb.
  assert (Hs' : scale = 0 ∨ scale = 1 ∨ scale = 2 ∨ scale = 3) by lia.
  cases_lt_8 Hi; cases_lt_8 Hb;
    destruct Hs' as [-> | [-> | [-> | ->]]]; vm_compute; done.
Qed.

Lemma classify_offs_cases (offs : Z) :
  (classify_offs offs = offs_zero ∧ offs = 0)
  ∨ (classify_offs offs = offs_byte ∧ -128 ≤ offs < 128 ∧ offs ≠ 0)
  ∨ (classify_offs offs = offs_word ∧ ¬ (-128 ≤ offs < 128)).
Proof.
  unfold classify_offs.
  destruct (Z.eqb_spec offs 0); [by left|].
  destruct (Z.leb_spec (-128) offs), (Z.ltb_spec offs 128); simpl;
    [right; left|right; right..]; split; try done; lia.
Qed.

Lemma mod_not_reg (m : Z) :
  m = MOD_IND ∨ m = MOD_IND_BYTE_OFS ∨ m = MOD_IND_WORD_OFS → (Z.shiftr m 6 =? 3) = false.
Proof. by intros [-> | [-> | ->]]. Qed.

Lemma decode_no_sib (m rm reg : Z) (tail : list emitted) :
  m = MOD_IND ∨ m = MOD_IND_BYTE_OFS ∨ m = MOD_IND_WORD_OFS →
  0 ≤ rm < 8 → rm ≠ 4 → 0 ≤ reg < 8 →
  decode_mod_am (byte (Z.lor (Z.lor m (ENC_RM rm)) (ENC_REG reg) mod 2 ^ 8) :: tail)
  = (let md := Z.shiftr m 6 in
     let no_base := (md =? 0) && (rm =? 5) in
     base ← (if no_base then Some None else Some <$> reg_of_enc rm);
     d ← decode_disp md no_base tail;
     Some (reg, mk_address base None 0 d.1, d.2)).
Proof.
  intros Hm Hrm H4 Hreg.
  destruct (modrm_byte_fields m rm reg Hm Hrm Hreg) as (Hf1 & Hf2 & Hf3).
  cbv zeta in Hf1, Hf2, Hf3. unfold decode_mod_am. rewrite Hf1, Hf2, Hf3.
  rewrite (mod_not_reg m Hm).
  destruct (Z.eqb_spec rm 4); [done|]. cbv zeta. simpl.
  destruct ((Z.shiftr m 6 =? 0) && (rm =? 5)), (reg_of_enc rm); simpl; try done;
    destruct (decode_disp _ _ tail) as [[d r]|]; done.
Qed.

Lemma decode_sib (m reg scale idx base : Z) (tail : list emitted) :
  m = MOD_IND ∨ m = MOD_IND_BYTE_OFS ∨ m = MOD_IND_WORD_OFS →
  0 ≤ reg < 8 → 0 ≤ scale < 4 → 0 ≤ idx < 8 → 0 ≤ base < 8 →
  decode_mod_am (byte (Z.lor (Z.lor m (ENC_RM 4)) (ENC_REG reg) mod 2 ^ 8)
                 :: byte (ENC_SIB scale idx base mod 2 ^ 8) :: tail)
  = (let md := Z.shiftr m 6 in
     let no_base := (md =? 0) && (base =? 5) in
     b ← (if no_base then Some None else Some <$> reg_of_enc base);
     index ← (if idx =? 4 then Some None else Some <$> reg_of_enc idx);
     d ← decode_disp md no_base tail;
     Some (reg, mk_address b index (if idx =? 4 then 0 else scale) d.1, d.2)).
Proof.
  intros Hm Hreg Hs Hi Hb.
  destruct (modrm_byte_fields m 4 reg Hm ltac:(lia) Hreg) as (Hf1 & Hf2 & Hf3).
  destruct (sib_byte_fields scale idx base Hs Hi Hb) as (Hs1 & Hs2 & Hs3).
  cbv zeta in Hf1, Hf2, Hf3, Hs1, Hs2, Hs3.
  unfold decode_mod_am. rewrite Hf1, Hf2, Hf3.
  rewrite (mod_not_reg m Hm). cbv zeta. simpl. rewrite Hs1, Hs2, Hs3.
  destruct ((Z.shiftr m 6 =? 0) && (base =? 5)), (idx =? 4),
    (reg_of_enc base), (reg_of_enc idx); simpl; try done;
    destruct (decode_disp _ _ tail) as [[d r]|]; done.
Qed.

(** The bytes that [bemit_mod_am] writes are, by the ModR/M and SIB
    tables, the operand that the node asks for: the reg field, the base
    and index registers, the scale and the displacement of the node are
    read back from them.  The index register must not be esp, which has
    no encoding as an index. *)
Theorem bemit_mod_am_decodes (reg : Z) (node : am_node) (rest : list emitted) :
  am_sc node = None →
  am_index node ≠ Some ESP →
  (am_index node ≠ None → 0 ≤ am_scale node < 4) →
  0 ≤ reg < 8 →
  - 2 ^ 31 ≤ am_offs node < 2 ^ 31 →
  ∃ bytes, bemit_mod_am reg node = Some bytes
    ∧ decode_mod_am (bytes ++ rest) = Some (reg, address_of node, rest).
Proof.
  intros Hent Hesp Hscale Hreg Hoffs.
  destruct node as [ent sign offs base index scale]. simpl in *. subst ent.
  unfold bemit_mod_am.
  rewrite (locals_value reg sign offs base index scale) by (intros H; apply Hscale, H).
  cbv zeta. simpl. eexists. split; [reflexivity|].
  unfold address_of. simpl.
  set (m := match base with
            | Some r =>
                match classify_offs offs with
                | offs_zero => if bool_decide (r = EBP) then MOD_IND_BYTE_OFS else MOD_IND
                | offs_byte => MOD_IND_BYTE_OFS
                | offs_word => MOD_IND_WORD_OFS
                end
            | None => MOD_IND
            end).
  set (be := match base with Some r => reg_gp_map r | None => 5 end).
  assert (Hm : m = MOD_IND ∨ m = MOD_IND_BYTE_OFS ∨ m = MOD_IND_WORD_OFS).
  { unfold m. destruct base as [r|]; [|by left].
    destruct (classify_offs offs); [case_bool_decide|..]; auto. }
  assert (Hbe : 0 ≤ be < 8).
  { unfold be. destruct base as [r|]; [apply reg_gp_map_range|lia]. }
  unfold bemit8 at 1. cbn [app].
  destruct index as [ri|].
  - (* with index: a SIB byte *)
    assert (Hs : 0 ≤ scale < 4) by (by apply Hscale).
    unfold bemit8 at 1. cbn [app].
    rewrite (decode_sib m reg scale (reg_gp_map ri) be _ Hm Hreg Hs (reg_gp_map_range ri) Hbe).
    assert (Hri : (reg_gp_map ri =? 4) = false) by (by destruct ri).
    rewrite Hri, reg_of_enc_map. cbv zeta.
    destruct (classify_offs_cases offs) as [[Hc ->] | [[Hc Hr] | [Hc Hr]]];
      unfold m, be; rewrite Hc;
      destruct base as [[]|];
      unfold MOD_IND, MOD_IND_BYTE_OFS, MOD_IND_WORD_OFS, decode_disp, bemit32;
      cbn -[Z.modulo Z.pow sext8 sext32];
      rewrite ?sext8_byte, ?sext32_long by lia; reflexivity.
  - (* without index *)
    destruct (Z.eqb_spec be 4) as [H4|H4].
    + unfold bemit8 at 1. cbn [app].
      rewrite H4.
      rewrite (decode_sib m reg 0 4 4 _ Hm Hreg ltac:(lia) ltac:(lia) ltac:(lia)).
      cbv zeta.
      destruct (classify_offs_cases offs) as [[Hc ->] | [[Hc Hr] | [Hc Hr]]];
        unfold m, be in *; rewrite Hc;
        destruct base as [[]|]; try done;
        unfold MOD_IND, MOD_IND_BYTE_OFS, MOD_IND_WORD_OFS, decode_disp, bemit32;
        cbn -[Z.modulo Z.pow sext8 sext32];
        rewrite ?sext8_byte, ?sext32_long by lia; reflexivity.
    + cbn [app].
      rewrite (decode_no_sib m be reg _ Hm Hbe H4 Hreg).
      cbv zeta.
      destruct (classify_offs_cases offs) as [[Hc ->] | [[Hc Hr] | [Hc Hr]]];
        unfold m, be in *; rewrite Hc;
        destruct base as [[]|]; try done;
        unfold MOD_IND, MOD_IND_BYTE_OFS, MOD_IND_WORD_OFS, decode_disp, bemit32;
        cbn -[Z.modulo Z.pow sext8 sext32];
        rewrite ?sext8_byte, ?sext32_long by lia; reflexivity.
Qed.

(** [leal -8(%ebp,%esi,4), %eax]: base, index, scale and a small
    displacement. *)
Definition ebp_esi_4_minus_8 : am_node := mk_am None false (-8) (Some EBP) (Some ESI) 2.

Lemma bemit_mod_am_decodes_witness :
  ∃ bytes, bemit_mod_am 0 ebp_esi_4_minus_8 = Some bytes
    ∧ decode_mod_am (bytes ++ []) = Some (0, address_of ebp_esi_4_minus_8, []).
Proof.
  apply (bemit_mod_am_decodes 0 ebp_esi_4_minus_8 []).
  - reflexivity.
  - discriminate.
  - intros _. simpl. lia.
  - lia.
  - simpl. lia.
Defined.

End Ia32AddressFacts.
